(** * Huha: task / event lifecycle and effort aggregation

    A shallow embedding of [src/huha.js].  JavaScript objects that are
    shared and mutated in place (the [HuhaTask] instances, reachable both
    from a registry's [tasks] array and from the [parentTask] field of
    their children) live in an explicit object store; a reference is an
    index into that store.  Everything the module reads from its
    environment (the wall clock, the [uuid/v1] generator, the presence of
    the analytics globals) is a component of the [World], and every call
    a forwarder makes on an analytics global is appended to the world's
    [log]. *)

From Stdlib Require Import ZArith Lia.
From stdpp Require Import base option list strings pretty relations gmap.

(** ** Values handed to the analytics backends *)

Inductive JsVal :=
| VStr (s : string)
| VNum (n : Z).

(** An object literal: its keys in source order. *)
Definition JsObject : Type := list (string * JsVal).

(** One call on one of the analytics globals. *)
Inductive SinkCall :=
| gtag (command action : string) (params : JsObject)
| ga (args : list JsVal)
| Intercom (command name : string) (metadata : JsObject)
| analytics_track (name : string) (properties : JsObject).

Inductive Sink := GoogleAnalytics | IntercomSink | Segment.

Definition sink_of (c : SinkCall) : Sink :=
  match c with
  | gtag _ _ _ | ga _ => GoogleAnalytics
  | Intercom _ _ _ => IntercomSink
  | analytics_track _ _ => Segment
  end.

(** ** Constants and configuration *)

Definition IN_PROGRESS : string := "In progress".
Definition COMPLETED : string := "Completed".
Definition ABANDONED : string := "Abandoned".

(** The shape of the module-level [DEFAULTS] object. *)
Record Flags := {
  trackOnGoogleAnalytics : bool;
  trackOnIntercom : bool;
  trackOnSegment : bool
}.

(** [DEFAULTS] as the module text initialises it. *)
Definition DEFAULTS_initial : Flags :=
  {| trackOnGoogleAnalytics := false;
     trackOnIntercom := false;
     trackOnSegment := true |}.

(** An [options] object supplied by a caller: each key may be missing. *)
Record Options := {
  optGoogleAnalytics : option bool;
  optIntercom : option bool;
  optSegment : option bool
}.

Definition no_options : Options :=
  {| optGoogleAnalytics := None; optIntercom := None; optSegment := None |}.

(** [Object.assign(target, source)] on these shapes: every key present in
    [source] overwrites the key of [target]; an undefined [source] is
    skipped.  The result is the (mutated) target. *)
Definition assign (target : Flags) (source : option Options) : Flags :=
  match source with
  | None => target
  | Some o =>
      {| trackOnGoogleAnalytics :=
           default (trackOnGoogleAnalytics target) (optGoogleAnalytics o);
         trackOnIntercom := default (trackOnIntercom target) (optIntercom o);
         trackOnSegment := default (trackOnSegment target) (optSegment o) |}
  end.

(** ** Objects *)

(** A reference to a [HuhaTask] object: its index in the store. *)
Abbreviation addr := nat.

Record HuhaTask := {
  task_name : string;
  task_status : string;
  task_effort : Z;
  task_errors : Z;
  task_start : Z;
  task_end : option Z;               (* null until the task is finished *)
  task_trackOnGoogleAnalytics : bool;
  task_trackOnIntercom : bool;
  task_trackOnSegment : bool;
  task_parentTask : option addr      (* the field is only set when given *)
}.

Definition set_effort (n : Z) (t : HuhaTask) : HuhaTask :=
  {| task_name := task_name t; task_status := task_status t;
     task_effort := n; task_errors := task_errors t;
     task_start := task_start t; task_end := task_end t;
     task_trackOnGoogleAnalytics := task_trackOnGoogleAnalytics t;
     task_trackOnIntercom := task_trackOnIntercom t;
     task_trackOnSegment := task_trackOnSegment t;
     task_parentTask := task_parentTask t |}.

Definition set_errors (n : Z) (t : HuhaTask) : HuhaTask :=
  {| task_name := task_name t; task_status := task_status t;
     task_effort := task_effort t; task_errors := n;
     task_start := task_start t; task_end := task_end t;
     task_trackOnGoogleAnalytics := task_trackOnGoogleAnalytics t;
     task_trackOnIntercom := task_trackOnIntercom t;
     task_trackOnSegment := task_trackOnSegment t;
     task_parentTask := task_parentTask t |}.

(** The two assignments of [finish]: [this.end = ...; this.status = ...]. *)
Definition set_end_status (e : Z) (s : string) (t : HuhaTask) : HuhaTask :=
  {| task_name := task_name t; task_status := s;
     task_effort := task_effort t; task_errors := task_errors t;
     task_start := task_start t; task_end := Some e;
     task_trackOnGoogleAnalytics := task_trackOnGoogleAnalytics t;
     task_trackOnIntercom := task_trackOnIntercom t;
     task_trackOnSegment := task_trackOnSegment t;
     task_parentTask := task_parentTask t |}.

(** The [task] argument of an event: a task name or a task object. *)
Inductive TaskRef :=
| TaskByName (name : string)
| TaskObject (a : addr).

Record HuhaEvent := {
  event_name : string;
  event_object : string;
  event_action : string;
  event_section : string;
  event_value : string;
  event_task : option TaskRef;
  event_eventGroup : string;
  event_trackOnGoogleAnalytics : bool;
  event_trackOnSegment : bool
}.

(** An instance of the exported class: [tasks] holds references. *)
Record Huha := {
  huha_tasks : list addr;
  huha_events : list HuhaEvent;
  huha_trackOnGoogleAnalytics : bool;
  huha_trackOnIntercom : bool;
  huha_trackOnSegment : bool
}.

(** ** The world a call runs in *)

Record World := {
  DEFAULTS : Flags;                (* the module-level object, mutable *)
  heap : list HuhaTask;            (* every HuhaTask allocated so far *)
  log : list SinkCall;             (* calls made on the analytics globals *)
  clock : nat -> Z;                (* successive readings of Date#getTime *)
  clock_reads : nat;
  uuidv1 : nat -> string;          (* successive results of uuid/v1 *)
  uuid_calls : nat;
  gtag_defined : bool;             (* typeof gtag !== 'undefined' *)
  ga_defined : bool;
  Intercom_defined : bool;
  analytics_defined : bool
}.

Definition set_DEFAULTS (d : Flags) (w : World) : World :=
  {| DEFAULTS := d; heap := heap w; log := log w;
     clock := clock w; clock_reads := clock_reads w;
     uuidv1 := uuidv1 w; uuid_calls := uuid_calls w;
     gtag_defined := gtag_defined w; ga_defined := ga_defined w;
     Intercom_defined := Intercom_defined w;
     analytics_defined := analytics_defined w |}.

Definition set_heap (h : list HuhaTask) (w : World) : World :=
  {| DEFAULTS := DEFAULTS w; heap := h; log := log w;
     clock := clock w; clock_reads := clock_reads w;
     uuidv1 := uuidv1 w; uuid_calls := uuid_calls w;
     gtag_defined := gtag_defined w; ga_defined := ga_defined w;
     Intercom_defined := Intercom_defined w;
     analytics_defined := analytics_defined w |}.

(** A forwarder's calls are appended to the log. *)
Definition emit (cs : list SinkCall) (w : World) : World :=
  {| DEFAULTS := DEFAULTS w; heap := heap w; log := log w ++ cs;
     clock := clock w; clock_reads := clock_reads w;
     uuidv1 := uuidv1 w; uuid_calls := uuid_calls w;
     gtag_defined := gtag_defined w; ga_defined := ga_defined w;
     Intercom_defined := Intercom_defined w;
     analytics_defined := analytics_defined w |}.

(** [new Date().getTime()]: the next reading of the clock. *)
Definition getTime (w : World) : Z * World :=
  (clock w (clock_reads w),
   {| DEFAULTS := DEFAULTS w; heap := heap w; log := log w;
      clock := clock w; clock_reads := S (clock_reads w);
      uuidv1 := uuidv1 w; uuid_calls := uuid_calls w;
      gtag_defined := gtag_defined w; ga_defined := ga_defined w;
      Intercom_defined := Intercom_defined w;
      analytics_defined := analytics_defined w |}).

(** [uuidv1()]: the next token of the generator. *)
Definition next_uuid (w : World) : string * World :=
  (uuidv1 w (uuid_calls w),
   {| DEFAULTS := DEFAULTS w; heap := heap w; log := log w;
      clock := clock w; clock_reads := clock_reads w;
      uuidv1 := uuidv1 w; uuid_calls := S (uuid_calls w);
      gtag_defined := gtag_defined w; ga_defined := ga_defined w;
      Intercom_defined := Intercom_defined w;
      analytics_defined := analytics_defined w |}).

(** JavaScript truthiness of a string-or-undefined and of a
    number-or-null. *)
Definition truthy_string (s : option string) : bool :=
  match s with
  | Some s => negb (bool_decide (s = ""))
  | None => false
  end.

Definition truthy_number (n : option Z) : bool :=
  match n with
  | Some n => negb (bool_decide (n = 0%Z))
  | None => false
  end.

(** ** class HuhaTask *)

Module HuhaTask.

(** [constructor(name, parentTask, options)]: returns the reference of
    the new object. *)
Definition new (name : string) (parentTask : option addr)
    (options : option Options) (w : World) : addr * World :=
  let mergedOptions := assign (DEFAULTS w) options in
  let w := set_DEFAULTS mergedOptions w in
  let '(now, w) := getTime w in
  let this :=
    {| task_name := name; task_status := IN_PROGRESS;
       task_effort := 0; task_errors := 0;
       task_start := now; task_end := None;
       task_trackOnGoogleAnalytics := trackOnGoogleAnalytics mergedOptions;
       task_trackOnIntercom := trackOnIntercom mergedOptions;
       task_trackOnSegment := trackOnSegment mergedOptions;
       task_parentTask := parentTask |} in
  (length (heap w), set_heap (heap w ++ [this]) w).

(** [addInteraction()] follows the [parentTask] references; [fuel]
    bounds the number of objects visited. *)
Fixpoint addInteraction_from (fuel : nat) (this : addr)
    (h : list HuhaTask) : option (list HuhaTask) :=
  match fuel with
  | O => None
  | S fuel =>
      t ← h !! this;
      let h := <[this := set_effort (task_effort t + 1) t]> h in
      match task_parentTask t with
      | Some parent => addInteraction_from fuel parent h
      | None => Some h
      end
  end.

Fixpoint addError_from (fuel : nat) (this : addr)
    (h : list HuhaTask) : option (list HuhaTask) :=
  match fuel with
  | O => None
  | S fuel =>
      t ← h !! this;
      let h := <[this := set_errors (task_errors t + 1) t]> h in
      match task_parentTask t with
      | Some parent => addError_from fuel parent h
      | None => Some h
      end
  end.

(** A chain of distinct objects is no longer than the store, so this
    fuel is exhausted only on a cyclic chain, where the recursion of
    the source does not return either. *)
Definition addInteraction (this : addr) (w : World) : option World :=
  h ← addInteraction_from (length (heap w)) this (heap w);
  Some (set_heap h w).

Definition addError (this : addr) (w : World) : option World :=
  h ← addError_from (length (heap w)) this (heap w);
  Some (set_heap h w).

(** [get time()] *)
Definition time (t : HuhaTask) : Z :=
  if truthy_number (task_end t)
  then (default 0 (task_end t) - task_start t)%Z
  else 0%Z.

Definition sendToGoogleAnalytics (t : HuhaTask) (w : World) : World :=
  if gtag_defined w then
    emit [ gtag "event" "timing_complete"
             [ ("event_category", VStr (task_name t));
               ("event_label", VStr "Time on task");
               ("value", VNum (time t));
               ("name", VStr (task_status t)) ];
           gtag "event" (task_status t)
             [ ("event_category", VStr (task_name t));
               ("event_label", VStr "Error");
               ("value", VNum (task_errors t)) ];
           gtag "event" (task_status t)
             [ ("event_category", VStr (task_name t));
               ("event_label", VStr "Effort");
               ("value", VNum (task_effort t)) ] ] w
  else if ga_defined w then
    emit [ ga [ VStr "send"; VStr "timing"; VStr (task_name t);
                VStr (task_status t); VNum (time t);
                VStr "Time on task" ];
           ga [ VStr "send"; VStr "event"; VStr (task_name t);
                VStr (task_status t); VStr "Error";
                VNum (task_errors t) ];
           ga [ VStr "send"; VStr "event"; VStr (task_name t);
                VStr (task_status t); VStr "Effort";
                VNum (task_effort t) ] ] w
  else w.

Definition sendToIntercom (t : HuhaTask) (w : World) : World :=
  if Intercom_defined w then
    emit [ Intercom "trackEvent" (task_name t)
             [ ("errors", VNum (task_errors t));
               ("effort", VNum (task_effort t));
               ("time", VNum (time t));
               ("status", VStr (task_status t)) ] ] w
  else w.

Definition sendToSegment (t : HuhaTask) (w : World) : World :=
  if analytics_defined w then
    emit [ analytics_track (task_name t)
             [ ("category", VStr (task_name t));
               ("action", VStr (task_status t));
               ("label", VStr "Task");
               ("value", VNum 1);
               ("errors", VNum (task_errors t));
               ("effort", VNum (task_effort t));
               ("time", VNum (time t));
               ("result", VStr (task_status t));
               ("started", VNum (task_start t)) ] ] w
  else w.

(** [track()]: the forwarders only read the fields of [this] and call
    the globals, so they are given the object's current fields. *)
Definition track (this : addr) (w : World) : option World :=
  t ← heap w !! this;
  let w := if task_trackOnGoogleAnalytics t
           then sendToGoogleAnalytics t w else w in
  let w := if task_trackOnIntercom t then sendToIntercom t w else w in
  let w := if task_trackOnSegment t then sendToSegment t w else w in
  Some w.

Definition finish (status : string) (this : addr) (w : World)
    : option World :=
  t ← heap w !! this;
  if decide (task_status t = IN_PROGRESS) then
    let '(now, w) := getTime w in
    let w := set_heap (<[this := set_end_status now status t]> (heap w)) w in
    track this w
  else Some w.

Definition complete (this : addr) (w : World) : option World :=
  finish COMPLETED this w.

Definition abandon (this : addr) (w : World) : option World :=
  finish ABANDONED this w.

End HuhaTask.

(** ** class HuhaEvent *)

Module HuhaEvent.

(** [constructor(name, object, action, section, value, task,
    eventGroup, options)] *)
Definition new (name object action section value : string)
    (task : option TaskRef) (eventGroup : option string)
    (options : option Options) (w : World) : HuhaEvent * World :=
  let mergedOptions :=
    assign (DEFAULTS w) (Some (default no_options options)) in
  let w := set_DEFAULTS mergedOptions w in
  let '(group, w) :=
    if truthy_string eventGroup
    then (default "" eventGroup, w)
    else next_uuid w in
  ({| event_name := name; event_object := object;
      event_action := action; event_section := section;
      event_value := value; event_task := task;
      event_eventGroup := group;
      event_trackOnGoogleAnalytics := trackOnGoogleAnalytics mergedOptions;
      event_trackOnSegment := trackOnSegment mergedOptions |}, w).

Definition sendToGoogleAnalytics (e : HuhaEvent) (w : World) : World :=
  if gtag_defined w then
    emit [ gtag "event" (event_action e)
             [ ("event_category", VStr (event_section e));
               ("event_label", VStr (event_object e));
               ("value", VStr (event_value e)) ] ] w
  else if ga_defined w then
    emit [ ga [ VStr "send"; VStr "event"; VStr (event_section e);
                VStr (event_action e); VStr (event_object e);
                VStr (event_value e) ] ] w
  else w.

Definition sendToSegment (e : HuhaEvent) (w : World) : World :=
  if analytics_defined w then
    emit [ analytics_track (event_name e)
             [ ("category", VStr (event_section e));
               ("label", VStr (event_object e));
               ("action", VStr (event_action e));
               ("value", VStr (event_value e));
               ("eventGroup", VStr (event_eventGroup e)) ] ] w
  else w.

Definition track (e : HuhaEvent) (w : World) : World :=
  let w := if event_trackOnGoogleAnalytics e
           then sendToGoogleAnalytics e w else w in
  let w := if event_trackOnSegment e then sendToSegment e w else w in
  w.

End HuhaEvent.

(** ** class Huha *)

(** The [dataset] of an element carrying the [data-huha-*] attributes.
    The listeners installed by [setUpEvents] hand an element to
    [registerEvent] only when ['huhaTask' in dataset]; the other two
    attributes may be missing. *)
Record Dataset := {
  huhaTask : string;
  huhaTrigger : option string;
  huhaEvent : option string
}.

Definition push_task (a : addr) (this : Huha) : Huha :=
  {| huha_tasks := huha_tasks this ++ [a];
     huha_events := huha_events this;
     huha_trackOnGoogleAnalytics := huha_trackOnGoogleAnalytics this;
     huha_trackOnIntercom := huha_trackOnIntercom this;
     huha_trackOnSegment := huha_trackOnSegment this |}.

Definition push_event (e : HuhaEvent) (this : Huha) : Huha :=
  {| huha_tasks := huha_tasks this;
     huha_events := huha_events this ++ [e];
     huha_trackOnGoogleAnalytics := huha_trackOnGoogleAnalytics this;
     huha_trackOnIntercom := huha_trackOnIntercom this;
     huha_trackOnSegment := huha_trackOnSegment this |}.

(** [array.forEach(x => f(x))] for a callback acting on the world. *)
Fixpoint forEach (f : addr -> World -> option World) (l : list addr)
    (w : World) : option World :=
  match l with
  | [] => Some w
  | a :: l => w ← f a w; forEach f l w
  end.

Module Huha.

(** [constructor(options)]; [setUpEvents] only installs listeners,
    which are the entry points [abandonInProgressTasks] (on unload)
    and [registerEvent] (on click, focus and change). *)
Definition new (options : option Options) (w : World) : Huha * World :=
  let mergedOptions :=
    assign (DEFAULTS w) (Some (default no_options options)) in
  ({| huha_tasks := []; huha_events := [];
      huha_trackOnGoogleAnalytics := trackOnGoogleAnalytics mergedOptions;
      huha_trackOnIntercom := trackOnIntercom mergedOptions;
      huha_trackOnSegment := trackOnSegment mergedOptions |},
   set_DEFAULTS mergedOptions w).

(** The callback of [getTask] and of [abandonInProgressTasks]. *)
Definition in_progress (w : World) (a : addr) : bool :=
  match heap w !! a with
  | Some t => bool_decide (task_status t = IN_PROGRESS)
  | None => false
  end.

Definition named_in_progress (w : World) (name : string) (a : addr)
    : bool :=
  match heap w !! a with
  | Some t => bool_decide (task_name t = name) && in_progress w a
  | None => false
  end.

(** [getTask(name)]: [Array.prototype.find], the first match or
    undefined. *)
Definition getTask (name : string) (this : Huha) (w : World)
    : option addr :=
  List.find (named_in_progress w name) (huha_tasks this).

Definition createTask (name : string) (parentTask : option addr)
    (this : Huha) (w : World) : option (addr * Huha * World) :=
  w ← match getTask name this w with
       | Some existingTask => HuhaTask.abandon existingTask w
       | None => Some w
       end;
  let '(huhaTask, w) :=
    HuhaTask.new name parentTask
      (Some {| optGoogleAnalytics := Some (huha_trackOnGoogleAnalytics this);
               optIntercom := Some (huha_trackOnIntercom this);
               optSegment := Some (huha_trackOnSegment this) |}) w in
  Some (huhaTask, push_task huhaTask this, w).

Definition createEvent (name object action section value : string)
    (task : option TaskRef) (eventGroup : option string)
    (this : Huha) (w : World) : HuhaEvent * Huha * World :=
  let '(huhaEvent, w) :=
    HuhaEvent.new name object action section value task eventGroup
      (Some {| optGoogleAnalytics := Some (huha_trackOnGoogleAnalytics this);
               optIntercom := None;
               optSegment := Some (huha_trackOnSegment this) |}) w in
  let w := HuhaEvent.track huhaEvent w in
  (huhaEvent, push_event huhaEvent this, w).

Definition registerEvent (capturedEvent : string) (dataset : Dataset)
    (this : Huha) (w : World) : option (Huha * World) :=
  let taskName := huhaTask dataset in
  let actionTrigger := huhaTrigger dataset in
  let eventType := huhaEvent dataset in
  if decide (Some capturedEvent = actionTrigger) then
    if decide (eventType = Some "start") then
      '(_, this, w) ← createTask taskName None this w;
      Some (this, w)
    else
      match getTask taskName this w with
      | Some task =>
          if decide (eventType = Some "complete") then
            w ← HuhaTask.complete task w; Some (this, w)
          else if decide (eventType = Some "abandon") then
            w ← HuhaTask.abandon task w; Some (this, w)
          else if decide (eventType = Some "interaction") then
            w ← HuhaTask.addInteraction task w; Some (this, w)
          else if decide (eventType = Some "error") then
            w ← HuhaTask.addError task w; Some (this, w)
          else Some (this, w)
      | None => Some (this, w)
      end
  else Some (this, w).

Definition abandonInProgressTasks (this : Huha) (w : World)
    : option World :=
  let pendingTasks := List.filter (in_progress w) (huha_tasks this) in
  forEach HuhaTask.abandon pendingTasks w.

End Huha.

(** ** What one dispatch puts on the log

    The calls a task summary produces, sink by sink, written as plain
    lists so that the order and the number of calls can be read off. *)

Definition ga_task_calls (w : World) (t : HuhaTask) : list SinkCall :=
  if gtag_defined w then
    [ gtag "event" "timing_complete"
        [ ("event_category", VStr (task_name t));
          ("event_label", VStr "Time on task");
          ("value", VNum (HuhaTask.time t));
          ("name", VStr (task_status t)) ];
      gtag "event" (task_status t)
        [ ("event_category", VStr (task_name t));
          ("event_label", VStr "Error");
          ("value", VNum (task_errors t)) ];
      gtag "event" (task_status t)
        [ ("event_category", VStr (task_name t));
          ("event_label", VStr "Effort");
          ("value", VNum (task_effort t)) ] ]
  else if ga_defined w then
    [ ga [ VStr "send"; VStr "timing"; VStr (task_name t);
           VStr (task_status t); VNum (HuhaTask.time t);
           VStr "Time on task" ];
      ga [ VStr "send"; VStr "event"; VStr (task_name t);
           VStr (task_status t); VStr "Error"; VNum (task_errors t) ];
      ga [ VStr "send"; VStr "event"; VStr (task_name t);
           VStr (task_status t); VStr "Effort"; VNum (task_effort t) ] ]
  else [].

Definition intercom_task_calls (w : World) (t : HuhaTask) : list SinkCall :=
  if Intercom_defined w then
    [ Intercom "trackEvent" (task_name t)
        [ ("errors", VNum (task_errors t));
          ("effort", VNum (task_effort t));
          ("time", VNum (HuhaTask.time t));
          ("status", VStr (task_status t)) ] ]
  else [].

Definition segment_task_calls (w : World) (t : HuhaTask) : list SinkCall :=
  if analytics_defined w then
    [ analytics_track (task_name t)
        [ ("category", VStr (task_name t));
          ("action", VStr (task_status t));
          ("label", VStr "Task");
          ("value", VNum 1);
          ("errors", VNum (task_errors t));
          ("effort", VNum (task_effort t));
          ("time", VNum (HuhaTask.time t));
          ("result", VStr (task_status t));
          ("started", VNum (task_start t)) ] ]
  else [].

(** The summary of task [t]: each enabled forwarder once, Google
    Analytics first, then Intercom, then Segment. *)
Definition summary_calls (w : World) (t : HuhaTask) : list SinkCall :=
  (if task_trackOnGoogleAnalytics t then ga_task_calls w t else [])
  ++ (if task_trackOnIntercom t then intercom_task_calls w t else [])
  ++ (if task_trackOnSegment t then segment_task_calls w t else []).

(** The calls the dispatch of event [e] produces: Google Analytics,
    then Segment. *)
Definition event_calls (w : World) (e : HuhaEvent) : list SinkCall :=
  (if event_trackOnGoogleAnalytics e then
     if gtag_defined w then
       [ gtag "event" (event_action e)
           [ ("event_category", VStr (event_section e));
             ("event_label", VStr (event_object e));
             ("value", VStr (event_value e)) ] ]
     else if ga_defined w then
       [ ga [ VStr "send"; VStr "event"; VStr (event_section e);
              VStr (event_action e); VStr (event_object e);
              VStr (event_value e) ] ]
     else []
   else [])
  ++ (if event_trackOnSegment e then
        if analytics_defined w then
          [ analytics_track (event_name e)
              [ ("category", VStr (event_section e));
                ("label", VStr (event_object e));
                ("action", VStr (event_action e));
                ("value", VStr (event_value e));
                ("eventGroup", VStr (event_eventGroup e)) ] ]
        else []
      else []).

(** The world after the first terminal transition of the object at
    [this], whose fields were [t]: one clock reading, the two field
    writes, one summary. *)
Definition finished (status : string) (this : addr) (t : HuhaTask)
    (w : World) : World :=
  let t' := set_end_status (clock w (clock_reads w)) status t in
  emit (summary_calls w t')
    (set_heap (<[this := t']> (heap w)) (snd (getTime w))).


(** ** Sequences of calls on one task *)

Inductive TerminalCall := CallComplete | CallAbandon.

Definition terminal_status (c : TerminalCall) : string :=
  match c with
  | CallComplete => COMPLETED
  | CallAbandon => ABANDONED
  end.

Definition call_terminal (c : TerminalCall) (this : addr) (w : World)
    : option World :=
  match c with
  | CallComplete => HuhaTask.complete this w
  | CallAbandon => HuhaTask.abandon this w
  end.

Fixpoint call_terminals (cs : list TerminalCall) (this : addr) (w : World)
    : option World :=
  match cs with
  | [] => Some w
  | c :: cs => w ← call_terminal c this w; call_terminals cs this w
  end.

(** ** Sample worlds *)

(** A page on which only Segment's [analytics] global is loaded; the
    clock reads 1000, 1500, 2000, ... *)
Definition sample_world : World :=
  {| DEFAULTS := DEFAULTS_initial; heap := []; log := [];
     clock := fun n => (1000 + 500 * Z.of_nat n)%Z; clock_reads := 0;
     uuidv1 := fun n => "uuid-" +:+ pretty n; uuid_calls := 0;
     gtag_defined := false; ga_defined := false;
     Intercom_defined := false; analytics_defined := true |}.

(** The same page with a clock that reads one second before the epoch
    and then the epoch itself. *)
Definition epoch_world : World :=
  {| DEFAULTS := DEFAULTS_initial; heap := []; log := [];
     clock := fun n => match n with O => (-1000)%Z | S _ => 0%Z end;
     clock_reads := 0;
     uuidv1 := fun n => "uuid-" +:+ pretty n; uuid_calls := 0;
     gtag_defined := false; ga_defined := false;
     Intercom_defined := false; analytics_defined := true |}.

(** Task "checkout" created on the sample page, then
    [addInteraction(); addInteraction(); addError()]. *)
Definition checkout_world : option World :=
  let '(a, w) := HuhaTask.new "checkout" None None sample_world in
  w ← HuhaTask.addInteraction a w;
  w ← HuhaTask.addInteraction a w;
  HuhaTask.addError a w.

(** The object and the world this leaves, and the world after the task
    is completed. *)
Definition checkout_task : HuhaTask :=
  {| task_name := "checkout"; task_status := IN_PROGRESS;
     task_effort := 2; task_errors := 1;
     task_start := 1000; task_end := None;
     task_trackOnGoogleAnalytics := false;
     task_trackOnIntercom := false;
     task_trackOnSegment := true;
     task_parentTask := None |}.

Definition checkout_running : World :=
  set_heap [checkout_task] (snd (getTime sample_world)).

Definition checkout_done : World :=
  finished COMPLETED 0 checkout_task checkout_running.


(** The "checkout" task created one second before the epoch and
    completed at the epoch, and the object this leaves. *)
Definition epoch_run : option World :=
  let '(a, w) := HuhaTask.new "checkout" None None epoch_world in
  HuhaTask.complete a w.

Definition epoch_task : HuhaTask :=
  {| task_name := "checkout"; task_status := COMPLETED;
     task_effort := 0; task_errors := 0;
     task_start := -1000; task_end := Some 0%Z;
     task_trackOnGoogleAnalytics := false;
     task_trackOnIntercom := false;
     task_trackOnSegment := true;
     task_parentTask := None |}.

(** An element that declares [data-huha-task="checkout"
    data-huha-trigger="click" data-huha-event="complete"]. *)
Definition complete_on_click : Dataset :=
  {| huhaTask := "checkout"; huhaTrigger := Some "click";
     huhaEvent := Some "complete" |}.

(** A registry that holds the "checkout" task. *)
Definition checkout_registry : Huha :=
  {| huha_tasks := [0]; huha_events := [];
     huha_trackOnGoogleAnalytics := false;
     huha_trackOnIntercom := false;
     huha_trackOnSegment := true |}.

(** ** Variations of the Intercom setting *)

Definition with_optIntercom (i : option bool) (o : Options) : Options :=
  {| optGoogleAnalytics := optGoogleAnalytics o; optIntercom := i;
     optSegment := optSegment o |}.

Definition with_trackOnIntercom (b : bool) (d : Flags) : Flags :=
  {| trackOnGoogleAnalytics := trackOnGoogleAnalytics d;
     trackOnIntercom := b; trackOnSegment := trackOnSegment d |}.

Definition with_huha_trackOnIntercom (b : bool) (this : Huha) : Huha :=
  {| huha_tasks := huha_tasks this; huha_events := huha_events this;
     huha_trackOnGoogleAnalytics := huha_trackOnGoogleAnalytics this;
     huha_trackOnIntercom := b;
     huha_trackOnSegment := huha_trackOnSegment this |}.

(** ** Sequences of constructions *)

(** One [new] expression with its [options] argument. *)
Inductive Construction :=
| NewHuha (options : option Options)
| NewHuhaTask (name : string) (parentTask : option addr)
    (options : option Options)
| NewHuhaEvent (name object action section value : string)
    (task : option TaskRef) (eventGroup : option string)
    (options : option Options).

Definition options_of (c : Construction) : option Options :=
  match c with
  | NewHuha options => options
  | NewHuhaTask _ _ options => options
  | NewHuhaEvent _ _ _ _ _ _ _ options => options
  end.

(** The flags the constructed object stores ([HuhaEvent] stores no
    Intercom flag). *)
Definition construct (c : Construction) (w : World)
    : bool * option bool * bool * World :=
  match c with
  | NewHuha options =>
      let '(this, w) := Huha.new options w in
      (huha_trackOnGoogleAnalytics this, Some (huha_trackOnIntercom this),
       huha_trackOnSegment this, w)
  | NewHuhaTask name parentTask options =>
      let '(a, w) := HuhaTask.new name parentTask options w in
      match heap w !! a with
      | Some t =>
          (task_trackOnGoogleAnalytics t, Some (task_trackOnIntercom t),
           task_trackOnSegment t, w)
      | None => (false, None, false, w)
      end
  | NewHuhaEvent name object action section value task eventGroup options =>
      let '(e, w) :=
        HuhaEvent.new name object action section value task eventGroup
          options w in
      (event_trackOnGoogleAnalytics e, None, event_trackOnSegment e, w)
  end.

Definition constructs (cs : list Construction) (w : World) : World :=
  foldl (fun w c => snd (construct c w)) w cs.

(** The options [{trackOnIntercom: true, trackOnSegment: false}]. *)
Definition intercom_only : Options :=
  {| optGoogleAnalytics := None; optIntercom := Some true;
     optSegment := Some false |}.

(** The value most recently supplied for a key by a list of [options]
    arguments, if any of them had the key. *)
Definition latest (key : Options -> option bool)
    (os : list (option Options)) : option bool :=
  foldl (fun acc o => match o ≫= key with Some b => Some b | None => acc end)
    None os.

(** ** Sequences of event constructions *)

(** The arguments of one [new HuhaEvent(...)]. *)
Record EventArgs := {
  arg_name : string;
  arg_object : string;
  arg_action : string;
  arg_section : string;
  arg_value : string;
  arg_task : option TaskRef;
  arg_eventGroup : option string;
  arg_options : option Options
}.

Definition new_event (a : EventArgs) (w : World) : HuhaEvent * World :=
  HuhaEvent.new (arg_name a) (arg_object a) (arg_action a) (arg_section a)
    (arg_value a) (arg_task a) (arg_eventGroup a) (arg_options a) w.

(** The events constructed from a list of arguments, in order. *)
Fixpoint new_events (l : list EventArgs) (w : World)
    : list HuhaEvent * World :=
  match l with
  | [] => ([], w)
  | a :: l =>
      let '(e, w) := new_event a w in
      let '(es, w) := new_events l w in
      (e :: es, w)
  end.

(** How many of the constructions in [l] take their group from the
    generator. *)
Definition generated (l : list EventArgs) : nat :=
  length (filter (fun a => truthy_string (arg_eventGroup a) = false) l).

Definition sample_event (eventGroup : option string) : EventArgs :=
  {| arg_name := "Open menu"; arg_object := "menu"; arg_action := "open";
     arg_section := "navigation"; arg_value := "1"; arg_task := None;
     arg_eventGroup := eventGroup; arg_options := None |}.

(** ** Parent chains *)

(** A [parentTask] handed to the constructor is an object that exists
    already, so in the store every parent precedes its children. *)
Definition parents_older (h : list HuhaTask) : Prop :=
  forall a t p, h !! a = Some t -> task_parentTask t = Some p -> p < a.

(** [reaches h a b]: following [parentTask] from the object at [a] zero
    or more times leads to the object at [b]; [b] is [a] or one of its
    ancestors, and [a] is [b] or one of its descendants. *)
Inductive reaches (h : list HuhaTask) : addr -> addr -> Prop :=
| reaches_self a t :
    h !! a = Some t -> reaches h a a
| reaches_parent a t p b :
    h !! a = Some t -> task_parentTask t = Some p -> reaches h p b ->
    reaches h a b.

(** Two stores whose objects have the same parents. *)
Definition same_parents (h h' : list HuhaTask) : Prop :=
  forall a, task_parentTask <$> h !! a = task_parentTask <$> h' !! a.

(** The field writes of [addInteraction] and [addError]. *)
Definition bump_effort (t : HuhaTask) : HuhaTask :=
  set_effort (task_effort t + 1) t.

Definition bump_errors (t : HuhaTask) : HuhaTask :=
  set_errors (task_errors t + 1) t.

(** ** Sequences of counter calls *)

Inductive CounterCall :=
| CallAddInteraction (this : addr)
| CallAddError (this : addr).

Definition call_target (c : CounterCall) : addr :=
  match c with
  | CallAddInteraction this => this
  | CallAddError this => this
  end.

Definition bump_of (c : CounterCall) : HuhaTask -> HuhaTask :=
  match c with
  | CallAddInteraction _ => bump_effort
  | CallAddError _ => bump_errors
  end.

Definition call_counter (c : CounterCall) (w : World) : option World :=
  match c with
  | CallAddInteraction this => HuhaTask.addInteraction this w
  | CallAddError this => HuhaTask.addError this w
  end.

Fixpoint call_counters (cs : list CounterCall) (w : World) : option World :=
  match cs with
  | [] => Some w
  | c :: cs => w ← call_counter c w; call_counters cs w
  end.

(** The number of [addInteraction()] and of [addError()] calls in a
    sequence. *)
Fixpoint interactions (cs : list CounterCall) : Z :=
  match cs with
  | [] => 0
  | CallAddInteraction _ :: cs => 1 + interactions cs
  | CallAddError _ :: cs => interactions cs
  end.

Fixpoint failures (cs : list CounterCall) : Z :=
  match cs with
  | [] => 0
  | CallAddInteraction _ :: cs => failures cs
  | CallAddError _ :: cs => 1 + failures cs
  end.

(** Task "signup", completed at 1500, and its child "signup.step1",
    still in progress. *)
Definition signup_task : HuhaTask :=
  {| task_name := "signup"; task_status := COMPLETED;
     task_effort := 0; task_errors := 0;
     task_start := 1000; task_end := Some 1500%Z;
     task_trackOnGoogleAnalytics := false;
     task_trackOnIntercom := false;
     task_trackOnSegment := true;
     task_parentTask := None |}.

Definition step1_task : HuhaTask :=
  {| task_name := "signup.step1"; task_status := IN_PROGRESS;
     task_effort := 0; task_errors := 0;
     task_start := 1200; task_end := None;
     task_trackOnGoogleAnalytics := false;
     task_trackOnIntercom := false;
     task_trackOnSegment := true;
     task_parentTask := Some 0 |}.

Definition signup_world : World :=
  set_heap [signup_task; step1_task] sample_world.

(** ** The sweep at unload *)

(** The fields of a task abandoned at the [i]-th clock reading from
    now, and the summary the [i]-th abandoned task sends. *)
Definition abandoned_at (w : World) (i : nat) (t : HuhaTask) : HuhaTask :=
  set_end_status (clock w (clock_reads w + i)) ABANDONED t.

Definition sweep_calls (w : World) (i : nat) (a : addr) : list SinkCall :=
  match heap w !! a with
  | Some t => summary_calls w (abandoned_at w i t)
  | None => []
  end.

(** Worlds that differ only in the store, the log and the number of
    clock readings. *)
Definition same_environment (w w' : World) : Prop :=
  DEFAULTS w' = DEFAULTS w
  /\ clock w' = clock w
  /\ uuidv1 w' = uuidv1 w /\ uuid_calls w' = uuid_calls w
  /\ gtag_defined w' = gtag_defined w /\ ga_defined w' = ga_defined w
  /\ Intercom_defined w' = Intercom_defined w
  /\ analytics_defined w' = analytics_defined w.

(** A registry with three tasks: "cart" and "search" in progress,
    "checkout" completed. *)
Definition cart_task : HuhaTask :=
  {| task_name := "cart"; task_status := IN_PROGRESS;
     task_effort := 3; task_errors := 0;
     task_start := 100; task_end := None;
     task_trackOnGoogleAnalytics := false;
     task_trackOnIntercom := false;
     task_trackOnSegment := true;
     task_parentTask := None |}.

Definition search_task : HuhaTask :=
  {| task_name := "search"; task_status := IN_PROGRESS;
     task_effort := 1; task_errors := 2;
     task_start := 300; task_end := None;
     task_trackOnGoogleAnalytics := false;
     task_trackOnIntercom := false;
     task_trackOnSegment := true;
     task_parentTask := None |}.

Definition paid_task : HuhaTask :=
  set_end_status 900 COMPLETED checkout_task.

Definition three_tasks_world : World :=
  set_heap [cart_task; paid_task; search_task] sample_world.

Definition three_tasks_registry : Huha :=
  {| huha_tasks := [0; 1; 2]; huha_events := [];
     huha_trackOnGoogleAnalytics := false;
     huha_trackOnIntercom := false;
     huha_trackOnSegment := true |}.

(** ** The registry as a transition system *)

(** For each name, at most one position of [tasks] holds a task of
    that name that is in progress. *)
Definition one_in_progress (this : Huha) (w : World) : Prop :=
  forall name i j a b,
    huha_tasks this !! i = Some a ->
    huha_tasks this !! j = Some b ->
    Huha.named_in_progress w name a = true ->
    Huha.named_in_progress w name b = true ->
    i = j.

(** The [tasks] of a registry are distinct objects of the store, one in
    progress per name. *)
Definition tasks_ok (this : Huha) (w : World) : Prop :=
  NoDup (huha_tasks this)
  /\ Forall (fun a => a < length (heap w)) (huha_tasks this)
  /\ one_in_progress this w.

(** What may happen to a registry and its world: a call of one of its
    methods, a call of a method of any task object, or a task created
    by another registry of the same page. *)
Inductive step : Huha * World -> Huha * World -> Prop :=
| step_createTask this w name parentTask huhaTask this' w' :
    (forall p, parentTask = Some p -> p < length (heap w)) ->
    Huha.createTask name parentTask this w = Some (huhaTask, this', w') ->
    step (this, w) (this', w')
| step_createEvent this w name object action section value task eventGroup
    huhaEvent this' w' :
    Huha.createEvent name object action section value task eventGroup this w
    = (huhaEvent, this', w') ->
    step (this, w) (this', w')
| step_registerEvent this w capturedEvent dataset this' w' :
    Huha.registerEvent capturedEvent dataset this w = Some (this', w') ->
    step (this, w) (this', w')
| step_abandonInProgressTasks this w w' :
    Huha.abandonInProgressTasks this w = Some w' ->
    step (this, w) (this, w')
| step_terminal this w c task w' :
    call_terminal c task w = Some w' ->
    step (this, w) (this, w')
| step_counter this w c w' :
    call_counter c w = Some w' ->
    step (this, w) (this, w')
| step_other_registry this w other name parentTask huhaTask other' w' :
    (forall p, parentTask = Some p -> p < length (heap w)) ->
    Huha.createTask name parentTask other w = Some (huhaTask, other', w') ->
    step (this, w) (this, w').

(** A registry as its constructor leaves it, in a world whose store is
    well formed. *)
Definition initial (s : Huha * World) : Prop :=
  exists options w, parents_older (heap w) /\ s = Huha.new options w.

Definition reachable (s : Huha * World) : Prop :=
  exists s0, initial s0 /\ rtc step s0 s.

(** How a store changes: objects are never removed, keep their name
    and parent, and never go back to "In progress". *)
Definition evolves (h h' : list HuhaTask) : Prop :=
  length h <= length h'
  /\ forall a t, h !! a = Some t ->
       exists t', h' !! a = Some t'
         /\ task_name t' = task_name t
         /\ task_parentTask t' = task_parentTask t
         /\ (task_status t' = IN_PROGRESS -> task_status t = IN_PROGRESS).

(** The options [createTask] passes to the task constructor. *)
Definition task_options (this : Huha) : Options :=
  {| optGoogleAnalytics := Some (huha_trackOnGoogleAnalytics this);
     optIntercom := Some (huha_trackOnIntercom this);
     optSegment := Some (huha_trackOnSegment this) |}.

(** A registry constructed without options on the sample page. *)
Definition fresh_registry : Huha * World := Huha.new None sample_world.

(** ** Sample pages for the summary dispatch *)

(** The "checkout" task of above, tracked on the three services. *)
Definition tracked_task : HuhaTask :=
  {| task_name := "checkout"; task_status := IN_PROGRESS;
     task_effort := 2; task_errors := 1;
     task_start := 1000; task_end := None;
     task_trackOnGoogleAnalytics := true;
     task_trackOnIntercom := true;
     task_trackOnSegment := true;
     task_parentTask := None |}.

(** A page on which [gtag], [ga], [Intercom] and [analytics] are all
    loaded, with [tracked_task] running; the clock has been read once
    and reads 1500 next. *)
Definition full_page : World :=
  {| DEFAULTS := DEFAULTS_initial; heap := [tracked_task]; log := [];
     clock := fun n => (1000 + 500 * Z.of_nat n)%Z; clock_reads := 1;
     uuidv1 := fun n => "uuid-" +:+ pretty n; uuid_calls := 0;
     gtag_defined := true; ga_defined := true;
     Intercom_defined := true; analytics_defined := true |}.

(** The same page when a blocker has removed [gtag] and [Intercom]:
    only [ga] and [analytics] are loaded. *)
Definition blocked_page : World :=
  {| DEFAULTS := DEFAULTS_initial; heap := [tracked_task]; log := [];
     clock := fun n => (1000 + 500 * Z.of_nat n)%Z; clock_reads := 1;
     uuidv1 := fun n => "uuid-" +:+ pretty n; uuid_calls := 0;
     gtag_defined := false; ga_defined := true;
     Intercom_defined := false; analytics_defined := true |}.

(** ** The token generator *)

(** Modelled from the spec: the function [uuidv1] that huha.js imports
    from the package "uuid" ([import uuidv1 from 'uuid/v1']), which is
    not under src/.  The spec says of the group it generates only that
    it is "generated fresh (a process-unique random token)": a token is
    a non-empty string and no two calls of one process yield the same
    one.  [process_unique n] is the token of the [n]-th call of the
    process; which string it is stands for the random part. *)
Definition process_unique (n : nat) : string := "uuid-" +:+ pretty n.

(** The page [w] with [f] as its generator. *)
Definition with_uuidv1 (f : nat -> string) (w : World) : World :=
  {| DEFAULTS := DEFAULTS w; heap := heap w; log := log w;
     clock := clock w; clock_reads := clock_reads w;
     uuidv1 := f; uuid_calls := uuid_calls w;
     gtag_defined := gtag_defined w; ga_defined := ga_defined w;
     Intercom_defined := Intercom_defined w;
     analytics_defined := analytics_defined w |}.

(** ** The registry's configuration as a [DEFAULTS]-shaped object *)

Definition registry_flags (this : Huha) : Flags :=
  {| trackOnGoogleAnalytics := huha_trackOnGoogleAnalytics this;
     trackOnIntercom := huha_trackOnIntercom this;
     trackOnSegment := huha_trackOnSegment this |}.

(** The object [new HuhaTask(name, parentTask, options)] builds when the
    merged options are [flags] and the clock reads [now]. *)
Definition fresh_task (name : string) (parentTask : option addr)
    (flags : Flags) (now : Z) : HuhaTask :=
  {| task_name := name; task_status := IN_PROGRESS;
     task_effort := 0; task_errors := 0;
     task_start := now; task_end := None;
     task_trackOnGoogleAnalytics := trackOnGoogleAnalytics flags;
     task_trackOnIntercom := trackOnIntercom flags;
     task_trackOnSegment := trackOnSegment flags;
     task_parentTask := parentTask |}.

(** ** The elementary effects of the library on the world

    Every method of the registry is a sequence of these: a task is
    constructed, a task is completed or abandoned, a counter is
    incremented, an event is constructed and dispatched. *)
Inductive prim : World -> World -> Prop :=
| prim_new name parentTask options w :
    (forall p, parentTask = Some p -> p < length (heap w)) ->
    prim w (snd (HuhaTask.new name parentTask options w))
| prim_terminal c this w w' :
    call_terminal c this w = Some w' -> prim w w'
| prim_counter c w w' :
    call_counter c w = Some w' -> prim w w'
| prim_event name object action section value task eventGroup options w :
    prim w
      (HuhaEvent.track
         (fst (HuhaEvent.new name object action section value task
                 eventGroup options w))
         (snd (HuhaEvent.new name object action section value task
                 eventGroup options w))).

(** What may become of a task object: its name, start, parent and
    tracking flags stay; its counters do not decrease; once it is no
    longer in progress, its status and end stay. *)
Definition task_advances (t t' : HuhaTask) : Prop :=
  task_name t' = task_name t
  /\ task_start t' = task_start t
  /\ task_parentTask t' = task_parentTask t
  /\ task_trackOnGoogleAnalytics t' = task_trackOnGoogleAnalytics t
  /\ task_trackOnIntercom t' = task_trackOnIntercom t
  /\ task_trackOnSegment t' = task_trackOnSegment t
  /\ (task_effort t <= task_effort t')%Z
  /\ (task_errors t <= task_errors t')%Z
  /\ (task_status t <> IN_PROGRESS ->
      task_status t' = task_status t /\ task_end t' = task_end t).

(** What may become of the world: the environment is not modified, the
    log and the store only grow, and every object advances. *)
Definition advances (w w' : World) : Prop :=
  clock w' = clock w
  /\ uuidv1 w' = uuidv1 w
  /\ gtag_defined w' = gtag_defined w
  /\ ga_defined w' = ga_defined w
  /\ Intercom_defined w' = Intercom_defined w
  /\ analytics_defined w' = analytics_defined w
  /\ clock_reads w <= clock_reads w'
  /\ uuid_calls w <= uuid_calls w'
  /\ log w `prefix_of` log w'
  /\ length (heap w) <= length (heap w')
  /\ forall a t, heap w !! a = Some t ->
       exists t', heap w' !! a = Some t' /\ task_advances t t'.

(** ** Scripts

    A call of a method of the registry or of a task, as a value. *)
Inductive Op :=
| OpCreateTask (name : string) (parentTask : option addr)
| OpCreateEvent (name object action section value : string)
    (task : option TaskRef) (eventGroup : option string)
| OpRegisterEvent (capturedEvent : string) (dataset : Dataset)
| OpAbandonInProgressTasks
| OpTerminal (c : TerminalCall) (task : addr)
| OpCounter (c : CounterCall).

(** A parent handed to [createTask] is an object of the store. *)
Definition parent_exists (parentTask : option addr) (w : World) : bool :=
  match parentTask with
  | Some p => bool_decide (p < length (heap w))
  | None => true
  end.

Definition run_op (op : Op) (s : Huha * World) : option (Huha * World) :=
  let '(this, w) := s in
  match op with
  | OpCreateTask name parentTask =>
      if parent_exists parentTask w
      then '(_, this, w) ← Huha.createTask name parentTask this w;
           Some (this, w)
      else None
  | OpCreateEvent name object action section value task eventGroup =>
      let '(_, this, w) :=
        Huha.createEvent name object action section value task eventGroup
          this w in
      Some (this, w)
  | OpRegisterEvent capturedEvent dataset =>
      Huha.registerEvent capturedEvent dataset this w
  | OpAbandonInProgressTasks =>
      w ← Huha.abandonInProgressTasks this w; Some (this, w)
  | OpTerminal c task => w ← call_terminal c task w; Some (this, w)
  | OpCounter c => w ← call_counter c w; Some (this, w)
  end.

Fixpoint run_ops (ops : list Op) (s : Huha * World)
    : option (Huha * World) :=
  match ops with
  | [] => Some s
  | op :: ops => s ← run_op op s; run_ops ops s
  end.

(** ** Invariants of the store *)

(** A task is in progress with no end, or completed or abandoned with
    an end. *)
Definition status_coherent (t : HuhaTask) : Prop :=
  (task_status t = IN_PROGRESS /\ task_end t = None)
  \/ ((task_status t = COMPLETED \/ task_status t = ABANDONED)
      /\ is_Some (task_end t)).

Definition coherent (w : World) : Prop :=
  forall a t, heap w !! a = Some t -> status_coherent t.

(** Counters are not negative, and those of a task do not exceed those
    of its parent. *)
Definition counters_ok (h : list HuhaTask) : Prop :=
  forall a t,
    h !! a = Some t ->
    (0 <= task_effort t)%Z /\ (0 <= task_errors t)%Z
    /\ forall p tp,
         task_parentTask t = Some p -> h !! p = Some tp ->
         (task_effort t <= task_effort tp)%Z
         /\ (task_errors t <= task_errors tp)%Z.

(** The start of a task is a past reading of the clock, and its end,
    when set, a later one. *)
Definition clocked (w : World) : Prop :=
  forall a t,
    heap w !! a = Some t ->
    exists i,
      i < clock_reads w /\ task_start t = clock w i
      /\ forall e, task_end t = Some e ->
           exists j, i < j < clock_reads w /\ e = clock w j.

(** A clock that never goes back. *)
Definition monotone (clock : nat -> Z) : Prop :=
  forall i j, i <= j -> (clock i <= clock j)%Z.

(** A session on the sample page: [createTask("signup")], then
    [createTask("signup.step1", signup)], one [addInteraction()] and
    one [addError()] on the child, and [complete()] on the parent. *)
Definition signup_script : list Op :=
  [ OpCreateTask "signup" None;
    OpCreateTask "signup.step1" (Some 0);
    OpCounter (CallAddInteraction 1);
    OpCounter (CallAddError 1);
    OpTerminal CallComplete 0 ].

Abbreviation signup_session := (run_ops signup_script fresh_registry).

(** ** Kinds of Google Analytics calls *)

Definition is_gtag_call (c : SinkCall) : bool :=
  match c with
  | gtag _ _ _ => true
  | _ => false
  end.

Definition is_ga_call (c : SinkCall) : bool :=
  match c with
  | ga _ => true
  | _ => false
  end.

(** The sample page with both Google Analytics globals loaded, and a
    "checkout" task tracked on Google Analytics only. *)
Definition ga_only : Flags :=
  {| trackOnGoogleAnalytics := true; trackOnIntercom := false;
     trackOnSegment := false |}.

Definition both_ga_world : World :=
  {| DEFAULTS := DEFAULTS_initial;
     heap := [fresh_task "checkout" None ga_only 1000];
     log := []; clock := clock sample_world; clock_reads := 1;
     uuidv1 := uuidv1 sample_world; uuid_calls := 0;
     gtag_defined := true; ga_defined := true;
     Intercom_defined := false; analytics_defined := false |}.

(** ** The listeners of [setUpEvents] *)

(** An event the page dispatches: on the global object, or on an
    element of the body, whose [dataset] maps the camel-cased names of
    its [data-*] attributes to their values. *)
Inductive DomEvent :=
| WindowEvent (type : string)
| ElementEvent (type : string) (dataset : gmap string string).

(** The types [setUpEvents] listens to on the body. *)
Definition listened : list string := ["click"; "focus"; "change"].

(** The three properties [registerEvent] reads, for a dataset that has
    [huhaTask]. *)
Definition dataset_view (dataset : gmap string string) : option Dataset :=
  taskName ← dataset !! "huhaTask";
  Some {| huhaTask := taskName;
          huhaTrigger := dataset !! "huhaTrigger";
          huhaEvent := dataset !! "huhaEvent" |}.

(** What the listeners installed by [setUpEvents] do with an event: the
    unload listener abandons the tasks in progress; the capturing
    listener of each listened type hands the target to [registerEvent]
    if ['huhaTask' in evt.target.dataset]. *)
Definition setUpEvents (evt : DomEvent) (this : Huha) (w : World)
    : option (Huha * World) :=
  match evt with
  | WindowEvent type =>
      if decide (type = "unload")
      then w ← Huha.abandonInProgressTasks this w; Some (this, w)
      else Some (this, w)
  | ElementEvent type dataset =>
      if decide (type ∈ listened) then
        match dataset_view dataset with
        | Some d => Huha.registerEvent type d this w
        | None => Some (this, w)
        end
      else Some (this, w)
  end.

(** The dataset of [<button data-huha-task="checkout"
    data-huha-trigger="submit" data-huha-event="start">]. *)
Definition start_on_submit : gmap string string :=
  {[ "huhaTask" := "checkout"; "huhaTrigger" := "submit";
     "huhaEvent" := "start" ]}.

(** The events of a list, delivered in order. *)
Fixpoint deliver (evts : list DomEvent) (this : Huha) (w : World)
    : option (Huha * World) :=
  match evts with
  | [] => Some (this, w)
  | evt :: evts => '(this, w) ← setUpEvents evt this w; deliver evts this w
  end.

(** [evt] is an event of a listened type on an element that declares
    task [name], this type as its trigger, and operation [op]. *)
Definition declares (name op : string) (evt : DomEvent) : Prop :=
  match evt with
  | WindowEvent _ => False
  | ElementEvent type dataset =>
      type ∈ listened
      /\ dataset !! "huhaTask" = Some name
      /\ dataset !! "huhaTrigger" = Some type
      /\ dataset !! "huhaEvent" = Some op
  end.

(** How many events of a list are on elements declaring operation
    [op]. *)
Fixpoint declared (op : string) (evts : list DomEvent) : Z :=
  match evts with
  | [] => 0
  | WindowEvent _ :: evts => declared op evts
  | ElementEvent _ dataset :: evts =>
      (if decide (dataset !! "huhaEvent" = Some op) then 1 else 0)
      + declared op evts
  end.

(** The value of [data-huha-event] that ends a task. *)
Definition terminal_op (c : TerminalCall) : string :=
  match c with
  | CallComplete => "complete"
  | CallAbandon => "abandon"
  end.

(** The event on an element with [data-huha-task="checkout"
    data-huha-trigger=type data-huha-event=op]. *)
Definition checkout_element (type op : string) : DomEvent :=
  ElementEvent type
    {[ "huhaTask" := "checkout"; "huhaTrigger" := type;
       "huhaEvent" := op ]}.

(** The world [w] in which the object at [a] is [t] with effort [n] and
    errors [m]. *)
Definition with_counters (a : addr) (t : HuhaTask) (n m : Z) (w : World)
    : World :=
  set_heap (<[a := set_errors m (set_effort n t)]> (heap w)) w.

(** ** A registry with a history *)

(** An event dispatched earlier, and a registry that tracks on Google
    Analytics and on Segment and holds one task and that event. *)
Definition opened_menu : HuhaEvent :=
  {| event_name := "Open menu"; event_object := "menu";
     event_action := "open"; event_section := "navigation";
     event_value := "1"; event_task := None;
     event_eventGroup := "session-7";
     event_trackOnGoogleAnalytics := true;
     event_trackOnSegment := true |}.

Definition menu_registry : Huha :=
  {| huha_tasks := [0]; huha_events := [opened_menu];
     huha_trackOnGoogleAnalytics := true;
     huha_trackOnIntercom := false;
     huha_trackOnSegment := true |}.

(** ** Runs that also call [finish] directly

    [finish(status)] is a method of the task like [complete()] and
    [abandon()]: a page may call it with any status.  A move is a step
    of the registry or such a call. *)
Inductive move : Huha * World -> Huha * World -> Prop :=
| move_step s s' : step s s' -> move s s'
| move_finish this w status task w' :
    HuhaTask.finish status task w = Some w' ->
    move (this, w) (this, w').

(** A task that has left "In progress" has an end. *)
Definition ended (w : World) : Prop :=
  forall a t,
    heap w !! a = Some t ->
    task_status t <> IN_PROGRESS -> is_Some (task_end t).

(** On the registry of three tasks: [addInteraction()] on "cart",
    [abandon()] on the completed "checkout", [createTask("cart")]; and
    the same followed by [finish("Paused")] on "search". *)
Definition three_script : list Op :=
  [ OpCounter (CallAddInteraction 0);
    OpTerminal CallAbandon 1;
    OpCreateTask "cart" None ].

Abbreviation three_run :=
  (run_ops three_script (three_tasks_registry, three_tasks_world)).

Abbreviation three_session :=
  (s ← three_run;
   w ← HuhaTask.finish "Paused" 2 (snd s);
   Some (fst s, w)).

(** On the registry with a history: [createTask("checkout")], an event
    without a group, and the sweep of the unload listener. *)
Definition menu_script : list Op :=
  [ OpCreateTask "checkout" None;
    OpCreateEvent "Close menu" "menu" "close" "navigation" "0" None None;
    OpAbandonInProgressTasks ].

Abbreviation menu_run := (run_ops menu_script (menu_registry, blocked_page)).

(** ** The sweep, task by task *)

(** What the sweep may do to a task: leave its status and end as they
    are, or take it from "In progress" to "Abandoned" with an end; the
    name, the start and the counters stay. *)
Definition swept (t t' : HuhaTask) : Prop :=
  task_name t' = task_name t
  /\ task_start t' = task_start t
  /\ task_effort t' = task_effort t
  /\ task_errors t' = task_errors t
  /\ ((task_status t' = task_status t /\ task_end t' = task_end t)
      \/ (task_status t = IN_PROGRESS /\ task_status t' = ABANDONED
          /\ is_Some (task_end t'))).
(** ** Basic facts about worlds *)

Lemma emit_nil w : emit [] w = w.
Proof. destruct w; unfold emit; simpl. by rewrite app_nil_r. Qed.

Lemma emit_emit cs ds w : emit ds (emit cs w) = emit (cs ++ ds) w.
Proof. unfold emit; simpl. by rewrite app_assoc. Qed.

Lemma set_heap_id w : set_heap (heap w) w = w.
Proof. by destruct w. Qed.

Lemma sendToGoogleAnalytics_emit t w :
  HuhaTask.sendToGoogleAnalytics t w = emit (ga_task_calls w t) w.
Proof.
  unfold HuhaTask.sendToGoogleAnalytics, ga_task_calls.
  destruct (gtag_defined w); [done|].
  destruct (ga_defined w); [done|]. by rewrite emit_nil.
Qed.

Lemma sendToIntercom_emit t w :
  HuhaTask.sendToIntercom t w = emit (intercom_task_calls w t) w.
Proof.
  unfold HuhaTask.sendToIntercom, intercom_task_calls.
  destruct (Intercom_defined w); [done|]. by rewrite emit_nil.
Qed.

Lemma sendToSegment_emit t w :
  HuhaTask.sendToSegment t w = emit (segment_task_calls w t) w.
Proof.
  unfold HuhaTask.sendToSegment, segment_task_calls.
  destruct (analytics_defined w); [done|]. by rewrite emit_nil.
Qed.

Lemma track_emit this t w :
  heap w !! this = Some t ->
  HuhaTask.track this w = Some (emit (summary_calls w t) w).
Proof.
  intros Ht. unfold HuhaTask.track. rewrite Ht. simpl. f_equal.
  unfold summary_calls.
  destruct (task_trackOnGoogleAnalytics t), (task_trackOnIntercom t),
    (task_trackOnSegment t);
    rewrite ?sendToSegment_emit, ?sendToIntercom_emit,
      ?sendToGoogleAnalytics_emit, ?emit_emit, ?app_nil_r;
    simpl; rewrite ?emit_nil; try reflexivity.
Qed.

Lemma IN_PROGRESS_not_COMPLETED : COMPLETED <> IN_PROGRESS.
Proof. discriminate. Qed.

Lemma IN_PROGRESS_not_ABANDONED : ABANDONED <> IN_PROGRESS.
Proof. discriminate. Qed.

(** [finish] on an object that is in progress. *)
Lemma finish_in_progress status this t w :
  heap w !! this = Some t ->
  task_status t = IN_PROGRESS ->
  HuhaTask.finish status this w = Some (finished status this t w).
Proof.
  intros Ht Hs. unfold HuhaTask.finish. rewrite Ht. simpl.
  rewrite decide_True by done.
  erewrite track_emit.
  - reflexivity.
  - simpl. apply list_lookup_insert_eq. by eapply lookup_lt_Some.
Qed.

(** [finish] on an object that is not in progress. *)
Lemma finish_terminal status this t w :
  heap w !! this = Some t ->
  task_status t <> IN_PROGRESS ->
  HuhaTask.finish status this w = Some w.
Proof.
  intros Ht Hs. unfold HuhaTask.finish. rewrite Ht. simpl.
  by rewrite decide_False.
Qed.

(** ** Terminal transitions *)

Lemma finished_lookup status this t w :
  heap w !! this = Some t ->
  heap (finished status this t w) !! this
  = Some (set_end_status (clock w (clock_reads w)) status t).
Proof.
  intros Ht. simpl. apply list_lookup_insert_eq. by eapply lookup_lt_Some.
Qed.

Lemma call_terminal_finish c this w :
  call_terminal c this w = HuhaTask.finish (terminal_status c) this w.
Proof. by destruct c. Qed.

Lemma terminal_status_not_in_progress c : terminal_status c <> IN_PROGRESS.
Proof. by destruct c. Qed.

Lemma call_terminals_terminal cs this t w :
  heap w !! this = Some t ->
  task_status t <> IN_PROGRESS ->
  call_terminals cs this w = Some w.
Proof.
  intros Ht Hs. induction cs as [|c cs IH]; [done|].
  simpl. rewrite call_terminal_finish.
  by rewrite (finish_terminal _ _ t).
Qed.

(** C1. Once the status of a task is no longer "In progress", any
    sequence of [complete()] and [abandon()] calls on it returns the
    world it was given: effort, errors, status and end of the task (and
    of every other object) are unchanged and nothing is added to the
    log of sink calls.  For a task that is in progress, a sequence of
    such calls has the effect of its first call alone: one clock
    reading, the two field writes and one summary on the log. *)
Theorem terminal_calls_idempotent (w : World) (this : addr) (t : HuhaTask)
    (cs : list TerminalCall) :
  heap w !! this = Some t ->
  (task_status t <> IN_PROGRESS -> call_terminals cs this w = Some w)
  /\ (task_status t = IN_PROGRESS ->
      forall c : TerminalCall,
        let w1 := finished (terminal_status c) this t w in
        call_terminal c this w = Some w1
        /\ call_terminals (c :: cs) this w = Some w1
        /\ log w1
           = log w ++ summary_calls w
               (set_end_status (clock w (clock_reads w)) (terminal_status c) t)).
Proof.
  intros Ht. split.
  - intros Hs. by eapply call_terminals_terminal.
  - intros Hs c w1.
    assert (Hc : call_terminal c this w = Some w1).
    { rewrite call_terminal_finish. by apply finish_in_progress. }
    split; [done|]. split; [|done].
    simpl. rewrite Hc. simpl.
    eapply call_terminals_terminal.
    + by apply finished_lookup.
    + simpl. apply terminal_status_not_in_progress.
Qed.

Example checkout_world_runs : checkout_world = Some checkout_running.
Proof. reflexivity. Qed.

Example checkout_done_summary :
  heap checkout_done !! 0
  = Some {| task_name := "checkout"; task_status := "Completed";
            task_effort := 2; task_errors := 1;
            task_start := 1000; task_end := Some 1500%Z;
            task_trackOnGoogleAnalytics := false;
            task_trackOnIntercom := false;
            task_trackOnSegment := true;
            task_parentTask := None |}
  /\ log checkout_done
     = [ analytics_track "checkout"
           [ ("category", VStr "checkout"); ("action", VStr "Completed");
             ("label", VStr "Task"); ("value", VNum 1);
             ("errors", VNum 1); ("effort", VNum 2);
             ("time", VNum 500); ("result", VStr "Completed");
             ("started", VNum 1000) ] ].
Proof. split; reflexivity. Qed.

(** The "checkout" task: completed, then abandoned and completed again;
    and the same two calls on the task once it is completed. *)
Lemma terminal_calls_idempotent_witness :
  call_terminals [CallComplete; CallAbandon; CallComplete] 0 checkout_running
  = Some checkout_done
  /\ call_terminals [CallAbandon; CallComplete] 0 checkout_done
     = Some checkout_done.
Proof.
  split.
  - apply (terminal_calls_idempotent checkout_running 0 checkout_task
             [CallAbandon; CallComplete] eq_refl); reflexivity.
  - apply (terminal_calls_idempotent checkout_done 0
             (set_end_status 1500 COMPLETED checkout_task)
             [CallAbandon; CallComplete] eq_refl); discriminate.
Defined.

(** ** The summary sent by a terminal transition *)

Lemma time_spec t :
  HuhaTask.time t
  = match task_end t with
    | Some e => if decide (e = 0%Z) then 0%Z else (e - task_start t)%Z
    | None => 0%Z
    end.
Proof.
  unfold HuhaTask.time, truthy_number.
  destruct (task_end t) as [e|]; [|done]. simpl.
  destruct (decide (e = 0%Z)) as [->|Hne]; [done|].
  by rewrite bool_decide_eq_false_2.
Qed.

(** C7. The first terminal transition of a task reads the clock once
    and leaves at [this] a task whose [status] is the requested one and
    whose [end] is that reading, every other field being as before.
    It then appends to the log the calls of the enabled forwarders,
    Google Analytics first, then Intercom, then Segment, and every call
    carries the new status and the task's [time] as it is then: the new
    end minus the start (0 when the clock read 0, see C4).  A forwarder
    runs once: three calls for Google Analytics (on [gtag],
    or on [ga] when [gtag] is absent), one for Intercom, one for
    Segment; it makes no call when its global is absent, and neither
    the other forwarders nor the writes depend on that global. *)
Theorem finish_dispatches_in_order (status : string) (this : addr)
    (t : HuhaTask) (w : World) :
  heap w !! this = Some t ->
  task_status t = IN_PROGRESS ->
  let now := clock w (clock_reads w) in
  let elapsed := if decide (now = 0%Z) then 0%Z else (now - task_start t)%Z in
  let GA :=
    if task_trackOnGoogleAnalytics t then
      if gtag_defined w then
        [ gtag "event" "timing_complete"
            [ ("event_category", VStr (task_name t));
              ("event_label", VStr "Time on task");
              ("value", VNum elapsed);
              ("name", VStr status) ];
          gtag "event" status
            [ ("event_category", VStr (task_name t));
              ("event_label", VStr "Error");
              ("value", VNum (task_errors t)) ];
          gtag "event" status
            [ ("event_category", VStr (task_name t));
              ("event_label", VStr "Effort");
              ("value", VNum (task_effort t)) ] ]
      else if ga_defined w then
        [ ga [ VStr "send"; VStr "timing"; VStr (task_name t);
               VStr status; VNum elapsed; VStr "Time on task" ];
          ga [ VStr "send"; VStr "event"; VStr (task_name t);
               VStr status; VStr "Error"; VNum (task_errors t) ];
          ga [ VStr "send"; VStr "event"; VStr (task_name t);
               VStr status; VStr "Effort"; VNum (task_effort t) ] ]
      else []
    else [] in
  let IC :=
    if task_trackOnIntercom t && Intercom_defined w then
      [ Intercom "trackEvent" (task_name t)
          [ ("errors", VNum (task_errors t));
            ("effort", VNum (task_effort t));
            ("time", VNum elapsed);
            ("status", VStr status) ] ]
    else [] in
  let SG :=
    if task_trackOnSegment t && analytics_defined w then
      [ analytics_track (task_name t)
          [ ("category", VStr (task_name t));
            ("action", VStr status);
            ("label", VStr "Task");
            ("value", VNum 1);
            ("errors", VNum (task_errors t));
            ("effort", VNum (task_effort t));
            ("time", VNum elapsed);
            ("result", VStr status);
            ("started", VNum (task_start t)) ] ]
    else [] in
  exists w' t',
    HuhaTask.finish status this w = Some w'
    /\ heap w' = <[this := t']> (heap w)
    /\ heap w' !! this = Some t'
    /\ task_status t' = status
    /\ task_end t' = Some now
    /\ task_name t' = task_name t
    /\ task_effort t' = task_effort t
    /\ task_errors t' = task_errors t
    /\ task_start t' = task_start t
    /\ task_parentTask t' = task_parentTask t
    /\ task_trackOnGoogleAnalytics t' = task_trackOnGoogleAnalytics t
    /\ task_trackOnIntercom t' = task_trackOnIntercom t
    /\ task_trackOnSegment t' = task_trackOnSegment t
    /\ clock_reads w' = S (clock_reads w)
    /\ log w' = log w ++ GA ++ IC ++ SG
    /\ Forall (fun c => sink_of c = GoogleAnalytics) GA
    /\ Forall (fun c => sink_of c = IntercomSink) IC
    /\ Forall (fun c => sink_of c = Segment) SG
    /\ length GA
       = (if task_trackOnGoogleAnalytics t
             && (gtag_defined w || ga_defined w) then 3 else 0)
    /\ length IC
       = (if task_trackOnIntercom t && Intercom_defined w then 1 else 0)
    /\ length SG
       = (if task_trackOnSegment t && analytics_defined w then 1 else 0).
Proof.
  intros Ht Hs now elapsed GA IC SG.
  exists (finished status this t w), (set_end_status now status t).
  split; [by apply finish_in_progress|].
  split; [done|].
  split; [by apply finished_lookup|].
  do 11 (split; [reflexivity|]).
  split.
  { unfold finished. simpl. f_equal.
    unfold summary_calls, ga_task_calls, intercom_task_calls,
      segment_task_calls.
    rewrite time_spec. simpl. subst GA IC SG elapsed. fold now.
    destruct (task_trackOnGoogleAnalytics t), (task_trackOnIntercom t),
      (task_trackOnSegment t), (gtag_defined w), (ga_defined w),
      (Intercom_defined w), (analytics_defined w); reflexivity. }
  subst GA IC SG.
  split; [destruct (task_trackOnGoogleAnalytics t), (gtag_defined w),
            (ga_defined w); repeat constructor|].
  split; [destruct (task_trackOnIntercom t), (Intercom_defined w);
            repeat constructor|].
  split; [destruct (task_trackOnSegment t), (analytics_defined w);
            repeat constructor|].
  destruct (task_trackOnGoogleAnalytics t), (task_trackOnIntercom t),
    (task_trackOnSegment t), (gtag_defined w), (ga_defined w),
    (Intercom_defined w), (analytics_defined w); done.
Qed.

(** Completing the "checkout" task, tracked on the three services,
    1500 ms into the page.  With every global loaded the three [gtag]
    calls come first, then Intercom's, then Segment's; when [gtag] and
    [Intercom] have been blocked, Google Analytics falls back to [ga],
    Intercom is skipped and Segment still gets its call.  Both times the
    task is left completed at 1500 and the calls say so. *)
Lemma finish_dispatches_in_order_witness :
  (exists w' t',
     HuhaTask.finish "Completed" 0 full_page = Some w'
     /\ heap w' !! 0 = Some t'
     /\ task_status t' = "Completed"
     /\ task_end t' = Some 1500%Z
     /\ log w'
        = [ gtag "event" "timing_complete"
              [ ("event_category", VStr "checkout");
                ("event_label", VStr "Time on task");
                ("value", VNum 500);
                ("name", VStr "Completed") ];
            gtag "event" "Completed"
              [ ("event_category", VStr "checkout");
                ("event_label", VStr "Error");
                ("value", VNum 1) ];
            gtag "event" "Completed"
              [ ("event_category", VStr "checkout");
                ("event_label", VStr "Effort");
                ("value", VNum 2) ];
            Intercom "trackEvent" "checkout"
              [ ("errors", VNum 1); ("effort", VNum 2);
                ("time", VNum 500); ("status", VStr "Completed") ];
            analytics_track "checkout"
              [ ("category", VStr "checkout");
                ("action", VStr "Completed");
                ("label", VStr "Task");
                ("value", VNum 1);
                ("errors", VNum 1);
                ("effort", VNum 2);
                ("time", VNum 500);
                ("result", VStr "Completed");
                ("started", VNum 1000) ] ])
  /\ (exists w' t',
       HuhaTask.finish "Abandoned" 0 blocked_page = Some w'
       /\ heap w' !! 0 = Some t'
       /\ task_status t' = "Abandoned"
       /\ task_end t' = Some 1500%Z
       /\ log w'
          = [ ga [ VStr "send"; VStr "timing"; VStr "checkout";
                   VStr "Abandoned"; VNum 500; VStr "Time on task" ];
              ga [ VStr "send"; VStr "event"; VStr "checkout";
                   VStr "Abandoned"; VStr "Error"; VNum 1 ];
              ga [ VStr "send"; VStr "event"; VStr "checkout";
                   VStr "Abandoned"; VStr "Effort"; VNum 2 ];
              analytics_track "checkout"
                [ ("category", VStr "checkout");
                  ("action", VStr "Abandoned");
                  ("label", VStr "Task");
                  ("value", VNum 1);
                  ("errors", VNum 1);
                  ("effort", VNum 2);
                  ("time", VNum 500);
                  ("result", VStr "Abandoned");
                  ("started", VNum 1000) ] ]).
Proof.
  split.
  - destruct (finish_dispatches_in_order "Completed" 0 tracked_task
                full_page eq_refl eq_refl)
      as (w' & t' & Hfin & _ & Hat & Hst & Hend & _ & _ & _ & _ & _ & _
          & _ & _ & _ & Hlog & _).
    exists w', t'. split; [exact Hfin|]. split; [exact Hat|].
    split; [exact Hst|]. split; [exact Hend|]. exact Hlog.
  - destruct (finish_dispatches_in_order "Abandoned" 0 tracked_task
                blocked_page eq_refl eq_refl)
      as (w' & t' & Hfin & _ & Hat & Hst & Hend & _ & _ & _ & _ & _ & _
          & _ & _ & _ & Hlog & _).
    exists w', t'. split; [exact Hfin|]. split; [exact Hat|].
    split; [exact Hst|]. split; [exact Hend|]. exact Hlog.
Defined.

(** ** Elapsed time *)

Lemma time_unset t : task_end t = None -> HuhaTask.time t = 0%Z.
Proof. intros H. by rewrite time_spec, H. Qed.

Lemma time_set_nonzero t e :
  task_end t = Some e -> e <> 0%Z -> HuhaTask.time t = (e - task_start t)%Z.
Proof. intros H Hne. rewrite time_spec, H. by rewrite decide_False. Qed.

(** C4. A task created when the clock reads -1000 and completed when
    it reads 0 has [start = -1000] and [end = 0]; its [time] is 0 and
    not [end - start = 1000], and 0 is the time its summary carries. *)
Theorem time_of_task_finished_at_epoch :
  (w ← epoch_run; heap w !! 0) = Some epoch_task
  /\ task_start epoch_task = (-1000)%Z
  /\ task_end epoch_task = Some 0%Z
  /\ HuhaTask.time epoch_task = 0%Z
  /\ (0 - task_start epoch_task)%Z = 1000%Z
  /\ log <$> epoch_run
     = Some [ analytics_track "checkout"
                [ ("category", VStr "checkout"); ("action", VStr "Completed");
                  ("label", VStr "Task"); ("value", VNum 1);
                  ("errors", VNum 0); ("effort", VNum 0);
                  ("time", VNum 0); ("result", VStr "Completed");
                  ("started", VNum (-1000)) ] ].
Proof. repeat split; reflexivity. Qed.

(** ** Interactions reported by the page *)

(** C5. [registerEvent] returns the registry and the world it was
    given when the captured event differs from the trigger declared on
    the element (or none is declared); and also when they agree, the
    declared operation is not "start", and no task with the declared
    name is in progress. *)
Theorem registerEvent_ignored (capturedEvent : string) (dataset : Dataset)
    (this : Huha) (w : World) :
  (Some capturedEvent <> huhaTrigger dataset ->
   Huha.registerEvent capturedEvent dataset this w = Some (this, w))
  /\ (Some capturedEvent = huhaTrigger dataset ->
      huhaEvent dataset <> Some "start" ->
      Huha.getTask (huhaTask dataset) this w = None ->
      Huha.registerEvent capturedEvent dataset this w = Some (this, w)).
Proof.
  unfold Huha.registerEvent. split.
  - intros Hne. by rewrite decide_False.
  - intros Heq Hstart Hnone.
    rewrite decide_True by done. rewrite decide_False by done.
    by rewrite Hnone.
Qed.

(** A focus event on an element whose trigger is "click" while the
    "checkout" task is in progress, and a click on it once the task is
    completed. *)
Lemma registerEvent_ignored_witness :
  Huha.registerEvent "focus" complete_on_click checkout_registry
    checkout_running
  = Some (checkout_registry, checkout_running)
  /\ Huha.registerEvent "click" complete_on_click checkout_registry
       checkout_done
     = Some (checkout_registry, checkout_done).
Proof.
  split.
  - apply (proj1 (registerEvent_ignored "focus" complete_on_click
                     checkout_registry checkout_running)).
    simpl. discriminate.
  - apply (proj2 (registerEvent_ignored "click" complete_on_click
                     checkout_registry checkout_done));
      [reflexivity | simpl; discriminate | reflexivity].
Defined.

(** ** Events and the Intercom setting *)

Lemma event_track_emit e w :
  HuhaEvent.track e w = emit (event_calls w e) w.
Proof.
  unfold HuhaEvent.track, HuhaEvent.sendToSegment,
    HuhaEvent.sendToGoogleAnalytics, event_calls.
  destruct (event_trackOnGoogleAnalytics e), (event_trackOnSegment e),
    (gtag_defined w) eqn:Hg, (ga_defined w) eqn:Ha,
    (analytics_defined w) eqn:Hs; simpl; rewrite ?Hs; simpl;
    rewrite ?emit_emit, ?emit_nil; reflexivity.
Qed.

Lemma event_calls_sinks w e :
  Forall (fun c => sink_of c <> IntercomSink) (event_calls w e).
Proof.
  unfold event_calls.
  destruct (event_trackOnGoogleAnalytics e), (event_trackOnSegment e),
    (gtag_defined w), (ga_defined w), (analytics_defined w);
    by repeat constructor.
Qed.

Lemma event_calls_congr e w1 w2 :
  gtag_defined w1 = gtag_defined w2 ->
  ga_defined w1 = ga_defined w2 ->
  analytics_defined w1 = analytics_defined w2 ->
  event_calls w1 e = event_calls w2 e.
Proof. unfold event_calls. by intros -> -> ->. Qed.

(** C10. Dispatching an event never calls Intercom: what
    [HuhaEvent.track] adds to the log consists of Google Analytics and
    Segment calls only.  The event built by the constructor and the log
    after its dispatch are the same whatever [trackOnIntercom] is in
    the [options] argument and in [DEFAULTS]; and [createEvent] yields
    the same event and log whatever the registry's [trackOnIntercom]
    is. *)
Theorem event_dispatch_skips_intercom :
  (forall (e : HuhaEvent) (w : World),
      exists cs,
        log (HuhaEvent.track e w) = log w ++ cs
        /\ Forall (fun c => sink_of c <> IntercomSink) cs)
  /\ (forall name object action section value task eventGroup
        (options : option Options) (w : World) (i : option bool) (b : bool),
        let r1 :=
          HuhaEvent.new name object action section value task eventGroup
            options w in
        let r2 :=
          HuhaEvent.new name object action section value task eventGroup
            (Some (with_optIntercom i (default no_options options)))
            (set_DEFAULTS (with_trackOnIntercom b (DEFAULTS w)) w) in
        fst r2 = fst r1
        /\ log (HuhaEvent.track (fst r2) (snd r2))
           = log (HuhaEvent.track (fst r1) (snd r1)))
  /\ (forall name object action section value task eventGroup
        (this : Huha) (w : World) (b : bool),
        let r1 :=
          Huha.createEvent name object action section value task eventGroup
            this w in
        let r2 :=
          Huha.createEvent name object action section value task eventGroup
            (with_huha_trackOnIntercom b this) w in
        fst (fst r2) = fst (fst r1)
        /\ log (snd r2) = log (snd r1)).
Proof.
  split; [|split].
  - intros e w. exists (event_calls w e).
    rewrite event_track_emit. split; [done | apply event_calls_sinks].
  - intros name object action section value task eventGroup options w i b.
    intros r1 r2.
    assert (He : fst r2 = fst r1).
    { subst r1 r2. unfold HuhaEvent.new.
      destruct (truthy_string eventGroup); simpl;
        by destruct options as [[? ? ?]|]. }
    split; [exact He|]. rewrite He.
    rewrite !event_track_emit. simpl.
    subst r1 r2. unfold HuhaEvent.new.
    destruct (truthy_string eventGroup); simpl;
      (f_equal; by apply event_calls_congr).
  - intros name object action section value task eventGroup this w b.
    unfold Huha.createEvent, HuhaEvent.new.
    destruct (truthy_string eventGroup); simpl; by split.
Qed.

(** ** The module-level defaults *)

Lemma assign_no_options d options :
  assign d (Some (default no_options options)) = assign d options.
Proof. destruct options as [o|]; [done|]. by destruct d. Qed.

Lemma HuhaTask_new_DEFAULTS name parentTask options w :
  DEFAULTS (snd (HuhaTask.new name parentTask options w))
  = assign (DEFAULTS w) options.
Proof. done. Qed.

Lemma HuhaEvent_new_DEFAULTS name object action section value task
    eventGroup options w :
  DEFAULTS (snd (HuhaEvent.new name object action section value task
                   eventGroup options w))
  = assign (DEFAULTS w) options.
Proof.
  unfold HuhaEvent.new. rewrite assign_no_options.
  by destruct (truthy_string eventGroup).
Qed.

Lemma Huha_new_DEFAULTS options w :
  DEFAULTS (snd (Huha.new options w)) = assign (DEFAULTS w) options.
Proof. unfold Huha.new. by rewrite assign_no_options. Qed.

Lemma construct_DEFAULTS c w :
  DEFAULTS (snd (construct c w)) = assign (DEFAULTS w) (options_of c).
Proof.
  destruct c as [o | n p o | n ob a s v t g o]; simpl.
  - by destruct o, (DEFAULTS w).
  - rewrite lookup_app_r by done. by rewrite Nat.sub_diag.
  - unfold HuhaEvent.new.
    by destruct (truthy_string g), o, (DEFAULTS w).
Qed.

Lemma constructs_DEFAULTS cs w :
  DEFAULTS (constructs cs w) = foldl assign (DEFAULTS w) (options_of <$> cs).
Proof.
  unfold constructs. revert w.
  induction cs as [|c cs IH]; intros w; [done|].
  simpl. by rewrite IH, construct_DEFAULTS.
Qed.

Lemma assign_key d o :
  trackOnGoogleAnalytics (assign d o)
  = default (trackOnGoogleAnalytics d) (o ≫= optGoogleAnalytics)
  /\ trackOnIntercom (assign d o)
     = default (trackOnIntercom d) (o ≫= optIntercom)
  /\ trackOnSegment (assign d o)
     = default (trackOnSegment d) (o ≫= optSegment).
Proof. by destruct o. Qed.

Lemma latest_snoc key os o :
  latest key (os ++ [o])
  = match o ≫= key with Some b => Some b | None => latest key os end.
Proof. unfold latest. by rewrite foldl_app. Qed.

Lemma foldl_assign_latest d os :
  trackOnGoogleAnalytics (foldl assign d os)
  = default (trackOnGoogleAnalytics d) (latest optGoogleAnalytics os)
  /\ trackOnIntercom (foldl assign d os)
     = default (trackOnIntercom d) (latest optIntercom os)
  /\ trackOnSegment (foldl assign d os)
     = default (trackOnSegment d) (latest optSegment os).
Proof.
  induction os as [|o os IH] using rev_ind; [done|].
  rewrite foldl_app. simpl. rewrite !latest_snoc.
  destruct (assign_key (foldl assign d os) o) as (-> & -> & ->).
  destruct IH as (-> & -> & ->).
  repeat split.
  - by destruct (o ≫= optGoogleAnalytics).
  - by destruct (o ≫= optIntercom).
  - by destruct (o ≫= optSegment).
Qed.

(** C9. Every construction of a [Huha], a [HuhaTask] or a [HuhaEvent]
    leaves its [options] merged into the module-level [DEFAULTS]: after
    any sequence of constructions, each key of [DEFAULTS] holds the
    value most recently supplied for it by an [options] argument, and
    its earlier value only if none supplied it.  An object constructed
    afterwards stores, for a key its own [options] omits, that value of
    [DEFAULTS], and for a key they supply, the supplied value (a
    [HuhaEvent] stores no Intercom flag). *)
Theorem constructions_mutate_DEFAULTS (cs : list Construction)
    (c : Construction) (w : World) :
  let os := options_of <$> cs in
  let w' := constructs cs w in
  DEFAULTS w' = foldl assign (DEFAULTS w) os
  /\ trackOnGoogleAnalytics (DEFAULTS w')
     = default (trackOnGoogleAnalytics (DEFAULTS w))
         (latest optGoogleAnalytics os)
  /\ trackOnIntercom (DEFAULTS w')
     = default (trackOnIntercom (DEFAULTS w)) (latest optIntercom os)
  /\ trackOnSegment (DEFAULTS w')
     = default (trackOnSegment (DEFAULTS w)) (latest optSegment os)
  /\ (let '(onGA, onIntercom, onSegment, w'') := construct c w' in
      onGA = default (trackOnGoogleAnalytics (DEFAULTS w'))
               (options_of c ≫= optGoogleAnalytics)
      /\ (forall b, onIntercom = Some b ->
          b = default (trackOnIntercom (DEFAULTS w'))
                (options_of c ≫= optIntercom))
      /\ onSegment = default (trackOnSegment (DEFAULTS w'))
                       (options_of c ≫= optSegment)
      /\ DEFAULTS w'' = assign (DEFAULTS w') (options_of c)).
Proof.
  intros os w'. subst os w'.
  rewrite constructs_DEFAULTS.
  destruct (foldl_assign_latest (DEFAULTS w) (options_of <$> cs))
    as (Hga & Hic & Hsg).
  split; [done|]. split; [done|]. split; [done|]. split; [done|].
  rewrite <- constructs_DEFAULTS.
  generalize (constructs cs w). intros w'.
  pose proof (construct_DEFAULTS c w') as HD.
  destruct (construct c w') as [[[onGA onIC] onSG] w''] eqn:Hc.
  simpl in HD. split; [|split; [|split; [|done]]].
  - destruct c as [o | n p o | n ob a s v t g o]; simpl in Hc.
    + injection Hc as <- _ _ _. by destruct o.
    + rewrite lookup_app_r in Hc by done. rewrite Nat.sub_diag in Hc.
      injection Hc as <- _ _ _. by destruct o.
    + unfold HuhaEvent.new in Hc.
      destruct (truthy_string g); injection Hc as <- _ _ _; by destruct o.
  - intros b ->.
    destruct c as [o | n p o | n ob a s v t g o]; simpl in Hc.
    + injection Hc as _ <- _ _. by destruct o.
    + rewrite lookup_app_r in Hc by done. rewrite Nat.sub_diag in Hc.
      injection Hc as _ <- _ _. by destruct o.
    + unfold HuhaEvent.new in Hc.
      destruct (truthy_string g); discriminate Hc.
  - destruct c as [o | n p o | n ob a s v t g o]; simpl in Hc.
    + injection Hc as _ _ <- _. by destruct o.
    + rewrite lookup_app_r in Hc by done. rewrite Nat.sub_diag in Hc.
      injection Hc as _ _ <- _. by destruct o.
    + unfold HuhaEvent.new in Hc.
      destruct (truthy_string g); injection Hc as _ _ <- _; by destruct o.
Qed.

(** A task constructed without options after
    [new Huha({trackOnIntercom: true, trackOnSegment: false})]. *)
Lemma constructions_mutate_DEFAULTS_witness :
  DEFAULTS (constructs [NewHuha (Some intercom_only)] sample_world)
  = {| trackOnGoogleAnalytics := false; trackOnIntercom := true;
       trackOnSegment := false |}
  /\ let '(onGA, onIntercom, onSegment, _) :=
       construct (NewHuhaTask "checkout" None None)
         (constructs [NewHuha (Some intercom_only)] sample_world) in
     onGA = false
     /\ (forall b, onIntercom = Some b -> b = true)
     /\ onSegment = false.
Proof.
  destruct (constructions_mutate_DEFAULTS [NewHuha (Some intercom_only)]
              (NewHuhaTask "checkout" None None) sample_world)
    as (HD & _ & _ & _ & Hlater).
  split; [exact HD|].
  destruct (construct _ _) as [[[onGA onIntercom] onSegment] w''].
  destruct Hlater as (Hga & Hic & Hsg & _).
  split; [exact Hga|]. split; [exact Hic | exact Hsg].
Defined.

(** After [new Huha({trackOnIntercom: true, trackOnSegment: false})], a
    task constructed without options is tracked on Intercom and not on
    Segment, the opposite of the defaults in the module text. *)
Example defaults_inherited :
  construct (NewHuhaTask "checkout" None None)
    (constructs [NewHuha (Some intercom_only)] sample_world)
  = (false, Some true, false,
     constructs
       [NewHuha (Some intercom_only); NewHuhaTask "checkout" None None]
       sample_world).
Proof. reflexivity. Qed.

(** ** Event groups *)

Lemma new_event_group a w :
  event_eventGroup (fst (new_event a w))
  = (if truthy_string (arg_eventGroup a)
     then default "" (arg_eventGroup a)
     else uuidv1 w (uuid_calls w)).
Proof.
  unfold new_event, HuhaEvent.new.
  by destruct (truthy_string (arg_eventGroup a)).
Qed.

Lemma generated_cons a l :
  generated (a :: l)
  = (if truthy_string (arg_eventGroup a) then 0 else 1) + generated l.
Proof.
  unfold generated. rewrite filter_cons.
  destruct (truthy_string (arg_eventGroup a)); by case_decide.
Qed.

Lemma generated_nil : generated [] = 0.
Proof. done. Qed.

Lemma new_event_generator a w :
  uuidv1 (snd (new_event a w)) = uuidv1 w
  /\ uuid_calls (snd (new_event a w))
     = uuid_calls w + (if truthy_string (arg_eventGroup a) then 0 else 1).
Proof.
  unfold new_event, HuhaEvent.new.
  destruct (truthy_string (arg_eventGroup a)); simpl; (split; [done | lia]).
Qed.

Lemma generated_take_le l i j : i <= j -> generated (take i l) <= generated (take j l).
Proof.
  revert i j. induction l as [|a l IH]; intros i j Hij.
  - by rewrite !take_nil.
  - destruct i as [|i]; [rewrite take_0, generated_nil; lia|].
    destruct j as [|j]; [lia|].
    simpl. rewrite !(generated_cons a).
    specialize (IH i j). lia.
Qed.

Lemma generated_take_S l i a :
  l !! i = Some a ->
  generated (take (S i) l)
  = generated (take i l) + (if truthy_string (arg_eventGroup a) then 0 else 1).
Proof.
  revert i. induction l as [|b l IH]; intros i Hi; [done|].
  destruct i as [|i]; simpl in *.
  - injection Hi as ->. rewrite take_0, generated_cons, !generated_nil. lia.
  - rewrite (generated_cons b (take (S i) l)), (generated_cons b (take i l)).
    rewrite (IH i Hi). lia.
Qed.

(** The group of the [i]-th event of a sequence of constructions. *)
Lemma new_events_group l w i a :
  l !! i = Some a ->
  exists e,
    fst (new_events l w) !! i = Some e
    /\ event_eventGroup e
       = (if truthy_string (arg_eventGroup a)
          then default "" (arg_eventGroup a)
          else uuidv1 w (uuid_calls w + generated (take i l))).
Proof.
  revert w i. induction l as [|b l IH]; intros w i Hi; [done|].
  simpl. destruct (new_event b w) as [e w1] eqn:Hb.
  destruct (new_events l w1) as [es w2] eqn:Hl.
  destruct i as [|i]; simpl in *.
  - injection Hi as ->. exists e. split; [done|].
    pose proof (new_event_group a w) as Hg. rewrite Hb in Hg. simpl in Hg.
    rewrite Hg. by rewrite generated_nil, Nat.add_0_r.
  - destruct (IH w1 i Hi) as (e' & He' & Hg). rewrite Hl in He'.
    exists e'. split; [done|]. rewrite Hg.
    destruct (new_event_generator b w) as [Hu Hc].
    rewrite Hb in Hu, Hc. simpl in Hu, Hc.
    rewrite Hu, Hc, (generated_cons b). by rewrite Nat.add_assoc.
Qed.

Lemma truthy_string_false g :
  truthy_string g = false <-> g = None \/ g = Some "".
Proof.
  destruct g as [s|]; simpl; [|split; [by left | done]].
  destruct (decide (s = "")) as [->|Hne].
  - split; [by right | done].
  - rewrite bool_decide_eq_false_2 by done. simpl.
    split; [done | intros [?|[=]]; done].
Qed.

Lemma truthy_string_true g s :
  g = Some s -> s <> "" -> truthy_string g = true.
Proof. intros -> Hne. simpl. by rewrite bool_decide_eq_false_2. Qed.

Lemma eventGroup_resolved_by (l : list EventArgs) (w : World) (i : nat)
    (a : EventArgs) :
  Inj (=) (=) (uuidv1 w) ->
  (forall n, uuidv1 w n <> "") ->
  l !! i = Some a ->
  exists e,
    fst (new_events l w) !! i = Some e
    /\ (forall g, arg_eventGroup a = Some g -> g <> "" ->
        event_eventGroup e = g)
    /\ (arg_eventGroup a = None \/ arg_eventGroup a = Some "" ->
        event_eventGroup e <> ""
        /\ forall j b e',
             j <> i ->
             l !! j = Some b ->
             arg_eventGroup b = None \/ arg_eventGroup b = Some "" ->
             fst (new_events l w) !! j = Some e' ->
             event_eventGroup e' <> event_eventGroup e).
Proof.
  intros Hinj Hne Hi.
  destruct (new_events_group l w i a Hi) as (e & He & Hg).
  exists e. split; [done|]. split.
  - intros g Hsome Hg0. rewrite Hg.
    rewrite (truthy_string_true _ g) by done. by rewrite Hsome.
  - intros Hfalsy. apply truthy_string_false in Hfalsy.
    rewrite Hfalsy in Hg. split; [rewrite Hg; apply Hne|].
    intros j b e' Hji Hj Hb He'.
    destruct (new_events_group l w j b Hj) as (e2 & He2 & Hg2).
    rewrite He' in He2. injection He2 as <-.
    apply truthy_string_false in Hb. rewrite Hb in Hg2.
    rewrite Hg, Hg2. intros Heq. apply Hinj in Heq.
    pose proof (generated_take_S l i a Hi) as Si.
    pose proof (generated_take_S l j b Hj) as Sj.
    rewrite Hfalsy in Si. rewrite Hb in Sj.
    destruct (decide (i < j)) as [Hlt|Hge].
    + assert (Hle : S i <= j) by lia.
      apply (generated_take_le l) in Hle. lia.
    + assert (Hle : S j <= i) by lia.
      apply (generated_take_le l) in Hle. lia.
Qed.

Lemma process_unique_inj : Inj (=) (=) process_unique.
Proof.
  intros n m Heq. unfold process_unique in Heq. simpl in Heq.
  injection Heq as Heq. by apply (inj pretty).
Qed.

Lemma process_unique_nonempty n : process_unique n <> "".
Proof. unfold process_unique. simpl. discriminate. Qed.

(** C8, as the code has it.  In any sequence of event constructions on
    any page: an event constructed with a non-empty [eventGroup] keeps
    it; an event constructed without one, or with the empty string,
    gets a non-empty generated token, different from the token of every
    other such event of the sequence. *)
Theorem eventGroup_resolved (l : list EventArgs) (w : World) (i : nat)
    (a : EventArgs) :
  l !! i = Some a ->
  exists e,
    fst (new_events l (with_uuidv1 process_unique w)) !! i = Some e
    /\ (forall g, arg_eventGroup a = Some g -> g <> "" ->
        event_eventGroup e = g)
    /\ (arg_eventGroup a = None \/ arg_eventGroup a = Some "" ->
        event_eventGroup e <> ""
        /\ forall j b e',
             j <> i ->
             l !! j = Some b ->
             arg_eventGroup b = None \/ arg_eventGroup b = Some "" ->
             fst (new_events l (with_uuidv1 process_unique w)) !! j
             = Some e' ->
             event_eventGroup e' <> event_eventGroup e).
Proof.
  intros Hi.
  apply (eventGroup_resolved_by l (with_uuidv1 process_unique w) i a);
    [exact process_unique_inj | exact process_unique_nonempty | exact Hi].
Qed.

(** Four events on the sample page: no group, the group "checkout-1",
    the empty string, no group.  The second keeps "checkout-1"; the
    last gets a non-empty group that is neither the first's nor the
    third's. *)
Lemma eventGroup_resolved_witness :
  exists e0 e1 e2 e3,
    fst (new_events
           [sample_event None; sample_event (Some "checkout-1");
            sample_event (Some ""); sample_event None]
           (with_uuidv1 process_unique sample_world))
    = [e0; e1; e2; e3]
    /\ event_eventGroup e1 = "checkout-1"
    /\ event_eventGroup e3 <> ""
    /\ event_eventGroup e0 <> event_eventGroup e3
    /\ event_eventGroup e2 <> event_eventGroup e3.
Proof.
  pose (l := [sample_event None; sample_event (Some "checkout-1");
              sample_event (Some ""); sample_event None]).
  destruct (eventGroup_resolved l sample_world 1
              (sample_event (Some "checkout-1")) eq_refl)
    as (e1 & He1 & Hkept & _).
  destruct (eventGroup_resolved l sample_world 3 (sample_event None) eq_refl)
    as (e3 & He3 & _ & Hgen).
  destruct (Hgen (or_introl eq_refl)) as [Hne Hdist].
  eexists _, e1, _, e3. split; [|split; [|split; [|split]]].
  - simpl in He1, He3. injection He1 as <-. injection He3 as <-.
    reflexivity.
  - apply (Hkept "checkout-1"); [reflexivity | discriminate].
  - exact Hne.
  - apply (Hdist 0 (sample_event None)); [lia | reflexivity | by left |].
    reflexivity.
  - apply (Hdist 2 (sample_event (Some ""))); [lia | reflexivity | by right |].
    reflexivity.
Defined.

(** An event constructed with the empty string as its [eventGroup]
    does not keep it: it gets the generator's token. *)
Lemma empty_eventGroup_replaced :
  arg_eventGroup (sample_event (Some "")) = Some ""
  /\ event_eventGroup
       (fst (new_event (sample_event (Some "")) sample_world))
     = "uuid-0"
  /\ ~ (forall (a : EventArgs) (w : World) (g : string),
          arg_eventGroup a = Some g ->
          event_eventGroup (fst (new_event a w)) = g).
Proof.
  split; [reflexivity|]. split; [reflexivity|].
  intros H.
  specialize (H (sample_event (Some "")) sample_world "" eq_refl).
  vm_compute in H. discriminate H.
Qed.

(** ** Propagation of the counters along the parent chain *)

Lemma reaches_le h a b : parents_older h -> reaches h a b -> b <= a.
Proof.
  intros Hwf Hr. induction Hr as [a t Ha | a t p b Ha Hp _ IH]; [done|].
  specialize (Hwf a t p Ha Hp). lia.
Qed.

Lemma reaches_source h a b : reaches h a b -> is_Some (h !! a).
Proof. intros Hr. destruct Hr; eauto. Qed.

Lemma reaches_trans h a b c : reaches h a b -> reaches h b c -> reaches h a c.
Proof.
  intros Hab Hbc. induction Hab as [a t Ha | a t p b Ha Hp _ IH]; [done|].
  eapply reaches_parent; eauto.
Qed.

Lemma same_parents_refl h : same_parents h h.
Proof. done. Qed.

Lemma same_parents_sym h h' : same_parents h h' -> same_parents h' h.
Proof. intros H a. by rewrite H. Qed.

Lemma same_parents_trans h1 h2 h3 :
  same_parents h1 h2 -> same_parents h2 h3 -> same_parents h1 h3.
Proof. intros H12 H23 a. by rewrite H12. Qed.

Lemma same_parents_insert h a t t' :
  h !! a = Some t -> task_parentTask t' = task_parentTask t ->
  same_parents h (<[a := t']> h).
Proof.
  intros Ha Hp b. destruct (decide (a = b)) as [<-|Hne].
  - rewrite list_lookup_insert_eq by by eapply lookup_lt_Some.
    rewrite Ha. simpl. by rewrite Hp.
  - by rewrite list_lookup_insert_ne.
Qed.

Lemma same_parents_reaches h h' a b :
  same_parents h h' -> reaches h a b -> reaches h' a b.
Proof.
  intros Hsp Hr. induction Hr as [a t Ha | a t p b Ha Hp _ IH].
  - pose proof (Hsp a) as Hsa. rewrite Ha in Hsa.
    destruct (h' !! a) as [t'|] eqn:Ha'; [|done].
    by eapply reaches_self.
  - pose proof (Hsp a) as Hsa. rewrite Ha in Hsa.
    destruct (h' !! a) as [t'|] eqn:Ha'; [|done].
    simpl in Hsa. injection Hsa as Hsa.
    apply (reaches_parent h' a t' p b); [done | congruence | done].
Qed.

Lemma same_parents_older h h' :
  same_parents h h' -> parents_older h -> parents_older h'.
Proof.
  intros Hsp Hwf a t' p Ha' Hp.
  pose proof (Hsp a) as Hsa. rewrite Ha' in Hsa.
  destruct (h !! a) as [t|] eqn:Ha; [|done].
  simpl in Hsa. injection Hsa as Hsa.
  apply (Hwf a t p Ha). congruence.
Qed.

(** One pass of a counter along the chain: [bump] is the field write of
    the method, [walk] its recursion. *)
Section Walk.
Variable bump : HuhaTask -> HuhaTask.
Variable walk : nat -> addr -> list HuhaTask -> option (list HuhaTask).
Hypothesis bump_parent : forall t, task_parentTask (bump t) = task_parentTask t.
Hypothesis walk_O : forall a h, walk O a h = None.
Hypothesis walk_S : forall fuel a h,
  walk (S fuel) a h
  = t ← h !! a;
    match task_parentTask t with
    | Some parent => walk fuel parent (<[a := bump t]> h)
    | None => Some (<[a := bump t]> h)
    end.

Lemma walk_spec fuel a h :
  parents_older h -> a < fuel -> a < length h ->
  exists h',
    walk fuel a h = Some h'
    /\ length h' = length h
    /\ same_parents h h'
    /\ (forall b, reaches h a b -> bump <$> h !! b = h' !! b)
    /\ (forall b, ~ reaches h a b -> h' !! b = h !! b).
Proof.
  revert a h. induction fuel as [|fuel IH]; intros a h Hwf Hfuel Ha; [lia|].
  rewrite walk_S.
  destruct (lookup_lt_is_Some_2 h a Ha) as [t Ht]. rewrite Ht. simpl.
  set (h1 := <[a := bump t]> h).
  assert (Hsp : same_parents h h1)
    by by apply (same_parents_insert h a t).
  assert (Hlen : length h1 = length h) by apply length_insert.
  assert (Ha1 : h1 !! a = Some (bump t))
    by by apply list_lookup_insert_eq.
  destruct (task_parentTask t) as [p|] eqn:Hp.
  - assert (Hpa : p < a) by by eapply Hwf.
    destruct (IH p h1) as (h' & Hrun & Hlen' & Hsp' & Hin & Hout);
      [by eapply same_parents_older | lia | lia |].
    exists h'. split; [done|]. split; [lia|].
    split; [by eapply same_parents_trans|]. split.
    + intros b Hr. inversion Hr as [a' t' Ha' | a' t' p' b' Ha' Hp' Hr'];
        subst.
      * rewrite Ht. simpl. rewrite <- Ha1. symmetry. apply Hout.
        intros Hr1. apply reaches_le in Hr1;
          [lia | by eapply same_parents_older].
      * rewrite Ht in Ha'. injection Ha' as <-.
        rewrite Hp in Hp'. injection Hp' as <-.
        rewrite <- (Hin b) by by eapply same_parents_reaches.
        apply reaches_le in Hr'; [|done].
        unfold h1. rewrite list_lookup_insert_ne by lia. done.
    + intros b Hnr.
      assert (Hba : b <> a).
      { intros ->. apply Hnr. by eapply reaches_self. }
      rewrite Hout.
      * unfold h1. by rewrite list_lookup_insert_ne.
      * intros Hr1. apply Hnr. eapply reaches_parent; [done..|].
        eapply same_parents_reaches; [|done].
        by apply same_parents_sym.
  - exists h1. split; [done|]. split; [done|]. split; [done|]. split.
    + intros b Hr. inversion Hr as [a' t' Ha' | a' t' p' b' Ha' Hp' Hr'];
        subst.
      * by rewrite Ht, Ha1.
      * rewrite Ht in Ha'. injection Ha' as <-. congruence.
    + intros b Hnr. unfold h1. rewrite list_lookup_insert_ne; [done|].
      intros <-. apply Hnr. by eapply reaches_self.
Qed.
End Walk.

Lemma addInteraction_from_spec fuel a h :
  parents_older h -> a < fuel -> a < length h ->
  exists h',
    HuhaTask.addInteraction_from fuel a h = Some h'
    /\ length h' = length h
    /\ same_parents h h'
    /\ (forall b, reaches h a b -> bump_effort <$> h !! b = h' !! b)
    /\ (forall b, ~ reaches h a b -> h' !! b = h !! b).
Proof. apply (walk_spec bump_effort HuhaTask.addInteraction_from); done. Qed.

Lemma addError_from_spec fuel a h :
  parents_older h -> a < fuel -> a < length h ->
  exists h',
    HuhaTask.addError_from fuel a h = Some h'
    /\ length h' = length h
    /\ same_parents h h'
    /\ (forall b, reaches h a b -> bump_errors <$> h !! b = h' !! b)
    /\ (forall b, ~ reaches h a b -> h' !! b = h !! b).
Proof. apply (walk_spec bump_errors HuhaTask.addError_from); done. Qed.

Lemma call_counter_spec c w :
  parents_older (heap w) ->
  call_target c < length (heap w) ->
  exists h',
    call_counter c w = Some (set_heap h' w)
    /\ length h' = length (heap w)
    /\ same_parents (heap w) h'
    /\ (forall b, reaches (heap w) (call_target c) b ->
        bump_of c <$> heap w !! b = h' !! b)
    /\ (forall b, ~ reaches (heap w) (call_target c) b ->
        h' !! b = heap w !! b).
Proof.
  intros Hwf Ha. destruct c as [a|a]; simpl in *.
  - destruct (addInteraction_from_spec (length (heap w)) a (heap w))
      as (h' & Hrun & Hrest); [done..|].
    exists h'. split; [|done].
    unfold HuhaTask.addInteraction. by rewrite Hrun.
  - destruct (addError_from_spec (length (heap w)) a (heap w))
      as (h' & Hrun & Hrest); [done..|].
    exists h'. split; [|done].
    unfold HuhaTask.addError. by rewrite Hrun.
Qed.

Lemma bump_of_counts c cs t :
  set_errors (task_errors (bump_of c t) + failures cs)
    (set_effort (task_effort (bump_of c t) + interactions cs) (bump_of c t))
  = set_errors (task_errors t + failures (c :: cs))
      (set_effort (task_effort t + interactions (c :: cs)) t).
Proof.
  destruct c; unfold set_errors, set_effort; simpl; f_equal; lia.
Qed.

Lemma counters_reach_store (w : World) (task : addr) (cs : list CounterCall) :
  parents_older (heap w) ->
  Forall (fun c => reaches (heap w) (call_target c) task) cs ->
  exists w',
    call_counters cs w = Some w'
    /\ forall ancestor t,
         reaches (heap w) task ancestor ->
         heap w !! ancestor = Some t ->
         heap w' !! ancestor
         = Some (set_errors (task_errors t + failures cs)
                   (set_effort (task_effort t + interactions cs) t)).
Proof.
  revert w. induction cs as [|c cs IH]; intros w Hwf Hcs.
  - exists w. split; [done|]. intros b t _ Hb. rewrite Hb. f_equal.
    destruct t; unfold set_errors, set_effort; simpl; f_equal; lia.
  - apply Forall_cons in Hcs as [Hc Hcs].
    destruct (call_counter_spec c w) as (h1 & Hrun & Hlen & Hsp & Hin & _).
    { done. }
    { destruct (reaches_source _ _ _ Hc) as [t Ht].
      by eapply lookup_lt_Some. }
    destruct (IH (set_heap h1 w)) as (w' & Hrest & Hanc).
    { by eapply same_parents_older. }
    { eapply Forall_impl; [exact Hcs|]. simpl. intros c' Hc'.
      by eapply same_parents_reaches. }
    exists w'. split.
    { simpl. rewrite Hrun. done. }
    intros b t Hb Ht.
    rewrite (Hanc b (bump_of c t)).
    + by rewrite bump_of_counts.
    + by eapply same_parents_reaches.
    + simpl. rewrite <- Hin by by eapply reaches_trans. by rewrite Ht.
Qed.

(** C2. Let every call of a sequence of [addInteraction()] and
    [addError()] calls be made on [task] or on one of its descendants.
    The calls all return, and [task] itself and every ancestor of
    [task], whatever its status, is afterwards a task whose effort is
    the effort it had plus the number of [addInteraction()] calls of
    the sequence and whose errors are the errors it had plus the number
    of [addError()] calls; its status, end, name, start, parent and
    flags are as before. *)
Theorem counters_reach_every_ancestor (w : World) (task : addr)
    (cs : list CounterCall) :
  parents_older (heap w) ->
  Forall (fun c => reaches (heap w) (call_target c) task) cs ->
  exists w',
    call_counters cs w = Some w'
    /\ forall ancestor t,
         reaches (heap w) task ancestor ->
         heap w !! ancestor = Some t ->
         exists t',
           heap w' !! ancestor = Some t'
           /\ task_effort t' = (task_effort t + interactions cs)%Z
           /\ task_errors t' = (task_errors t + failures cs)%Z
           /\ task_status t' = task_status t
           /\ task_end t' = task_end t
           /\ task_name t' = task_name t
           /\ task_start t' = task_start t
           /\ task_parentTask t' = task_parentTask t
           /\ task_trackOnGoogleAnalytics t' = task_trackOnGoogleAnalytics t
           /\ task_trackOnIntercom t' = task_trackOnIntercom t
           /\ task_trackOnSegment t' = task_trackOnSegment t.
Proof.
  intros Hwf Hcs.
  destruct (counters_reach_store w task cs Hwf Hcs) as (w' & Hrun & Hanc).
  exists w'. split; [exact Hrun|].
  intros b t Hb Ht. eexists. split; [exact (Hanc b t Hb Ht)|].
  repeat split.
Qed.

Lemma signup_world_parents_older : parents_older (heap signup_world).
Proof.
  intros a t p Ha Hp. destruct a as [|[|a]]; simpl in Ha.
  - injection Ha as <-. discriminate Hp.
  - injection Ha as <-. injection Hp as <-. lia.
  - discriminate Ha.
Qed.

(** Two interactions and one error on "signup.step1", whose parent
    "signup" is already completed: both tasks end with effort 2 and
    errors 1, and "signup" is still completed, with the end it had. *)
Lemma counters_reach_every_ancestor_witness :
  exists w' parent child,
    call_counters [CallAddInteraction 1; CallAddError 1; CallAddInteraction 1]
      signup_world = Some w'
    /\ heap w' !! 0 = Some parent
    /\ task_name parent = "signup"
    /\ task_effort parent = 2%Z
    /\ task_errors parent = 1%Z
    /\ task_status parent = "Completed"
    /\ task_end parent = Some 1500%Z
    /\ heap w' !! 1 = Some child
    /\ task_name child = "signup.step1"
    /\ task_effort child = 2%Z
    /\ task_errors child = 1%Z
    /\ task_status child = "In progress"
    /\ task_parentTask child = Some 0.
Proof.
  destruct (counters_reach_every_ancestor signup_world 1
              [CallAddInteraction 1; CallAddError 1; CallAddInteraction 1]
              signup_world_parents_older)
    as (w' & Hrun & Hanc).
  - repeat constructor; by eapply reaches_self.
  - destruct (Hanc 0 signup_task) as (parent & H0 & Pef & Per & Pst & Pen & Pna & _).
    { eapply reaches_parent; [reflexivity | reflexivity |].
      by eapply reaches_self. }
    { reflexivity. }
    destruct (Hanc 1 step1_task)
      as (child & H1 & Cef & Cer & Cst & _ & Cna & _ & Cpa & _).
    { by eapply reaches_self. }
    { reflexivity. }
    exists w', parent, child.
    split; [exact Hrun|]. split; [exact H0|].
    split; [exact Pna|]. split; [exact Pef|]. split; [exact Per|].
    split; [exact Pst|]. split; [exact Pen|]. split; [exact H1|].
    split; [exact Cna|]. split; [exact Cef|]. split; [exact Cer|].
    split; [exact Cst|]. exact Cpa.
Defined.

(** ** Abandoning what is still in progress *)

Lemma in_progress_true w a :
  Huha.in_progress w a = true
  <-> exists t, heap w !! a = Some t /\ task_status t = IN_PROGRESS.
Proof.
  unfold Huha.in_progress. destruct (heap w !! a) as [t|]; split.
  - intros H. exists t. split; [done|]. by apply bool_decide_eq_true in H.
  - intros (t' & [= <-] & Hs). by apply bool_decide_eq_true.
  - done.
  - by intros (t' & [=] & _).
Qed.

Lemma summary_calls_congr w w' t :
  same_environment w w' -> summary_calls w' t = summary_calls w t.
Proof.
  intros (_ & _ & _ & _ & Hg & Ha & Hi & Hs).
  unfold summary_calls, ga_task_calls, intercom_task_calls,
    segment_task_calls.
  by rewrite Hg, Ha, Hi, Hs.
Qed.

Lemma same_environment_refl w : same_environment w w.
Proof. by repeat split. Qed.

Lemma same_environment_trans w1 w2 w3 :
  same_environment w1 w2 -> same_environment w2 w3 -> same_environment w1 w3.
Proof.
  unfold same_environment.
  intros (? & ? & ? & ? & ? & ? & ? & ?) (? & ? & ? & ? & ? & ? & ? & ?).
  repeat split; congruence.
Qed.

Lemma finished_same_environment status this t w :
  same_environment w (finished status this t w).
Proof. by repeat split. Qed.

(** [forEach] of [abandon] over distinct tasks that are in progress. *)
Lemma forEach_abandon_spec l w :
  NoDup l ->
  Forall (fun a => Huha.in_progress w a = true) l ->
  exists w',
    forEach HuhaTask.abandon l w = Some w'
    /\ same_environment w w'
    /\ clock_reads w' = clock_reads w + length l
    /\ (forall i a t, l !! i = Some a -> heap w !! a = Some t ->
        heap w' !! a = Some (abandoned_at w i t))
    /\ (forall a, a ∉ l -> heap w' !! a = heap w !! a)
    /\ log w' = log w ++ concat (imap (sweep_calls w) l).
Proof.
  revert w. induction l as [|a l IH]; intros w Hnd Hall.
  - exists w. split; [done|]. split; [apply same_environment_refl|].
    split; [simpl; lia|]. split; [done|]. split; [done|].
    simpl. by rewrite app_nil_r.
  - apply NoDup_cons in Hnd as [Hal Hnd].
    apply Forall_cons in Hall as [Ha Hall].
    apply in_progress_true in Ha as (t & Ht & Hs).
    set (w1 := finished ABANDONED a t w).
    assert (Hother : forall b, b <> a -> heap w1 !! b = heap w !! b).
    { intros b Hb. simpl. by rewrite list_lookup_insert_ne. }
    destruct (IH w1) as (w' & Hrun & Henv & Hreads & Hin & Hout & Hlog).
    { done. }
    { apply Forall_forall. intros b Hb.
      rewrite Forall_forall in Hall. specialize (Hall b Hb).
      unfold Huha.in_progress in *.
      rewrite Hother; [done|]. intros ->. done. }
    exists w'. split.
    { simpl. unfold HuhaTask.abandon.
      rewrite (finish_in_progress _ _ t) by done. exact Hrun. }
    split.
    { eapply same_environment_trans; [|exact Henv].
      apply finished_same_environment. }
    split; [simpl in *; lia|]. split; [|split].
    + intros i b tb Hi Hb. destruct i as [|i]; simpl in Hi.
      * injection Hi as <-. rewrite Ht in Hb. injection Hb as <-.
        rewrite Hout by done. unfold abandoned_at.
        rewrite Nat.add_0_r. by apply finished_lookup.
      * assert (Hba : b <> a).
        { intros ->. apply Hal. by eapply list_elem_of_lookup_2. }
        rewrite (Hin i b tb Hi) by by rewrite Hother.
        unfold abandoned_at. simpl. do 2 f_equal. f_equal. lia.
    + intros b Hb. apply not_elem_of_cons in Hb as [Hba Hbl].
      rewrite Hout by done. by apply Hother.
    + rewrite Hlog. simpl. rewrite <- !app_assoc. do 2 f_equal.
      * unfold sweep_calls, abandoned_at. rewrite Ht.
        by rewrite Nat.add_0_r.
      * f_equal. apply imap_ext. intros i b Hi. simpl.
        assert (Hba : b <> a).
        { intros ->. apply Hal. by eapply list_elem_of_lookup_2. }
        unfold sweep_calls. rewrite Hother by done.
        destruct (heap w !! b) as [tb|]; [|done].
        rewrite (summary_calls_congr w w1)
          by apply finished_same_environment.
        unfold abandoned_at. simpl. do 2 f_equal. f_equal. lia.
Qed.

Lemma filter_in_progress_elem w l a :
  a ∈ List.filter (Huha.in_progress w) l
  <-> a ∈ l /\ Huha.in_progress w a = true.
Proof. rewrite !list_elem_of_In. apply List.filter_In. Qed.

Lemma filter_none {A} (f : A -> bool) l :
  (forall x, x ∈ l -> f x = false) -> List.filter f l = [].
Proof.
  induction l as [|x l IH]; intros H; [done|].
  simpl. rewrite H by by left. apply IH. intros y Hy. apply H. by right.
Qed.

Lemma NoDup_List_filter {A} (f : A -> bool) l :
  NoDup l -> NoDup (List.filter f l).
Proof. rewrite !NoDup_ListNoDup. apply List.NoDup_filter. Qed.

(** C6. On a registry whose [tasks] are distinct objects,
    [abandonInProgressTasks()] returns; every task of the registry that
    was in progress is then "Abandoned", with the clock reading of its
    turn as [end]; every object that was not in progress, and every
    object outside the registry, is as before; the log has grown by one
    summary per task that was in progress, in the order of [tasks], and
    by nothing else; and a second call changes nothing. *)
Theorem abandonInProgressTasks_sweeps (this : Huha) (w : World) :
  NoDup (huha_tasks this) ->
  let pending := List.filter (Huha.in_progress w) (huha_tasks this) in
  exists w',
    Huha.abandonInProgressTasks this w = Some w'
    /\ (forall a, a ∈ huha_tasks this -> Huha.in_progress w a = true ->
        task_status <$> heap w' !! a = Some ABANDONED)
    /\ (forall i a t, pending !! i = Some a -> heap w !! a = Some t ->
        heap w' !! a = Some (abandoned_at w i t))
    /\ (forall a t, heap w !! a = Some t -> task_status t <> IN_PROGRESS ->
        heap w' !! a = Some t)
    /\ (forall a, a ∉ huha_tasks this -> heap w' !! a = heap w !! a)
    /\ log w' = log w ++ concat (imap (sweep_calls w) pending)
    /\ Huha.abandonInProgressTasks this w' = Some w'.
Proof.
  intros Hnd pending.
  destruct (forEach_abandon_spec pending w)
    as (w' & Hrun & Henv & Hreads & Hin & Hout & Hlog).
  { by apply NoDup_List_filter. }
  { apply Forall_forall. intros a Ha.
    by apply filter_in_progress_elem in Ha as [_ Ha]. }
  assert (Hdone : forall a, a ∈ huha_tasks this ->
                    Huha.in_progress w' a = false).
  { intros a Ha. destruct (Huha.in_progress w a) eqn:Hp.
    - assert (Hpend : a ∈ pending) by by apply filter_in_progress_elem.
      apply list_elem_of_lookup in Hpend as [i Hi].
      apply in_progress_true in Hp as (t & Ht & _).
      unfold Huha.in_progress. rewrite (Hin i a t Hi Ht). done.
    - unfold Huha.in_progress in *. rewrite Hout; [done|].
      intros Hpend. apply filter_in_progress_elem in Hpend as [_ Hpend].
      unfold Huha.in_progress in Hpend. congruence. }
  exists w'. split; [exact Hrun|]. split; [|split; [|split; [|split]]].
  - intros a Ha Hp.
    assert (Hpend : a ∈ pending) by by apply filter_in_progress_elem.
    apply list_elem_of_lookup in Hpend as [i Hi].
    apply in_progress_true in Hp as (t & Ht & _).
    by rewrite (Hin i a t Hi Ht).
  - exact Hin.
  - intros a t Ht Hs. rewrite Hout; [done|].
    intros Hpend. apply filter_in_progress_elem in Hpend as [_ Hpend].
    apply in_progress_true in Hpend as (t' & Ht' & Hs'). congruence.
  - intros a Ha. apply Hout.
    intros Hpend. by apply filter_in_progress_elem in Hpend as [? _].
  - split; [exact Hlog|].
    unfold Huha.abandonInProgressTasks.
    by rewrite (filter_none _ _ Hdone).
Qed.

(** "cart" and "search" in progress, "checkout" completed at 900. *)
Lemma abandonInProgressTasks_sweeps_witness :
  exists w',
    Huha.abandonInProgressTasks three_tasks_registry three_tasks_world
    = Some w'
    /\ heap w' !! 0 = Some (set_end_status 1000 ABANDONED cart_task)
    /\ heap w' !! 1 = Some paid_task
    /\ heap w' !! 2 = Some (set_end_status 1500 ABANDONED search_task)
    /\ log w'
       = [] ++ segment_task_calls three_tasks_world
                 (set_end_status 1000 ABANDONED cart_task)
            ++ segment_task_calls three_tasks_world
                 (set_end_status 1500 ABANDONED search_task)
    /\ Huha.abandonInProgressTasks three_tasks_registry w' = Some w'.
Proof.
  destruct (abandonInProgressTasks_sweeps three_tasks_registry
              three_tasks_world)
    as (w' & Hrun & _ & Hin & Hterm & _ & Hlog & Hagain).
  - simpl. compute_done.
  - exists w'. split; [exact Hrun|].
    split; [exact (Hin 0 0 cart_task eq_refl eq_refl)|].
    split; [apply Hterm; [reflexivity | discriminate]|].
    split; [exact (Hin 1 2 search_task eq_refl eq_refl)|].
    split; [exact Hlog | exact Hagain].
Defined.

(** ** One task in progress per name *)

Lemma evolves_refl h : evolves h h.
Proof. split; [done|]. intros a t Ht. by exists t. Qed.

Lemma evolves_trans h1 h2 h3 : evolves h1 h2 -> evolves h2 h3 -> evolves h1 h3.
Proof.
  intros [Hl12 H12] [Hl23 H23]. split; [lia|].
  intros a t Ht.
  destruct (H12 a t Ht) as (t2 & Ht2 & Hn2 & Hp2 & Hs2).
  destruct (H23 a t2 Ht2) as (t3 & Ht3 & Hn3 & Hp3 & Hs3).
  exists t3. split; [done|]. split; [congruence|]. split; [congruence|].
  auto.
Qed.

Lemma evolves_insert h a t t' :
  h !! a = Some t ->
  task_name t' = task_name t ->
  task_parentTask t' = task_parentTask t ->
  (task_status t' = IN_PROGRESS -> task_status t = IN_PROGRESS) ->
  evolves h (<[a := t']> h).
Proof.
  intros Ha Hn Hp Hs. split; [by rewrite length_insert|].
  intros b tb Hb. destruct (decide (a = b)) as [<-|Hne].
  - exists t'. rewrite list_lookup_insert_eq by by eapply lookup_lt_Some.
    rewrite Ha in Hb. injection Hb as <-. done.
  - exists tb. by rewrite list_lookup_insert_ne.
Qed.

Lemma evolves_app h l : evolves h (h ++ l).
Proof.
  split; [rewrite length_app; lia|].
  intros a t Ha. exists t. split; [|done]. by apply lookup_app_l_Some.
Qed.

Lemma evolves_parents_older h h' :
  evolves h h' -> length h' = length h ->
  parents_older h -> parents_older h'.
Proof.
  intros [_ Hev] Hlen Hwf a t' p Ha' Hp.
  assert (Ha : a < length h).
  { rewrite <- Hlen. by eapply lookup_lt_Some. }
  destruct (lookup_lt_is_Some_2 h a Ha) as [t Ht].
  destruct (Hev a t Ht) as (t2 & Ht2 & _ & Hp2 & _).
  rewrite Ha' in Ht2. injection Ht2 as <-.
  apply (Hwf a t p Ht). congruence.
Qed.

Lemma parents_older_snoc h t :
  parents_older h ->
  (forall p, task_parentTask t = Some p -> p < length h) ->
  parents_older (h ++ [t]).
Proof.
  intros Hwf Hp a ta p Ha Hpa.
  apply lookup_app_Some in Ha as [Ha | [Hlen Ha]].
  - by eapply Hwf.
  - apply list_lookup_singleton_Some in Ha as [Hz <-].
    specialize (Hp p Hpa). lia.
Qed.

Lemma named_in_progress_true w name a :
  Huha.named_in_progress w name a = true
  <-> exists t, heap w !! a = Some t /\ task_name t = name
                /\ task_status t = IN_PROGRESS.
Proof.
  unfold Huha.named_in_progress, Huha.in_progress.
  destruct (heap w !! a) as [t|]; split.
  - intros H. apply andb_true_iff in H as [Hn Hs].
    apply bool_decide_eq_true in Hn, Hs. by exists t.
  - intros (t' & [= <-] & Hn & Hs).
    apply andb_true_iff. split; by apply bool_decide_eq_true.
  - done.
  - by intros (t' & [=] & _).
Qed.

Lemma named_in_progress_evolves w w' name a :
  evolves (heap w) (heap w') ->
  a < length (heap w) ->
  Huha.named_in_progress w' name a = true ->
  Huha.named_in_progress w name a = true.
Proof.
  intros [_ Hev] Ha Hp.
  apply named_in_progress_true in Hp as (t' & Ht' & Hn & Hs).
  destruct (lookup_lt_is_Some_2 _ a Ha) as [t Ht].
  destruct (Hev a t Ht) as (t2 & Ht2 & Hn2 & _ & Hs2).
  rewrite Ht' in Ht2. injection Ht2 as <-.
  apply named_in_progress_true. exists t.
  split; [done|]. split; [congruence | auto].
Qed.

Lemma named_in_progress_same_lookup w w' name a :
  heap w' !! a = heap w !! a ->
  Huha.named_in_progress w' name a = Huha.named_in_progress w name a.
Proof.
  intros H. unfold Huha.named_in_progress, Huha.in_progress. by rewrite H.
Qed.

(** With the same [tasks], the invariant survives any evolution of the
    store. *)
Lemma tasks_ok_evolves this w w' :
  evolves (heap w) (heap w') -> tasks_ok this w -> tasks_ok this w'.
Proof.
  intros Hev (Hnd & Hvalid & Hone).
  split; [done|]. split.
  - eapply Forall_impl; [exact Hvalid|]. simpl. intros a Ha.
    destruct Hev as [Hlen _]. lia.
  - intros name i j a b Hi Hj Ha Hb.
    rewrite Forall_forall in Hvalid.
    apply (Hone name i j a b Hi Hj).
    + eapply named_in_progress_evolves; [done| |done].
      apply Hvalid. by eapply list_elem_of_lookup_2.
    + eapply named_in_progress_evolves; [done| |done].
      apply Hvalid. by eapply list_elem_of_lookup_2.
Qed.

(** The methods of a task make the store evolve. *)
Lemma finish_evolves status this w w' :
  HuhaTask.finish status this w = Some w' ->
  evolves (heap w) (heap w') /\ length (heap w') = length (heap w).
Proof.
  intros H. destruct (heap w !! this) as [t|] eqn:Ht.
  - destruct (decide (task_status t = IN_PROGRESS)) as [Hs|Hs].
    + rewrite (finish_in_progress status this t w Ht Hs) in H.
      injection H as <-. simpl. split; [|by rewrite length_insert].
      by apply (evolves_insert _ _ t).
    + rewrite (finish_terminal status this t w Ht Hs) in H.
      injection H as <-. split; [apply evolves_refl | done].
  - unfold HuhaTask.finish in H. by rewrite Ht in H.
Qed.

Section WalkFrame.
Variable bump : HuhaTask -> HuhaTask.
Variable walk : nat -> addr -> list HuhaTask -> option (list HuhaTask).
Hypothesis bump_name : forall t, task_name (bump t) = task_name t.
Hypothesis bump_status : forall t, task_status (bump t) = task_status t.
Hypothesis bump_parent :
  forall t, task_parentTask (bump t) = task_parentTask t.
Hypothesis walk_O : forall a h, walk O a h = None.
Hypothesis walk_S : forall fuel a h,
  walk (S fuel) a h
  = t ← h !! a;
    match task_parentTask t with
    | Some parent => walk fuel parent (<[a := bump t]> h)
    | None => Some (<[a := bump t]> h)
    end.

Lemma walk_evolves fuel a h h' :
  walk fuel a h = Some h' -> evolves h h' /\ length h' = length h.
Proof.
  revert a h. induction fuel as [|fuel IH]; intros a h Hrun.
  - by rewrite walk_O in Hrun.
  - rewrite walk_S in Hrun.
    destruct (h !! a) as [t|] eqn:Ht; [|done]. simpl in Hrun.
    assert (Hstep : evolves h (<[a := bump t]> h)).
    { apply (evolves_insert _ _ t); [done | done | done |].
      by rewrite bump_status. }
    destruct (task_parentTask t) as [p|].
    + apply IH in Hrun as [Hev Hlen]. split.
      * by eapply evolves_trans.
      * by rewrite Hlen, length_insert.
    + injection Hrun as <-. split; [done | apply length_insert].
Qed.
End WalkFrame.

Lemma call_counter_evolves c w w' :
  call_counter c w = Some w' ->
  evolves (heap w) (heap w') /\ length (heap w') = length (heap w).
Proof.
  destruct c as [a|a]; simpl.
  - unfold HuhaTask.addInteraction.
    destruct (HuhaTask.addInteraction_from _ _ _) as [h'|] eqn:Hrun; [|done].
    intros [= <-]. simpl.
    by apply (walk_evolves bump_effort HuhaTask.addInteraction_from)
      in Hrun.
  - unfold HuhaTask.addError.
    destruct (HuhaTask.addError_from _ _ _) as [h'|] eqn:Hrun; [|done].
    intros [= <-]. simpl.
    by apply (walk_evolves bump_errors HuhaTask.addError_from) in Hrun.
Qed.

Lemma call_terminal_evolves c this w w' :
  call_terminal c this w = Some w' ->
  evolves (heap w) (heap w') /\ length (heap w') = length (heap w).
Proof. rewrite call_terminal_finish. apply finish_evolves. Qed.

Lemma forEach_abandon_evolves l w w' :
  forEach HuhaTask.abandon l w = Some w' ->
  evolves (heap w) (heap w') /\ length (heap w') = length (heap w).
Proof.
  revert w. induction l as [|a l IH]; intros w Hrun; simpl in Hrun.
  - injection Hrun as <-. split; [apply evolves_refl | done].
  - destruct (HuhaTask.abandon a w) as [w1|] eqn:Ha; [|done].
    simpl in Hrun. apply finish_evolves in Ha as [Hev1 Hlen1].
    apply IH in Hrun as [Hev Hlen]. split.
    + by eapply evolves_trans.
    + congruence.
Qed.

(** The constructor appends one object to the store. *)
Lemma HuhaTask_new_heap name parentTask options w :
  exists t,
    HuhaTask.new name parentTask options w
    = (length (heap w), snd (HuhaTask.new name parentTask options w))
    /\ heap (snd (HuhaTask.new name parentTask options w)) = heap w ++ [t]
    /\ task_name t = name
    /\ task_status t = IN_PROGRESS
    /\ task_parentTask t = parentTask.
Proof. eexists. repeat split; reflexivity. Qed.

Lemma find_snoc_last {A} (f : A -> bool) l x :
  (forall y, y ∈ l -> f y = false) -> f x = true ->
  List.find f (l ++ [x]) = Some x.
Proof.
  intros Hl Hx. induction l as [|y l IH]; simpl.
  - by rewrite Hx.
  - rewrite Hl by by left. apply IH. intros z Hz. apply Hl. by right.
Qed.

(** The first half of [createTask]: the task of that name that is in
    progress, if there is one, is abandoned; afterwards none is. *)
Lemma abandon_existing_spec name this w :
  tasks_ok this w ->
  exists w1,
    match Huha.getTask name this w with
    | Some existingTask => HuhaTask.abandon existingTask w
    | None => Some w
    end = Some w1
    /\ length (heap w1) = length (heap w)
    /\ evolves (heap w) (heap w1)
    /\ (forall a, a ∈ huha_tasks this ->
        Huha.named_in_progress w1 name a = false).
Proof.
  intros (Hnd & Hvalid & Hone). unfold Huha.getTask.
  destruct (List.find _ _) as [e|] eqn:Hfind.
  - apply List.find_some in Hfind as [He Hp].
    apply list_elem_of_In in He.
    pose proof Hp as Hpe.
    apply named_in_progress_true in Hp as (t & Ht & Hn & Hs).
    exists (finished ABANDONED e t w).
    split; [by apply finish_in_progress|].
    split; [simpl; by rewrite length_insert|].
    split.
    { simpl. by apply (evolves_insert _ _ t). }
    intros a Ha. destruct (decide (a = e)) as [->|Hne].
    + unfold Huha.named_in_progress, Huha.in_progress.
      rewrite finished_lookup by done. simpl.
      by rewrite andb_false_r.
    + rewrite (named_in_progress_same_lookup w).
      * destruct (Huha.named_in_progress w name a) eqn:Hpa; [|done].
        apply list_elem_of_lookup in Ha as [i Hi].
        apply list_elem_of_lookup in He as [j Hj].
        specialize (Hone name i j a e Hi Hj Hpa Hpe). subst j.
        congruence.
      * simpl. by rewrite list_lookup_insert_ne.
  - exists w. split; [done|]. split; [done|].
    split; [apply evolves_refl|].
    intros a Ha. apply list_elem_of_In in Ha.
    by eapply List.find_none in Hfind.
Qed.

Lemma createTask_unfold name parentTask this w :
  Huha.createTask name parentTask this w
  = w1 ← match Huha.getTask name this w with
          | Some existingTask => HuhaTask.abandon existingTask w
          | None => Some w
          end;
    let '(a, w') :=
      HuhaTask.new name parentTask (Some (task_options this)) w1 in
    Some (a, push_task a this, w').
Proof. reflexivity. Qed.

Lemma createTask_spec name parentTask this w :
  tasks_ok this w ->
  let a := length (heap w) in
  exists w1 t w',
    match Huha.getTask name this w with
    | Some existingTask => HuhaTask.abandon existingTask w
    | None => Some w
    end = Some w1
    /\ HuhaTask.new name parentTask (Some (task_options this)) w1 = (a, w')
    /\ Huha.createTask name parentTask this w = Some (a, push_task a this, w')
    /\ length (heap w1) = length (heap w)
    /\ evolves (heap w) (heap w1)
    /\ heap w' = heap w1 ++ [t]
    /\ task_name t = name
    /\ task_status t = IN_PROGRESS
    /\ task_parentTask t = parentTask
    /\ (forall b, b ∈ huha_tasks this ->
        Huha.named_in_progress w' name b = false)
    /\ tasks_ok (push_task a this) w'
    /\ Huha.getTask name (push_task a this) w' = Some a.
Proof.
  intros Hok a.
  destruct (abandon_existing_spec name this w Hok)
    as (w1 & Hab & Hlen & Hev & Hnone).
  destruct (HuhaTask_new_heap name parentTask (Some (task_options this)) w1)
    as (t & Hnew & Hheap & Hn & Hs & Hp).
  remember (snd (HuhaTask.new name parentTask (Some (task_options this)) w1))
    as w' eqn:Hw'. clear Hw'.
  rewrite Hlen in Hnew. fold a in Hnew.
  destruct Hok as (Hnd & Hvalid & Hone).
  assert (Hvalid' : forall b, b ∈ huha_tasks this -> b < a).
  { intros b Hb. rewrite Forall_forall in Hvalid. by apply Hvalid. }
  assert (Hold : forall b, b ∈ huha_tasks this ->
                   heap w' !! b = heap w1 !! b).
  { intros b Hb. rewrite Hheap. apply lookup_app_l.
    rewrite Hlen. by apply Hvalid'. }
  assert (Hnone' : forall b, b ∈ huha_tasks this ->
                     Huha.named_in_progress w' name b = false).
  { intros b Hb. rewrite (named_in_progress_same_lookup w1); auto. }
  assert (Ha : heap w' !! a = Some t).
  { rewrite Hheap. unfold a. rewrite <- Hlen.
    rewrite lookup_app_r by done. by rewrite Nat.sub_diag. }
  assert (Hpa : Huha.named_in_progress w' name a = true).
  { apply named_in_progress_true. by exists t. }
  assert (Hev' : evolves (heap w) (heap w')).
  { eapply evolves_trans; [exact Hev|]. rewrite Hheap. apply evolves_app. }
  exists w1, t, w'.
  split; [done|]. split; [done|]. split.
  { rewrite createTask_unfold, Hab. cbn [mbind option_bind].
    by rewrite Hnew. }
  split; [done|]. split; [done|]. split; [done|]. split; [done|].
  split; [done|]. split; [done|]. split; [done|]. split.
  - split; [|split].
    + simpl. apply NoDup_app. split; [done|]. split.
      * intros b Hb Hba. apply list_elem_of_singleton in Hba as ->.
        specialize (Hvalid' a Hb). lia.
      * apply NoDup_singleton.
    + simpl. apply Forall_app. split.
      * apply Forall_forall. intros b Hb. specialize (Hvalid' b Hb).
        rewrite Hheap, length_app, Hlen. fold a. simpl. lia.
      * apply Forall_singleton. rewrite Hheap, length_app, Hlen.
        fold a. simpl. lia.
    + intros name' i j b c Hi Hj Hb Hc. simpl in Hi, Hj.
      apply lookup_app_Some in Hi as [Hi | [Hil Hi]];
        apply lookup_app_Some in Hj as [Hj | [Hjl Hj]].
      * apply (Hone name' i j b c Hi Hj).
        -- eapply named_in_progress_evolves; [exact Hev'| |done].
           apply Hvalid'. by eapply list_elem_of_lookup_2.
        -- eapply named_in_progress_evolves; [exact Hev'| |done].
           apply Hvalid'. by eapply list_elem_of_lookup_2.
      * apply list_lookup_singleton_Some in Hj as [_ <-].
        apply named_in_progress_true in Hc as (t2 & Ht2 & Hn2 & _).
        rewrite Ha in Ht2. injection Ht2 as <-. subst name'.
        rewrite Hn in Hb.
        rewrite Hnone' in Hb by by eapply list_elem_of_lookup_2. done.
      * apply list_lookup_singleton_Some in Hi as [_ <-].
        apply named_in_progress_true in Hb as (t2 & Ht2 & Hn2 & _).
        rewrite Ha in Ht2. injection Ht2 as <-. subst name'.
        rewrite Hn in Hc.
        rewrite Hnone' in Hc by by eapply list_elem_of_lookup_2. done.
      * apply list_lookup_singleton_Some in Hi as [Hi _].
        apply list_lookup_singleton_Some in Hj as [Hj _]. lia.
  - unfold Huha.getTask. simpl. by apply find_snoc_last.
Qed.

Lemma tasks_ok_ext this this' w w' :
  huha_tasks this' = huha_tasks this -> heap w' = heap w ->
  tasks_ok this w -> tasks_ok this' w'.
Proof.
  intros Ht Hh (Hnd & Hvalid & Hone).
  unfold tasks_ok, one_in_progress. rewrite Ht, Hh.
  split; [done|]. split; [done|].
  intros name i j a b Hi Hj Ha Hb.
  rewrite (named_in_progress_same_lookup w) in Ha, Hb by by rewrite Hh.
  by eapply Hone.
Qed.

Lemma createTask_evolves name parentTask this w a this' w' :
  Huha.createTask name parentTask this w = Some (a, this', w') ->
  exists w1 t,
    length (heap w1) = length (heap w)
    /\ evolves (heap w) (heap w1)
    /\ heap w' = heap w1 ++ [t]
    /\ task_parentTask t = parentTask.
Proof.
  rewrite createTask_unfold. intros H.
  destruct (match Huha.getTask name this w with
            | Some e => HuhaTask.abandon e w
            | None => Some w
            end) as [w1|] eqn:Hab; [|done].
  cbn [mbind option_bind] in H.
  destruct (HuhaTask_new_heap name parentTask (Some (task_options this)) w1)
    as (t & Hnew & Hheap & _ & _ & Hp).
  rewrite Hnew in H. injection H as <- <- <-.
  exists w1, t.
  assert (Hw1 : evolves (heap w) (heap w1)
                /\ length (heap w1) = length (heap w)).
  { destruct (Huha.getTask name this w) as [e|].
    - by apply finish_evolves in Hab.
    - injection Hab as <-. split; [apply evolves_refl | done]. }
  destruct Hw1 as [Hev Hlen]. done.
Qed.

Lemma createTask_parents_older name parentTask this w a this' w' :
  (forall p, parentTask = Some p -> p < length (heap w)) ->
  Huha.createTask name parentTask this w = Some (a, this', w') ->
  parents_older (heap w) -> parents_older (heap w').
Proof.
  intros Hp Hrun Hwf.
  apply createTask_evolves in Hrun as (w1 & t & Hlen & Hev & -> & Hpt).
  apply parents_older_snoc.
  - by eapply evolves_parents_older.
  - intros p Hpp. rewrite Hlen. apply Hp. congruence.
Qed.

(** The invariant of a registry and its world. *)
Lemma step_invariant s s' :
  step s s' ->
  parents_older (heap (snd s)) /\ tasks_ok (fst s) (snd s) ->
  parents_older (heap (snd s')) /\ tasks_ok (fst s') (snd s').
Proof.
  intros Hstep [Hwf Hok].
  destruct Hstep as
    [ this w name parentTask a this' w' Hp Hrun
    | this w name object action section value task eventGroup e this' w' Hrun
    | this w capturedEvent dataset this' w' Hrun
    | this w w' Hrun
    | this w c task w' Hrun
    | this w c w' Hrun
    | this w other name parentTask a other' w' Hp Hrun ];
    simpl in *.
  - split; [by eapply createTask_parents_older|].
    destruct (createTask_spec name parentTask this w Hok)
      as (w1 & t & w2 & _ & _ & Hrun' & _ & _ & _ & _ & _ & _ & _ & Hok' & _).
    rewrite Hrun' in Hrun. by injection Hrun as _ <- <-.
  - unfold Huha.createEvent, HuhaEvent.new in Hrun.
    destruct (truthy_string eventGroup); injection Hrun as _ <- <-;
      rewrite event_track_emit; simpl;
      (split; [done | by eapply tasks_ok_ext]).
  - unfold Huha.registerEvent in Hrun.
    destruct (decide (Some capturedEvent = huhaTrigger dataset));
      [|by injection Hrun as <- <-].
    destruct (decide (huhaEvent dataset = Some "start")).
    + destruct (Huha.createTask _ None this w) as [[[a this2] w2]|] eqn:Hc;
        [|done].
      simpl in Hrun. injection Hrun as <- <-.
      split; [by eapply (createTask_parents_older _ None)|].
      destruct (createTask_spec (huhaTask dataset) None this w Hok)
        as (w1 & t & w3 & _ & _ & Hrun' & _ & _ & _ & _ & _ & _ & _ & Hok'
            & _).
      rewrite Hrun' in Hc. by injection Hc as _ <- <-.
    + assert (Hmethod :
        forall call : World -> option World,
          (forall w w', call w = Some w' ->
             evolves (heap w) (heap w') /\ length (heap w') = length (heap w)) ->
          forall w', call w = Some w' ->
            parents_older (heap w') /\ tasks_ok this w').
      { intros call Hcall w2 Hw2. apply Hcall in Hw2 as [Hev Hlen].
        split; [by eapply evolves_parents_older | by eapply tasks_ok_evolves]. }
      destruct (Huha.getTask (huhaTask dataset) this w) as [task|];
        [|by injection Hrun as <- <-].
      repeat case_decide;
        try (by injection Hrun as <- <-);
        match type of Hrun with
        | (?call ≫= _) = _ =>
            destruct call as [w2|] eqn:Hcall; [|done];
            simpl in Hrun; injection Hrun as <- <-
        end.
      * apply (Hmethod (HuhaTask.complete task)); [|done].
        intros ? ?. apply finish_evolves.
      * apply (Hmethod (HuhaTask.abandon task)); [|done].
        intros ? ?. apply finish_evolves.
      * apply (Hmethod (call_counter (CallAddInteraction task))); [|done].
        intros ? ?. apply call_counter_evolves.
      * apply (Hmethod (call_counter (CallAddError task))); [|done].
        intros ? ?. apply call_counter_evolves.
  - apply forEach_abandon_evolves in Hrun as [Hev Hlen].
    split; [by eapply evolves_parents_older | by eapply tasks_ok_evolves].
  - apply call_terminal_evolves in Hrun as [Hev Hlen].
    split; [by eapply evolves_parents_older | by eapply tasks_ok_evolves].
  - apply call_counter_evolves in Hrun as [Hev Hlen].
    split; [by eapply evolves_parents_older | by eapply tasks_ok_evolves].
  - split; [by eapply createTask_parents_older|].
    apply createTask_evolves in Hrun as (w1 & t & Hlen & Hev & Hheap & _).
    eapply tasks_ok_evolves; [|exact Hok].
    eapply evolves_trans; [exact Hev|]. rewrite Hheap. apply evolves_app.
Qed.

Lemma steps_invariant s s' :
  rtc step s s' ->
  parents_older (heap (snd s)) /\ tasks_ok (fst s) (snd s) ->
  parents_older (heap (snd s')) /\ tasks_ok (fst s') (snd s').
Proof.
  induction 1 as [s | s1 s2 s3 Hstep _ IH]; [done|].
  intros Hinv. apply IH. by eapply step_invariant.
Qed.

Lemma reachable_invariant s :
  reachable s -> parents_older (heap (snd s)) /\ tasks_ok (fst s) (snd s).
Proof.
  intros (s0 & (options & w & Hwf & ->) & Hrun).
  eapply steps_invariant; [exact Hrun|].
  simpl. split; [done|]. split; [apply NoDup_nil_2|].
  split; [constructor|]. intros name i j a b Hi. done.
Qed.

(** C3. In every state a registry can reach, each name has at most one
    position of [tasks] holding a task of that name in progress.  From
    such a state two successive calls [createTask(name, ...)] both
    return; the second one finds the first task, abandons it while the
    second task does not exist yet, and only then constructs the second
    task.  Afterwards the first task is "Abandoned", the second is "In
    progress", [getTask(name)] returns the second, and the invariant
    holds again. *)
Theorem createTask_twice (s : Huha * World) (name : string)
    (parent1 parent2 : option addr) :
  reachable s ->
  one_in_progress (fst s) (snd s)
  /\ exists first this1 w1 w1' second this2 w2,
       Huha.createTask name parent1 (fst s) (snd s) = Some (first, this1, w1)
       /\ Huha.createTask name parent2 this1 w1 = Some (second, this2, w2)
       /\ first <> second
       /\ task_status <$> heap w1 !! first = Some IN_PROGRESS
       /\ HuhaTask.abandon first w1 = Some w1'
       /\ task_status <$> heap w1' !! first = Some ABANDONED
       /\ heap w1' !! second = None
       /\ HuhaTask.new name parent2 (Some (task_options this1)) w1'
          = (second, w2)
       /\ task_status <$> heap w2 !! first = Some ABANDONED
       /\ task_status <$> heap w2 !! second = Some IN_PROGRESS
       /\ Huha.getTask name this2 w2 = Some second
       /\ one_in_progress this2 w2.
Proof.
  intros Hreach. destruct s as [this w]. simpl.
  destruct (reachable_invariant _ Hreach) as [_ Hok]. simpl in Hok.
  split; [apply Hok|].
  destruct (createTask_spec name parent1 this w Hok)
    as (w0 & t1 & w1 & _ & _ & Hrun1 & Hlen0 & _ & Hheap1 & _ & Hs1 & _ & _
        & Hok1 & Hget1).
  remember (length (heap w)) as first eqn:Efirst.
  remember (push_task first this) as this1 eqn:Ethis1.
  assert (Hfirst : heap w1 !! first = Some t1).
  { rewrite Hheap1, <- Hlen0.
    rewrite lookup_app_r by done. by rewrite Nat.sub_diag. }
  assert (Hlen1 : length (heap w1) = S first).
  { rewrite Hheap1, length_app, Hlen0. simpl. lia. }
  destruct (createTask_spec name parent2 this1 w1 Hok1)
    as (w1' & t2 & w2 & Hab & Hnew & Hrun2 & Hlen1' & _ & Hheap2 & _ & Hs2
        & _ & _ & Hok2 & Hget2).
  rewrite Hget1 in Hab.
  assert (Hw1' : w1' = finished ABANDONED first t1 w1).
  { unfold HuhaTask.abandon in Hab.
    rewrite (finish_in_progress _ _ t1) in Hab by done. congruence. }
  assert (Hfirst' : heap w1' !! first
                    = Some (set_end_status (clock w1 (clock_reads w1))
                              ABANDONED t1)).
  { rewrite Hw1'. by apply finished_lookup. }
  rewrite Hlen1 in Hnew, Hrun2, Hget2, Hok2.
  exists first, this1, w1, w1', (S first), (push_task (S first) this1), w2.
  split; [done|]. split; [done|]. split; [lia|].
  split; [by rewrite Hfirst; simpl; rewrite Hs1|].
  split; [done|]. split; [by rewrite Hfirst'|]. split.
  { apply lookup_ge_None. lia. }
  split; [done|]. split.
  { rewrite Hheap2, lookup_app_l by lia. by rewrite Hfirst'. }
  split.
  { rewrite Hheap2. replace (S first) with (length (heap w1')) by lia.
    rewrite lookup_app_r by done. rewrite Nat.sub_diag. simpl.
    by rewrite Hs2. }
  split; [done | apply Hok2].
Qed.

Lemma fresh_registry_reachable : reachable fresh_registry.
Proof.
  exists fresh_registry. split; [|apply rtc_refl].
  exists None, sample_world. split; [|done].
  intros a t p Ha. done.
Qed.

(** Two tasks "checkout" created in a row on a fresh registry. *)
Lemma createTask_twice_witness :
  one_in_progress (fst fresh_registry) (snd fresh_registry)
  /\ exists first this1 w1 w1' second this2 w2,
       Huha.createTask "checkout" None (fst fresh_registry)
         (snd fresh_registry) = Some (first, this1, w1)
       /\ Huha.createTask "checkout" None this1 w1
          = Some (second, this2, w2)
       /\ first <> second
       /\ task_status <$> heap w1 !! first = Some IN_PROGRESS
       /\ HuhaTask.abandon first w1 = Some w1'
       /\ task_status <$> heap w1' !! first = Some ABANDONED
       /\ heap w1' !! second = None
       /\ HuhaTask.new "checkout" None (Some (task_options this1)) w1'
          = (second, w2)
       /\ task_status <$> heap w2 !! first = Some ABANDONED
       /\ task_status <$> heap w2 !! second = Some IN_PROGRESS
       /\ Huha.getTask "checkout" this2 w2 = Some second
       /\ one_in_progress this2 w2.
Proof.
  exact (createTask_twice fresh_registry "checkout" None None
           fresh_registry_reachable).
Defined.

Example two_checkout_tasks_run :
  (r1 ← Huha.createTask "checkout" None (fst fresh_registry)
          (snd fresh_registry);
   r2 ← Huha.createTask "checkout" None (snd (fst r1)) (snd r1);
   Some (fst (fst r1), fst (fst r2), huha_tasks (snd (fst r2)),
         task_status <$> heap (snd r2),
         Huha.getTask "checkout" (snd (fst r2)) (snd r2)))
  = Some (0, 1, [0; 1], ["Abandoned"; "In progress"], Some 1).
Proof. reflexivity. Qed.

(** * Further properties of the registry and its tasks *)

(** ** What [createTask] returns *)

Lemma getTask_Some name this w a :
  Huha.getTask name this w = Some a ->
  a ∈ huha_tasks this
  /\ exists t, heap w !! a = Some t /\ task_name t = name
               /\ task_status t = IN_PROGRESS.
Proof.
  unfold Huha.getTask. intros H. apply List.find_some in H as [Ha Hp].
  split; [by apply list_elem_of_In|]. by apply named_in_progress_true.
Qed.

Lemma getTask_None name this w :
  Huha.getTask name this w = None ->
  forall a, a ∈ huha_tasks this -> Huha.named_in_progress w name a = false.
Proof.
  unfold Huha.getTask. intros H a Ha. apply list_elem_of_In in Ha.
  by eapply List.find_none in H.
Qed.

Lemma createTask_result (name : string) (parentTask : option addr)
    (this : Huha) (w : World) :
  exists w1 w',
    Huha.createTask name parentTask this w
    = Some (length (heap w), push_task (length (heap w)) this, w')
    /\ (Huha.getTask name this w = None -> w1 = w)
    /\ (forall e t, Huha.getTask name this w = Some e ->
        heap w !! e = Some t -> w1 = finished ABANDONED e t w)
    /\ length (heap w1) = length (heap w)
    /\ heap w'
       = heap w1
         ++ [fresh_task name parentTask (registry_flags this)
               (clock w1 (clock_reads w1))]
    /\ log w' = log w1
    /\ DEFAULTS w' = registry_flags this.
Proof.
  rewrite createTask_unfold.
  destruct (Huha.getTask name this w) as [e|] eqn:Hget.
  - destruct (getTask_Some _ _ _ _ Hget) as (_ & t & Ht & _ & Hs).
    unfold HuhaTask.abandon. rewrite (finish_in_progress _ _ t) by done.
    cbn [mbind option_bind].
    exists (finished ABANDONED e t w). eexists.
    split; [simpl; by rewrite length_insert|].
    split; [done|]. split.
    { intros e' t' [= <-] Ht'. congruence. }
    split; [simpl; by rewrite length_insert|].
    repeat split.
  - cbn [mbind option_bind]. exists w. eexists.
    split; [reflexivity|]. split; [done|]. split; [done|].
    repeat split.
Qed.

(** [createTask] always returns.  It returns a new object, the next of
    the store, and appends it to [tasks]; [events] and the registry's
    flags are as before.  The new task has the given name and parent,
    is in progress with zeroed counters and no end, started at the next
    reading of the clock, and is tracked as the registry is configured,
    whatever [DEFAULTS] held; [DEFAULTS] is left holding the registry's
    configuration.  When [getTask(name)] finds nothing, nothing else
    changes and no call is made.  When it finds a task, that task is
    first abandoned: its status becomes "Abandoned", its end the
    current reading of the clock, its summary is sent, and the new task
    starts at the reading after that. *)
Theorem createTask_postcondition (name : string) (parentTask : option addr)
    (this : Huha) (w : World) :
  let a := length (heap w) in
  let created (start : Z) :=
    {| task_name := name; task_status := "In progress";
       task_effort := 0; task_errors := 0;
       task_start := start; task_end := None;
       task_trackOnGoogleAnalytics := huha_trackOnGoogleAnalytics this;
       task_trackOnIntercom := huha_trackOnIntercom this;
       task_trackOnSegment := huha_trackOnSegment this;
       task_parentTask := parentTask |} in
  exists this' w',
    Huha.createTask name parentTask this w = Some (a, this', w')
    /\ huha_tasks this' = huha_tasks this ++ [a]
    /\ huha_events this' = huha_events this
    /\ huha_trackOnGoogleAnalytics this' = huha_trackOnGoogleAnalytics this
    /\ huha_trackOnIntercom this' = huha_trackOnIntercom this
    /\ huha_trackOnSegment this' = huha_trackOnSegment this
    /\ DEFAULTS w'
       = {| trackOnGoogleAnalytics := huha_trackOnGoogleAnalytics this;
            trackOnIntercom := huha_trackOnIntercom this;
            trackOnSegment := huha_trackOnSegment this |}
    /\ length (heap w') = S a
    /\ match Huha.getTask name this w with
       | None =>
           heap w' = heap w ++ [created (clock w (clock_reads w))]
           /\ log w' = log w
       | Some existing =>
           exists t,
             heap w !! existing = Some t
             /\ let abandoned :=
                  {| task_name := task_name t; task_status := "Abandoned";
                     task_effort := task_effort t;
                     task_errors := task_errors t;
                     task_start := task_start t;
                     task_end := Some (clock w (clock_reads w));
                     task_trackOnGoogleAnalytics :=
                       task_trackOnGoogleAnalytics t;
                     task_trackOnIntercom := task_trackOnIntercom t;
                     task_trackOnSegment := task_trackOnSegment t;
                     task_parentTask := task_parentTask t |} in
                heap w'
                = <[existing := abandoned]> (heap w)
                  ++ [created (clock w (S (clock_reads w)))]
                /\ log w' = log w ++ summary_calls w abandoned
       end.
Proof.
  intros a created.
  destruct (createTask_result name parentTask this w)
    as (w1 & w' & Hrun & Hnone & Hsome & Hlen & Hheap & Hlog & HD).
  exists (push_task a this), w'.
  split; [exact Hrun|].
  do 5 (split; [reflexivity|]).
  split; [exact HD|].
  split; [rewrite Hheap, length_app, Hlen; simpl; lia|].
  destruct (Huha.getTask name this w) as [existing|] eqn:Hget.
  - destruct (getTask_Some _ _ _ _ Hget) as (_ & t & Ht & _ & _).
    exists t. split; [exact Ht|].
    rewrite (Hsome existing t eq_refl Ht) in Hheap, Hlog.
    split; [exact Hheap | exact Hlog].
  - rewrite (Hnone eq_refl) in Hheap, Hlog.
    split; [exact Hheap | exact Hlog].
Qed.

(** [createTask("cart")] on the registry of three tasks, where a
    "cart" task with effort 3 is in progress since 100 and the clock
    reads 1000: the old task is abandoned at 1000, Segment is told so,
    and the new task, the fourth of [tasks], starts at 1500. *)
Lemma createTask_postcondition_witness :
  exists this' w' old new,
    Huha.createTask "cart" None three_tasks_registry three_tasks_world
    = Some (3, this', w')
    /\ huha_tasks this' = [0; 1; 2; 3]
    /\ heap w' !! 0 = Some old
    /\ task_name old = "cart"
    /\ task_status old = "Abandoned"
    /\ task_end old = Some 1000%Z
    /\ task_effort old = 3%Z
    /\ heap w' !! 3 = Some new
    /\ task_name new = "cart"
    /\ task_status new = "In progress"
    /\ task_effort new = 0%Z
    /\ task_start new = 1500%Z
    /\ task_end new = None
    /\ log w'
       = [ analytics_track "cart"
             [ ("category", VStr "cart");
               ("action", VStr "Abandoned");
               ("label", VStr "Task");
               ("value", VNum 1);
               ("errors", VNum 0);
               ("effort", VNum 3);
               ("time", VNum 900);
               ("result", VStr "Abandoned");
               ("started", VNum 100) ] ].
Proof.
  destruct (createTask_postcondition "cart" None three_tasks_registry
              three_tasks_world)
    as (this' & w' & Hrun & Htasks & _ & _ & _ & _ & _ & _ & Hcase).
  assert (Hget : Huha.getTask "cart" three_tasks_registry three_tasks_world
                 = Some 0) by reflexivity.
  rewrite Hget in Hcase. destruct Hcase as (t & Ht & Hheap & Hlog).
  injection Ht as <-.
  eexists this', w', _, _.
  split; [exact Hrun|]. split; [exact Htasks|].
  split; [rewrite Hheap; reflexivity|].
  do 4 (split; [reflexivity|]).
  split; [rewrite Hheap; reflexivity|].
  do 5 (split; [reflexivity|]).
  exact Hlog.
Defined.

(** Every object that exists before [createTask(name)], other than the
    one [getTask(name)] finds, is the same afterwards. *)
Theorem createTask_frame (name : string) (parentTask : option addr)
    (this : Huha) (w : World) (a : addr) (this' : Huha) (w' : World) :
  Huha.createTask name parentTask this w = Some (a, this', w') ->
  forall b t,
    heap w !! b = Some t ->
    Huha.getTask name this w <> Some b ->
    heap w' !! b = Some t.
Proof.
  intros Hrun b t Hb Hget.
  destruct (createTask_result name parentTask this w)
    as (w1 & w2 & Hrun' & Hnone & Hsome & Hlen & Hheap & _).
  rewrite Hrun' in Hrun. injection Hrun as _ _ <-.
  rewrite Hheap, lookup_app_l
    by (rewrite Hlen; by eapply lookup_lt_Some).
  destruct (Huha.getTask name this w) as [e|] eqn:He.
  - destruct (getTask_Some _ _ _ _ He) as (_ & te & Hte & _).
    rewrite (Hsome e te eq_refl Hte). simpl.
    rewrite list_lookup_insert_ne; [done|]. congruence.
  - by rewrite Hnone.
Qed.

(** The "cart" task is in progress when [createTask("search")] is
    called: it is untouched. *)
Lemma createTask_frame_witness :
  exists w',
    Huha.createTask "search" None three_tasks_registry three_tasks_world
    = Some (3, push_task 3 three_tasks_registry, w')
    /\ heap w' !! 0 = Some cart_task.
Proof.
  eexists. split; [reflexivity|].
  eapply (createTask_frame "search" None three_tasks_registry
            three_tasks_world 3);
    [reflexivity | reflexivity | simpl; discriminate].
Defined.

(** ** Every method is a sequence of elementary effects *)

Lemma forEach_abandon_prims l w w' :
  forEach HuhaTask.abandon l w = Some w' -> rtc prim w w'.
Proof.
  revert w. induction l as [|a l IH]; intros w Hrun; simpl in Hrun.
  - injection Hrun as <-. apply rtc_refl.
  - destruct (HuhaTask.abandon a w) as [w1|] eqn:Ha; [|done].
    simpl in Hrun. eapply rtc_l; [|by apply IH].
    by apply (prim_terminal CallAbandon a).
Qed.

Lemma createTask_prims name parentTask this w a this' w' :
  (forall p, parentTask = Some p -> p < length (heap w)) ->
  Huha.createTask name parentTask this w = Some (a, this', w') ->
  rtc prim w w'.
Proof.
  intros Hp. rewrite createTask_unfold. intros H.
  destruct (match Huha.getTask name this w with
            | Some e => HuhaTask.abandon e w
            | None => Some w
            end) as [w1|] eqn:Hab; [|done].
  cbn [mbind option_bind] in H.
  destruct (HuhaTask_new_heap name parentTask (Some (task_options this)) w1)
    as (t & Hnew & _).
  rewrite Hnew in H. injection H as _ _ <-.
  assert (H1 : rtc prim w w1 /\ length (heap w1) = length (heap w)).
  { destruct (Huha.getTask name this w) as [e|].
    - split; [|by apply finish_evolves in Hab as [_ Hlen]].
      apply rtc_once. by apply (prim_terminal CallAbandon e).
    - injection Hab as <-. split; [apply rtc_refl | done]. }
  destruct H1 as [H1 Hlen].
  eapply rtc_r; [exact H1|].
  apply (prim_new name parentTask (Some (task_options this)) w1).
  intros p Hpp. rewrite Hlen. by apply Hp.
Qed.

Lemma step_prims s s' : step s s' -> rtc prim (snd s) (snd s').
Proof.
  intros Hstep.
  destruct Hstep as
    [ this w name parentTask a this' w' Hp Hrun
    | this w name object action section value task eventGroup e this' w' Hrun
    | this w capturedEvent dataset this' w' Hrun
    | this w w' Hrun
    | this w c task w' Hrun
    | this w c w' Hrun
    | this w other name parentTask a other' w' Hp Hrun ];
    simpl.
  - by eapply createTask_prims.
  - unfold Huha.createEvent in Hrun.
    destruct (HuhaEvent.new _ _ _ _ _ _ _ _ w) as [e0 w0] eqn:Hnew.
    injection Hrun as _ _ <-. apply rtc_once.
    pose proof (prim_event name object action section value task eventGroup
                  (Some {| optGoogleAnalytics :=
                             Some (huha_trackOnGoogleAnalytics this);
                           optIntercom := None;
                           optSegment := Some (huha_trackOnSegment this) |})
                  w) as Hprim.
    by rewrite Hnew in Hprim.
  - unfold Huha.registerEvent in Hrun.
    destruct (decide (Some capturedEvent = huhaTrigger dataset));
      [|injection Hrun as <- <-; apply rtc_refl].
    destruct (decide (huhaEvent dataset = Some "start")).
    + destruct (Huha.createTask _ None this w) as [[[a this2] w2]|] eqn:Hc;
        [|done].
      simpl in Hrun. injection Hrun as <- <-.
      by eapply (createTask_prims _ None).
    + destruct (Huha.getTask (huhaTask dataset) this w) as [task|];
        [|injection Hrun as <- <-; apply rtc_refl].
      repeat case_decide;
        try (injection Hrun as <- <-; apply rtc_refl);
        match type of Hrun with
        | (?call ≫= _) = _ =>
            destruct call as [w2|] eqn:Hcall; [|done];
            simpl in Hrun; injection Hrun as <- <-
        end; apply rtc_once.
      * by apply (prim_terminal CallComplete task).
      * by apply (prim_terminal CallAbandon task).
      * by apply (prim_counter (CallAddInteraction task)).
      * by apply (prim_counter (CallAddError task)).
  - by apply forEach_abandon_prims in Hrun.
  - apply rtc_once. by eapply prim_terminal.
  - apply rtc_once. by eapply prim_counter.
  - by eapply createTask_prims.
Qed.

Lemma steps_prims s s' : rtc step s s' -> rtc prim (snd s) (snd s').
Proof.
  induction 1 as [s | s1 s2 s3 Hstep _ IH]; [apply rtc_refl|].
  etrans; [by apply step_prims | exact IH].
Qed.

Lemma prim_parents_older w w' :
  prim w w' -> parents_older (heap w) -> parents_older (heap w').
Proof.
  intros Hprim Hwf.
  destruct Hprim as
    [ name parentTask options w Hp | c this w w' Hrun | c w w' Hrun
    | name object action section value task eventGroup options w ].
  - simpl. by apply parents_older_snoc.
  - apply call_terminal_evolves in Hrun as [Hev Hlen].
    by eapply evolves_parents_older.
  - apply call_counter_evolves in Hrun as [Hev Hlen].
    by eapply evolves_parents_older.
  - rewrite event_track_emit. simpl. unfold HuhaEvent.new.
    by destruct (truthy_string eventGroup).
Qed.

(** An invariant of the world that the elementary effects keep on well
    formed stores is kept by every run of the registry. *)
Lemma prims_invariant (I : World -> Prop) :
  (forall w w', prim w w' -> parents_older (heap w) -> I w -> I w') ->
  forall w w', rtc prim w w' -> parents_older (heap w) -> I w ->
    parents_older (heap w') /\ I w'.
Proof.
  intros Hprim w w' Hrun.
  induction Hrun as [w | w1 w2 w3 Hstep _ IH]; [done|].
  intros Hwf HI. apply IH.
  - by eapply prim_parents_older.
  - by eapply Hprim.
Qed.

(** ** How tasks and the world advance *)

Lemma task_advances_refl t : task_advances t t.
Proof. unfold task_advances. repeat split; lia. Qed.

Lemma task_advances_trans t1 t2 t3 :
  task_advances t1 t2 -> task_advances t2 t3 -> task_advances t1 t3.
Proof.
  unfold task_advances.
  intros (Hn & Hs & Hp & Hg & Hi & Hsg & He & Hr & Ht)
         (Hn' & Hs' & Hp' & Hg' & Hi' & Hsg' & He' & Hr' & Ht').
  repeat split; try congruence; try lia.
  - destruct (Ht H) as [Hst _]. destruct Ht' as [Hst' _]; congruence.
  - destruct (Ht H) as [Hst Hen]. destruct Ht' as [_ Hen']; congruence.
Qed.

Lemma task_advances_bump_effort t : task_advances t (bump_effort t).
Proof. unfold task_advances. simpl. repeat split; lia. Qed.

Lemma task_advances_bump_errors t : task_advances t (bump_errors t).
Proof. unfold task_advances. simpl. repeat split; lia. Qed.

Lemma task_advances_finish t e status :
  task_status t = IN_PROGRESS ->
  task_advances t (set_end_status e status t).
Proof. intros Hs. unfold task_advances. simpl. repeat split; (lia || done). Qed.

(** The recursion of a counter relates every object to what it becomes
    by any reflexive and transitive relation its field write is in. *)
Section WalkRel.
Variable bump : HuhaTask -> HuhaTask.
Variable walk : nat -> addr -> list HuhaTask -> option (list HuhaTask).
Variable R : HuhaTask -> HuhaTask -> Prop.
Hypothesis R_refl : forall t, R t t.
Hypothesis R_trans : forall t1 t2 t3, R t1 t2 -> R t2 t3 -> R t1 t3.
Hypothesis R_bump : forall t, R t (bump t).
Hypothesis walk_O : forall a h, walk O a h = None.
Hypothesis walk_S : forall fuel a h,
  walk (S fuel) a h
  = t ← h !! a;
    match task_parentTask t with
    | Some parent => walk fuel parent (<[a := bump t]> h)
    | None => Some (<[a := bump t]> h)
    end.

Lemma walk_rel fuel a h h' :
  walk fuel a h = Some h' ->
  length h' = length h
  /\ forall b t, h !! b = Some t -> exists t', h' !! b = Some t' /\ R t t'.
Proof.
  revert a h. induction fuel as [|fuel IH]; intros a h Hrun.
  - by rewrite walk_O in Hrun.
  - rewrite walk_S in Hrun.
    destruct (h !! a) as [t|] eqn:Ht; [|done]. simpl in Hrun.
    assert (Hstep : forall b tb, h !! b = Some tb ->
              exists t', <[a := bump t]> h !! b = Some t' /\ R tb t').
    { intros b tb Hb. destruct (decide (a = b)) as [<-|Hne].
      - exists (bump t).
        rewrite list_lookup_insert_eq by by eapply lookup_lt_Some.
        rewrite Ht in Hb. injection Hb as <-. done.
      - exists tb. by rewrite list_lookup_insert_ne. }
    destruct (task_parentTask t) as [p|].
    + apply IH in Hrun as [Hlen Hrel]. split.
      * by rewrite Hlen, length_insert.
      * intros b tb Hb. destruct (Hstep b tb Hb) as (t1 & Ht1 & HR1).
        destruct (Hrel b t1 Ht1) as (t2 & Ht2 & HR2).
        exists t2. split; [done|]. by eapply R_trans.
    + injection Hrun as <-. split; [apply length_insert | done].
Qed.
End WalkRel.

Lemma call_counter_rel (R : HuhaTask -> HuhaTask -> Prop) c w w' :
  (forall t, R t t) ->
  (forall t1 t2 t3, R t1 t2 -> R t2 t3 -> R t1 t3) ->
  (forall t, R t (bump_of c t)) ->
  call_counter c w = Some w' ->
  exists h',
    w' = set_heap h' w
    /\ length h' = length (heap w)
    /\ forall b t, heap w !! b = Some t ->
         exists t', h' !! b = Some t' /\ R t t'.
Proof.
  intros Hrefl Htrans Hbump.
  destruct c as [a|a]; simpl in *.
  - unfold HuhaTask.addInteraction.
    destruct (HuhaTask.addInteraction_from _ _ _) as [h'|] eqn:Hrun; [|done].
    intros [= <-]. exists h'. split; [done|].
    by apply (walk_rel bump_effort HuhaTask.addInteraction_from R) in Hrun.
  - unfold HuhaTask.addError.
    destruct (HuhaTask.addError_from _ _ _) as [h'|] eqn:Hrun; [|done].
    intros [= <-]. exists h'. split; [done|].
    by apply (walk_rel bump_errors HuhaTask.addError_from R) in Hrun.
Qed.

(** [finish], case by case. *)
Lemma call_terminal_cases c this w w' :
  call_terminal c this w = Some w' ->
  w' = w
  \/ exists t, heap w !! this = Some t /\ task_status t = IN_PROGRESS
               /\ w' = finished (terminal_status c) this t w.
Proof.
  rewrite call_terminal_finish. intros H.
  destruct (heap w !! this) as [t|] eqn:Ht.
  - destruct (decide (task_status t = IN_PROGRESS)) as [Hs|Hs].
    + rewrite (finish_in_progress _ _ t) in H by done.
      injection H as <-. right. by exists t.
    + rewrite (finish_terminal _ _ t) in H by done.
      injection H as <-. by left.
  - unfold HuhaTask.finish in H. by rewrite Ht in H.
Qed.

Lemma advances_refl w : advances w w.
Proof.
  unfold advances. repeat split; try done.
  intros a t Ht. exists t. split; [done | apply task_advances_refl].
Qed.

Lemma advances_trans w1 w2 w3 :
  advances w1 w2 -> advances w2 w3 -> advances w1 w3.
Proof.
  unfold advances.
  intros (Hc & Hu & Hg & Ha & Hi & Hs & Hr & Hn & Hl & Hh & Ht)
         (Hc' & Hu' & Hg' & Ha' & Hi' & Hs' & Hr' & Hn' & Hl' & Hh' & Ht').
  repeat split; try congruence; try lia.
  - by etrans.
  - intros a t Hat. destruct (Ht a t Hat) as (t2 & Ht2 & H12).
    destruct (Ht' a t2 Ht2) as (t3 & Ht3 & H23).
    exists t3. split; [done|]. by eapply task_advances_trans.
Qed.

Lemma prim_advances w w' : prim w w' -> advances w w'.
Proof.
  intros Hprim.
  destruct Hprim as
    [ name parentTask options w Hp | c this w w' Hrun | c w w' Hrun
    | name object action section value task eventGroup options w ].
  - unfold advances. simpl. repeat split; try done; try lia.
    + rewrite length_app. lia.
    + intros a t Ht. exists t.
      split; [by apply lookup_app_l_Some | apply task_advances_refl].
  - apply call_terminal_cases in Hrun as [->|(t & Ht & Hs & ->)];
      [apply advances_refl|].
    unfold advances. simpl. repeat split; try done; try lia.
    + by apply prefix_app_r.
    + by rewrite length_insert.
    + intros a ta Ha. destruct (decide (this = a)) as [<-|Hne].
      * rewrite list_lookup_insert_eq by by eapply lookup_lt_Some.
        eexists. split; [done|]. rewrite Ht in Ha. injection Ha as <-.
        by apply task_advances_finish.
      * exists ta. rewrite list_lookup_insert_ne by done.
        split; [done | apply task_advances_refl].
  - apply (call_counter_rel task_advances) in Hrun
      as (h' & -> & Hlen & Hrel).
    + unfold advances. simpl. repeat split; try done; lia.
    + apply task_advances_refl.
    + apply task_advances_trans.
    + intros t. destruct c; [apply task_advances_bump_effort
                            | apply task_advances_bump_errors].
  - rewrite event_track_emit. unfold HuhaEvent.new.
    destruct (truthy_string eventGroup); unfold advances; simpl;
      (repeat split; try done; try lia;
       [ by apply prefix_app_r
       | intros a t Ht; exists t;
         split; [done | apply task_advances_refl] ]).
Qed.

Lemma steps_advance s s' : rtc step s s' -> advances (snd s) (snd s').
Proof.
  intros Hrun. apply steps_prims in Hrun.
  induction Hrun as [w | w1 w2 w3 Hprim _ IH]; [apply advances_refl|].
  eapply advances_trans; [by apply prim_advances | exact IH].
Qed.

Lemma run_op_step op s s' : run_op op s = Some s' -> step s s'.
Proof.
  destruct s as [this w], s' as [this' w'], op; simpl; intros H.
  - destruct (parent_exists parentTask w) eqn:Hp; [|done].
    destruct (Huha.createTask _ _ _ _) as [[[a this1] w1]|] eqn:Hc; [|done].
    simpl in H. injection H as <- <-.
    eapply step_createTask; [|done].
    intros p ->. simpl in Hp. by apply bool_decide_eq_true in Hp.
  - destruct (Huha.createEvent _ _ _ _ _ _ _ _ _) as [[e this1] w1] eqn:He.
    injection H as <- <-. by eapply step_createEvent.
  - by eapply step_registerEvent.
  - destruct (Huha.abandonInProgressTasks _ _) as [w1|] eqn:Ha; [|done].
    simpl in H. injection H as <- <-. by apply step_abandonInProgressTasks.
  - destruct (call_terminal _ _ _) as [w1|] eqn:Ha; [|done].
    simpl in H. injection H as <- <-. by eapply step_terminal.
  - destruct (call_counter _ _) as [w1|] eqn:Ha; [|done].
    simpl in H. injection H as <- <-. by eapply step_counter.
Qed.

Lemma run_ops_steps ops s s' : run_ops ops s = Some s' -> rtc step s s'.
Proof.
  revert s. induction ops as [|op ops IH]; intros s H; simpl in H.
  - injection H as <-. apply rtc_refl.
  - destruct (run_op op s) as [s1|] eqn:Hop; [|done]. simpl in H.
    eapply rtc_l; [by eapply run_op_step | by apply IH].
Qed.

(** ** Runs with direct calls of [finish] *)

Lemma steps_moves s s' : rtc step s s' -> rtc move s s'.
Proof. apply rtc_subrel. intros x y. apply move_step. Qed.

(** [finish(status)], case by case. *)
Lemma finish_cases status this w w' :
  HuhaTask.finish status this w = Some w' ->
  w' = w
  \/ exists t, heap w !! this = Some t /\ task_status t = IN_PROGRESS
               /\ w' = finished status this t w.
Proof.
  intros H. destruct (heap w !! this) as [t|] eqn:Ht.
  - destruct (decide (task_status t = IN_PROGRESS)) as [Hs|Hs].
    + rewrite (finish_in_progress _ _ t) in H by done.
      injection H as <-. right. by exists t.
    + rewrite (finish_terminal _ _ t) in H by done.
      injection H as <-. by left.
  - unfold HuhaTask.finish in H. by rewrite Ht in H.
Qed.

Lemma finished_advances status this t w :
  heap w !! this = Some t ->
  task_status t = IN_PROGRESS ->
  advances w (finished status this t w).
Proof.
  intros Ht Hs. unfold advances. simpl. repeat split; try done; try lia.
  - by apply prefix_app_r.
  - by rewrite length_insert.
  - intros a ta Ha. destruct (decide (this = a)) as [<-|Hne].
    + rewrite list_lookup_insert_eq by by eapply lookup_lt_Some.
      eexists. split; [done|]. rewrite Ht in Ha. injection Ha as <-.
      by apply task_advances_finish.
    + exists ta. rewrite list_lookup_insert_ne by done.
      split; [done | apply task_advances_refl].
Qed.

Lemma move_advances s s' : move s s' -> advances (snd s) (snd s').
Proof.
  intros [s1 s2 Hstep | this w status task w' Hrun].
  - apply steps_advance. by apply rtc_once.
  - simpl. apply finish_cases in Hrun as [->|(t & Ht & Hs & ->)];
      [apply advances_refl | by apply finished_advances].
Qed.

Lemma moves_advance s s' : rtc move s s' -> advances (snd s) (snd s').
Proof.
  induction 1 as [s | s1 s2 s3 Hmove _ IH]; [apply advances_refl|].
  eapply advances_trans; [by apply move_advances | exact IH].
Qed.

(** ** Two sample runs *)

Lemma status_at (h : list HuhaTask) (l : list string) a st :
  task_status <$> h = l ->
  l !! a = Some st ->
  exists t, h !! a = Some t /\ task_status t = st.
Proof.
  intros <- H. rewrite list_lookup_fmap in H.
  destruct (h !! a) as [t|]; [|done]. injection H as <-. by exists t.
Qed.

Lemma three_run_statuses :
  (fun s => task_status <$> heap (snd s)) <$> three_run
  = Some ["Abandoned"; "Completed"; "In progress"; "In progress"].
Proof. vm_compute. reflexivity. Qed.

Lemma three_session_statuses :
  (fun s => task_status <$> heap (snd s)) <$> three_session
  = Some ["Abandoned"; "Completed"; "Paused"; "In progress"].
Proof. vm_compute. reflexivity. Qed.

Lemma three_run_steps :
  exists s,
    three_run = Some s
    /\ rtc step (three_tasks_registry, three_tasks_world) s
    /\ task_status <$> heap (snd s)
       = ["Abandoned"; "Completed"; "In progress"; "In progress"].
Proof.
  pose proof three_run_statuses as Hshape.
  destruct three_run as [s|] eqn:E; [|discriminate Hshape].
  exists s. split; [done|]. split; [by apply run_ops_steps in E|].
  simpl in Hshape. by injection Hshape.
Qed.

Lemma three_session_moves :
  exists s,
    three_session = Some s
    /\ rtc move (three_tasks_registry, three_tasks_world) s
    /\ task_status <$> heap (snd s)
       = ["Abandoned"; "Completed"; "Paused"; "In progress"].
Proof.
  pose proof three_session_statuses as Hshape.
  destruct three_run as [[this1 w1]|] eqn:E1; [|discriminate Hshape].
  cbn [mbind option_bind fst snd] in Hshape |- *.
  destruct (HuhaTask.finish "Paused" 2 w1) as [w2|] eqn:E2;
    [|discriminate Hshape].
  exists (this1, w2). split; [done|]. split.
  - eapply rtc_r; [apply steps_moves; by apply run_ops_steps in E1|].
    by eapply move_finish.
  - simpl in Hshape. by injection Hshape.
Qed.

Lemma three_tasks_coherent : coherent three_tasks_world.
Proof.
  intros a t Ha. destruct a as [|[|[|a]]]; simpl in Ha;
    [injection Ha as <-..|discriminate Ha].
  - by left.
  - right. split; [by left | by eexists].
  - by left.
Qed.

Lemma three_tasks_ended : ended three_tasks_world.
Proof.
  intros a t Ha Hs.
  destruct (three_tasks_coherent a t Ha) as [[Hip _]|[_ Hend]];
    [by destruct Hs | exact Hend].
Qed.

Lemma menu_run_lengths :
  (fun s => (length (huha_tasks (fst s)), length (huha_events (fst s))))
    <$> menu_run
  = Some (2, 2).
Proof. vm_compute. reflexivity. Qed.

Lemma menu_run_steps :
  exists s,
    menu_run = Some s
    /\ rtc step (menu_registry, blocked_page) s
    /\ length (huha_tasks (fst s)) = 2
    /\ length (huha_events (fst s)) = 2.
Proof.
  pose proof menu_run_lengths as Hshape.
  destruct menu_run as [s|] eqn:E; [|discriminate Hshape].
  exists s. split; [done|]. split; [by apply run_ops_steps in E|].
  simpl in Hshape. by injection Hshape.
Qed.

(** In any run of calls of the registry's methods and of the methods
    of its tasks, [complete()], [abandon()], [addInteraction()],
    [addError()] and [finish(status)] with any status, an object of the
    store is never removed and keeps its name, start, parent and
    tracking flags; its counters never decrease; and once it is no
    longer in progress, its status and end never change, whichever
    method is called. *)
Theorem run_tasks_advance (s s' : Huha * World) :
  rtc move s s' ->
  forall a t,
    heap (snd s) !! a = Some t ->
    exists t',
      heap (snd s') !! a = Some t'
      /\ task_name t' = task_name t
      /\ task_start t' = task_start t
      /\ task_parentTask t' = task_parentTask t
      /\ task_trackOnGoogleAnalytics t' = task_trackOnGoogleAnalytics t
      /\ task_trackOnIntercom t' = task_trackOnIntercom t
      /\ task_trackOnSegment t' = task_trackOnSegment t
      /\ (task_effort t <= task_effort t')%Z
      /\ (task_errors t <= task_errors t')%Z
      /\ (task_status t <> "In progress" ->
          task_status t' = task_status t /\ task_end t' = task_end t).
Proof.
  intros Hrun a t Ht.
  apply moves_advance in Hrun as (_&_&_&_&_&_&_&_&_&_&Hadv).
  destruct (Hadv a t Ht) as (t' & Ht' & Hta). by exists t'.
Qed.

(** On the registry of three tasks: after an interaction on "cart", an
    [abandon()] on the completed "checkout", [createTask("cart")] and
    [finish("Paused")] on "search", the first object is still the
    "cart" task started at 100 with an effort of at least 3, and
    "checkout" is still completed at 900. *)
Lemma run_tasks_advance_witness :
  exists s cart paid,
    three_session = Some s
    /\ heap (snd s) !! 0 = Some cart
    /\ task_name cart = "cart"
    /\ task_start cart = 100%Z
    /\ (3 <= task_effort cart)%Z
    /\ heap (snd s) !! 1 = Some paid
    /\ task_name paid = "checkout"
    /\ task_status paid = "Completed"
    /\ task_end paid = Some 900%Z.
Proof.
  destruct three_session_moves as (s & Hs & Hrun & _).
  destruct (run_tasks_advance _ s Hrun 0 cart_task eq_refl)
    as (cart & Hcart & Cname & Cstart & _ & _ & _ & _ & Ceffort & _).
  destruct (run_tasks_advance _ s Hrun 1 paid_task eq_refl)
    as (paid & Hpaid & Pname & _ & _ & _ & _ & _ & _ & _ & Pfrozen).
  destruct Pfrozen as [Pstatus Pend]; [discriminate|].
  exists s, cart, paid.
  split; [exact Hs|]. split; [exact Hcart|]. split; [exact Cname|].
  split; [exact Cstart|]. split; [exact Ceffort|]. split; [exact Hpaid|].
  split; [exact Pname|]. split; [exact Pstatus | exact Pend].
Defined.

(** ** The histories of a registry *)

Lemma step_histories this w this' w' :
  step (this, w) (this', w') ->
  huha_tasks this `prefix_of` huha_tasks this'
  /\ huha_events this `prefix_of` huha_events this'
  /\ registry_flags this' = registry_flags this.
Proof.
  intros Hstep.
  inversion Hstep as
    [ this0 w0 name parentTask a this1 w1 Hp Hrun
    | this0 w0 name object action section value task eventGroup e this1 w1 Hrun
    | this0 w0 capturedEvent dataset this1 w1 Hrun
    | this0 w0 w1 Hrun
    | this0 w0 c task w1 Hrun
    | this0 w0 c w1 Hrun
    | this0 w0 other name parentTask a other' w1 Hp Hrun ]; subst;
    try done.
  - destruct (createTask_result name parentTask this w)
      as (w1 & w2 & Hrun' & _).
    rewrite Hrun' in Hrun. injection Hrun as _ <- _.
    split; [by apply prefix_app_r | done].
  - unfold Huha.createEvent in Hrun.
    destruct (HuhaEvent.new _ _ _ _ _ _ _ _ w) as [e0 w0].
    injection Hrun as _ <- _.
    split; [done|]. split; [by apply prefix_app_r | done].
  - unfold Huha.registerEvent in Hrun.
    destruct (decide (Some capturedEvent = huhaTrigger dataset));
      [|by injection Hrun as <- <-].
    destruct (decide (huhaEvent dataset = Some "start")).
    + destruct (createTask_result (huhaTask dataset) None this w)
        as (w1 & w2 & Hrun' & _).
      rewrite Hrun' in Hrun. simpl in Hrun. injection Hrun as <- _.
      split; [by apply prefix_app_r | done].
    + destruct (Huha.getTask (huhaTask dataset) this w) as [task|];
        [|by injection Hrun as <- <-].
      repeat case_decide;
        try (by injection Hrun as <- <-);
        match type of Hrun with
        | (?call ≫= _) = _ =>
            destruct call as [w2|] eqn:Hcall; [|done];
            simpl in Hrun; by injection Hrun as <- <-
        end.
Qed.

Lemma move_histories s s' :
  move s s' ->
  huha_tasks (fst s) `prefix_of` huha_tasks (fst s')
  /\ huha_events (fst s) `prefix_of` huha_events (fst s')
  /\ registry_flags (fst s') = registry_flags (fst s).
Proof.
  intros [[this1 w1] [this2 w2] Hstep | this w status task w' Hrun].
  - by apply step_histories in Hstep.
  - done.
Qed.

(** In any run of calls of the registry's methods and of the methods
    of its tasks, the registry's [tasks] and [events] only grow at
    their end (nothing is removed or reordered), and its three tracking
    flags stay as its constructor set them. *)
Theorem run_histories_grow (s s' : Huha * World) :
  rtc move s s' ->
  huha_tasks (fst s) `prefix_of` huha_tasks (fst s')
  /\ huha_events (fst s) `prefix_of` huha_events (fst s')
  /\ huha_trackOnGoogleAnalytics (fst s')
     = huha_trackOnGoogleAnalytics (fst s)
  /\ huha_trackOnIntercom (fst s') = huha_trackOnIntercom (fst s)
  /\ huha_trackOnSegment (fst s') = huha_trackOnSegment (fst s).
Proof.
  induction 1 as [s | s1 s2 s3 Hmove _ IH]; [done|].
  apply move_histories in Hmove as (Ht & He & Hf).
  destruct IH as (Ht' & He' & Hg & Hi & Hs).
  split; [by etrans|]. split; [by etrans|].
  rewrite Hg, Hi, Hs.
  split; [exact (f_equal trackOnGoogleAnalytics Hf)|].
  split; [exact (f_equal trackOnIntercom Hf)
         | exact (f_equal trackOnSegment Hf)].
Qed.

(** The registry that holds task 0 and the event "Open menu", after
    [createTask("checkout")], an event and the sweep: it holds two
    tasks and two events, the first of each being the one it held, and
    still tracks on Google Analytics and not on Intercom. *)
Lemma run_histories_grow_witness :
  exists s,
    menu_run = Some s
    /\ length (huha_tasks (fst s)) = 2
    /\ length (huha_events (fst s)) = 2
    /\ [0] `prefix_of` huha_tasks (fst s)
    /\ [opened_menu] `prefix_of` huha_events (fst s)
    /\ huha_trackOnGoogleAnalytics (fst s) = true
    /\ huha_trackOnIntercom (fst s) = false
    /\ huha_trackOnSegment (fst s) = true.
Proof.
  destruct menu_run_steps as (s & Hs & Hrun & Hnt & Hne).
  exists s. split; [exact Hs|]. split; [exact Hnt|]. split; [exact Hne|].
  exact (run_histories_grow (menu_registry, blocked_page) s
           (steps_moves _ _ Hrun)).
Defined.

(** ** Status and end *)

Lemma prim_coherent w w' : prim w w' -> coherent w -> coherent w'.
Proof.
  intros Hprim Hco.
  destruct Hprim as
    [ name parentTask options w Hp | c this w w' Hrun | c w w' Hrun
    | name object action section value task eventGroup options w ].
  - intros a t Ha. simpl in Ha.
    apply lookup_app_Some in Ha as [Ha | [_ Ha]]; [by eapply Hco|].
    apply list_lookup_singleton_Some in Ha as [_ <-]. by left.
  - apply call_terminal_cases in Hrun as [->|(t & Ht & Hs & ->)]; [done|].
    intros a ta Ha. simpl in Ha.
    destruct (decide (this = a)) as [<-|Hne].
    + rewrite list_lookup_insert_eq in Ha by by eapply lookup_lt_Some.
      injection Ha as <-. right. simpl. split; [|by eexists].
      destruct c; [by left | by right].
    + rewrite list_lookup_insert_ne in Ha by done. by eapply Hco.
  - apply (call_counter_rel
             (fun t t' => task_status t' = task_status t
                          /\ task_end t' = task_end t)) in Hrun
      as (h' & -> & Hlen & Hrel).
    + intros a t' Ha. simpl in Ha.
      assert (Hlt : a < length (heap w)).
      { rewrite <- Hlen. by eapply lookup_lt_Some. }
      destruct (lookup_lt_is_Some_2 _ _ Hlt) as [t Ht].
      destruct (Hrel a t Ht) as (t2 & Ht2 & Hs & He).
      rewrite Ha in Ht2. injection Ht2 as <-.
      specialize (Hco a t Ht). unfold status_coherent in *.
      by rewrite Hs, He.
    + done.
    + intros t1 t2 t3 [? ?] [? ?]. split; congruence.
    + intros t. by destruct c.
  - rewrite event_track_emit. unfold HuhaEvent.new.
    by destruct (truthy_string eventGroup).
Qed.

Lemma finished_ended status this t w :
  heap w !! this = Some t -> ended w -> ended (finished status this t w).
Proof.
  intros Ht He a ta Ha Hs. simpl in Ha.
  destruct (decide (this = a)) as [<-|Hne].
  - rewrite list_lookup_insert_eq in Ha by by eapply lookup_lt_Some.
    injection Ha as <-. by eexists.
  - rewrite list_lookup_insert_ne in Ha by done. by eapply He.
Qed.

Lemma prim_ended w w' : prim w w' -> ended w -> ended w'.
Proof.
  intros Hprim He.
  destruct Hprim as
    [ name parentTask options w Hp | c this w w' Hrun | c w w' Hrun
    | name object action section value task eventGroup options w ].
  - intros a t Ha Hs. simpl in Ha.
    apply lookup_app_Some in Ha as [Ha | [_ Ha]]; [by eapply He|].
    apply list_lookup_singleton_Some in Ha as [_ <-]. by destruct Hs.
  - apply call_terminal_cases in Hrun as [->|(t & Ht & Hs & ->)]; [done|].
    by apply finished_ended.
  - apply (call_counter_rel
             (fun t t' => task_status t' = task_status t
                          /\ task_end t' = task_end t)) in Hrun
      as (h' & -> & Hlen & Hrel).
    + intros a t' Ha Hs. simpl in Ha.
      assert (Hlt : a < length (heap w)).
      { rewrite <- Hlen. by eapply lookup_lt_Some. }
      destruct (lookup_lt_is_Some_2 _ _ Hlt) as [t Ht].
      destruct (Hrel a t Ht) as (t2 & Ht2 & Hst & Hen).
      rewrite Ha in Ht2. injection Ht2 as <-.
      rewrite Hen. apply (He a t Ht). by rewrite <- Hst.
    + done.
    + intros t1 t2 t3 [? ?] [? ?]. split; congruence.
    + intros t. by destruct c.
  - rewrite event_track_emit. unfold HuhaEvent.new.
    by destruct (truthy_string eventGroup).
Qed.

Lemma move_ended s s' : move s s' -> ended (snd s) -> ended (snd s').
Proof.
  intros [s1 s2 Hstep | this w status task w' Hrun] He.
  - apply step_prims in Hstep.
    induction Hstep as [w | w1 w2 w3 Hprim _ IH]; [exact He|].
    apply IH. by eapply prim_ended.
  - simpl in *. apply finish_cases in Hrun as [->|(t & Ht & Hs & ->)];
      [done | by apply finished_ended].
Qed.

(** In any run of calls of the registry's methods and of the methods
    of its tasks, [finish(status)] with any status included, that
    starts from a store in which every task that is not in progress has
    an end, every task that is not in progress at the end of the run
    has an end: [end] is null only on tasks in progress.  In a run that
    finishes tasks only through [complete()], [abandon()], [createTask]
    and the listeners, and starts from a store in which every task is
    either in progress with no end or completed or abandoned with an
    end, this holds of every task at the end of the run too: the status
    is one of the three constants, and [end] is set exactly when the
    task is no longer in progress. *)
Theorem run_keeps_status_coherent (s s' : Huha * World) :
  (rtc move s s' ->
   (forall a t, heap (snd s) !! a = Some t ->
      task_status t <> "In progress" -> is_Some (task_end t)) ->
   forall a t,
     heap (snd s') !! a = Some t ->
     task_status t <> "In progress" -> is_Some (task_end t))
  /\ (rtc step s s' ->
      (forall a t, heap (snd s) !! a = Some t ->
         (task_status t = "In progress" /\ task_end t = None)
         \/ ((task_status t = "Completed" \/ task_status t = "Abandoned")
             /\ is_Some (task_end t))) ->
      forall a t,
        heap (snd s') !! a = Some t ->
        (task_status t = "In progress" /\ task_end t = None)
        \/ ((task_status t = "Completed" \/ task_status t = "Abandoned")
            /\ is_Some (task_end t))).
Proof.
  split.
  - intros Hrun He.
    change (ended (snd s')). change (ended (snd s)) in He.
    induction Hrun as [s | s1 s2 s3 Hmove _ IH]; [exact He|].
    apply IH. by eapply move_ended.
  - intros Hrun Hco.
    change (coherent (snd s')). change (coherent (snd s)) in Hco.
    apply steps_prims in Hrun.
    induction Hrun as [w | w1 w2 w3 Hprim _ IH]; [exact Hco|].
    apply IH. by eapply prim_coherent.
Qed.

(** On the registry of three tasks: after the run that ends with
    [finish("Paused")] on "search", that task has the status "Paused"
    and an end; after the run without it, the old "cart" task is
    abandoned, with an end. *)
Lemma run_keeps_status_coherent_witness :
  (exists s paused,
     three_session = Some s
     /\ heap (snd s) !! 2 = Some paused
     /\ task_status paused = "Paused"
     /\ is_Some (task_end paused))
  /\ (exists s old,
       three_run = Some s
       /\ heap (snd s) !! 0 = Some old
       /\ task_status old = "Abandoned"
       /\ is_Some (task_end old)).
Proof.
  split.
  - destruct three_session_moves as (s & Hs & Hrun & Hst).
    destruct (status_at _ _ 2 "Paused" Hst eq_refl) as (t & Ht & Hpaused).
    exists s, t. split; [exact Hs|]. split; [exact Ht|].
    split; [exact Hpaused|].
    apply (proj1 (run_keeps_status_coherent _ s) Hrun) with (a := 2).
    + exact three_tasks_ended.
    + exact Ht.
    + rewrite Hpaused. discriminate.
  - destruct three_run_steps as (s & Hs & Hrun & Hst).
    destruct (status_at _ _ 0 "Abandoned" Hst eq_refl) as (t & Ht & Hab).
    exists s, t. split; [exact Hs|]. split; [exact Ht|].
    split; [exact Hab|].
    destruct (proj2 (run_keeps_status_coherent _ s) Hrun
                three_tasks_coherent 0 t Ht) as [[Hip _]|[_ Hend]].
    + rewrite Hab in Hip. discriminate Hip.
    + exact Hend.
Defined.

(** ** Counters along the hierarchy *)

Lemma call_counter_valid c w w' :
  call_counter c w = Some w' -> call_target c < length (heap w).
Proof.
  intros Hrun. destruct c as [a|a]; simpl in *.
  - unfold HuhaTask.addInteraction in Hrun.
    destruct (length (heap w)) as [|n] eqn:Hlen; [done|].
    simpl in Hrun. destruct (heap w !! a) as [t|] eqn:Ht; [|done].
    rewrite <- Hlen. by eapply lookup_lt_Some.
  - unfold HuhaTask.addError in Hrun.
    destruct (length (heap w)) as [|n] eqn:Hlen; [done|].
    simpl in Hrun. destruct (heap w !! a) as [t|] eqn:Ht; [|done].
    rewrite <- Hlen. by eapply lookup_lt_Some.
Qed.

Lemma reaches_dec h a b :
  parents_older h -> reaches h a b \/ ~ reaches h a b.
Proof.
  intros Hwf. revert b.
  induction a as [a IH] using lt_wf_ind. intros b.
  destruct (h !! a) as [t|] eqn:Ht.
  - destruct (decide (a = b)) as [<-|Hne]; [left; by eapply reaches_self|].
    destruct (task_parentTask t) as [p|] eqn:Hp.
    + destruct (IH p (Hwf a t p Ht Hp) b) as [Hr|Hn].
      * left. by eapply reaches_parent.
      * right. intros Hr. apply Hn.
        inversion Hr as [|a' t' p' b' Ha' Hp' Hr']; subst; [done|].
        congruence.
    + right. intros Hr.
      inversion Hr as [|a' t' p' b' Ha' Hp' Hr']; subst; [done|].
      congruence.
  - right. intros Hr. apply reaches_source in Hr as [t Ht']. congruence.
Qed.

Lemma counters_ok_transfer h h' :
  (forall a t', h' !! a = Some t' ->
     exists t, h !! a = Some t
       /\ task_effort t' = task_effort t
       /\ task_errors t' = task_errors t
       /\ task_parentTask t' = task_parentTask t) ->
  counters_ok h -> counters_ok h'.
Proof.
  intros Hsame Hok a t' Ha.
  destruct (Hsame a t' Ha) as (t & Ht & He & Hr & Hp).
  destruct (Hok a t Ht) as (He0 & Hr0 & Hpar).
  split; [lia|]. split; [lia|].
  intros p tp' Hpp Htp'.
  destruct (Hsame p tp' Htp') as (tp & Htp & Hep & Hrp & _).
  destruct (Hpar p tp) as [? ?]; [congruence | done | lia].
Qed.

Lemma prim_counters_ok w w' :
  prim w w' -> parents_older (heap w) ->
  counters_ok (heap w) -> counters_ok (heap w').
Proof.
  intros Hprim Hwf Hok.
  destruct Hprim as
    [ name parentTask options w Hp | c this w w' Hrun | c w w' Hrun
    | name object action section value task eventGroup options w ].
  - intros a t Ha. simpl in Ha.
    apply lookup_app_Some in Ha as [Ha | [Hge Ha]].
    + destruct (Hok a t Ha) as (He0 & Hr0 & Hpar).
      split; [done|]. split; [done|].
      intros p tp Hpp Htp. simpl in Htp.
      apply (Hpar p tp Hpp).
      rewrite lookup_app_l in Htp; [done|].
      pose proof (Hwf a t p Ha Hpp). apply lookup_lt_Some in Ha. lia.
    + apply list_lookup_singleton_Some in Ha as [_ <-]. simpl.
      split; [done|]. split; [done|].
      intros p tp Hpp Htp. simpl in Htp.
      rewrite lookup_app_l in Htp by by apply Hp.
      destruct (Hok p tp Htp) as (? & ? & _). done.
  - apply call_terminal_cases in Hrun as [->|(t & Ht & Hs & ->)]; [done|].
    eapply counters_ok_transfer; [|exact Hok].
    intros a ta' Ha. simpl in Ha.
    destruct (decide (this = a)) as [<-|Hne].
    + rewrite list_lookup_insert_eq in Ha by by eapply lookup_lt_Some.
      injection Ha as <-. by exists t.
    + rewrite list_lookup_insert_ne in Ha by done. by exists ta'.
  - pose proof (call_counter_valid _ _ _ Hrun) as Hvalid.
    destruct (call_counter_spec c w Hwf Hvalid)
      as (h' & Hrun' & Hlen & Hsp & Hin & Hout).
    rewrite Hrun' in Hrun. injection Hrun as <-. simpl.
    assert (Hcase : forall b tb', h' !! b = Some tb' ->
              exists tb, heap w !! b = Some tb
                /\ (tb' = tb \/ (reaches (heap w) (call_target c) b
                                 /\ tb' = bump_of c tb))).
    { intros b tb' Hb.
      destruct (reaches_dec (heap w) (call_target c) b Hwf) as [Hr|Hn].
      - rewrite <- (Hin b Hr) in Hb.
        destruct (heap w !! b) as [tb|]; [|done].
        injection Hb as <-. exists tb. split; [done|]. by right.
      - rewrite (Hout b Hn) in Hb. exists tb'. split; [done | by left]. }
    intros a ta' Ha.
    destruct (Hcase a ta' Ha) as (ta & Hta & Hta').
    destruct (Hok a ta Hta) as (He0 & Hr0 & Hpar).
    assert (Hbump : forall t,
              (task_effort t <= task_effort (bump_of c t))%Z
              /\ (task_errors t <= task_errors (bump_of c t))%Z
              /\ task_parentTask (bump_of c t) = task_parentTask t).
    { intros t. destruct c; simpl; repeat split; lia. }
    split; [|split].
    + destruct Hta' as [->|[_ ->]]; [done|].
      destruct (Hbump ta) as (? & _). lia.
    + destruct Hta' as [->|[_ ->]]; [done|].
      destruct (Hbump ta) as (_ & ? & _). lia.
    + intros p tp' Hpp Htp'.
      destruct (Hcase p tp' Htp') as (tp & Htp & Htp'').
      assert (Hpar' : task_parentTask ta = Some p).
      { destruct Hta' as [->|[_ ->]]; [done|].
        destruct (Hbump ta) as (_ & _ & <-). done. }
      destruct (Hpar p tp Hpar' Htp) as [Hle1 Hle2].
      destruct Hta' as [->|[Hra ->]].
      * destruct Htp'' as [->|[_ ->]]; [done|].
        destruct (Hbump tp) as (? & ? & _). lia.
      * assert (Hrp : reaches (heap w) (call_target c) p).
        { eapply reaches_trans; [exact Hra|].
          eapply reaches_parent; [done | done | by eapply reaches_self]. }
        rewrite <- (Hin p Hrp), Htp in Htp'. injection Htp' as <-.
        destruct c; simpl; lia.
  - rewrite event_track_emit. unfold HuhaEvent.new.
    by destruct (truthy_string eventGroup).
Qed.

Lemma counters_ok_reaches h a b ta tb :
  counters_ok h ->
  reaches h a b -> h !! a = Some ta -> h !! b = Some tb ->
  (task_effort ta <= task_effort tb)%Z
  /\ (task_errors ta <= task_errors tb)%Z.
Proof.
  intros Hok Hr. revert ta.
  induction Hr as [a t Ha | a t p b Ha Hp Hr IH]; intros ta Hta Htb.
  - rewrite Hta in Htb. injection Htb as <-. lia.
  - rewrite Ha in Hta. injection Hta as <-.
    destruct (reaches_source _ _ _ Hr) as [tp Htp].
    destruct (Hok a t Ha) as (_ & _ & Hpar).
    destruct (Hpar p tp Hp Htp) as [? ?].
    destruct (IH tp Htp Htb) as [? ?]. lia.
Qed.

(** In any run that starts from a store with non-negative counters in
    which no task exceeds its parent (an empty store, for one), every
    counter stays non-negative and the effort and the errors of a task
    never exceed those of any of its ancestors. *)
Theorem run_keeps_counters_ordered (s s' : Huha * World) :
  rtc step s s' ->
  parents_older (heap (snd s)) ->
  counters_ok (heap (snd s)) ->
  forall a b ta tb,
    reaches (heap (snd s')) a b ->
    heap (snd s') !! a = Some ta ->
    heap (snd s') !! b = Some tb ->
    (0 <= task_effort ta <= task_effort tb)%Z
    /\ (0 <= task_errors ta <= task_errors tb)%Z.
Proof.
  intros Hrun Hwf Hok. apply steps_prims in Hrun.
  destruct (prims_invariant (fun w => counters_ok (heap w))
              prim_counters_ok _ _ Hrun Hwf Hok) as [_ Hok'].
  intros a b ta tb Hr Ha Hb.
  destruct (counters_ok_reaches _ _ _ _ _ Hok' Hr Ha Hb) as [? ?].
  destruct (Hok' a ta Ha) as (? & ? & _). lia.
Qed.

Lemma signup_session_parents :
  (fun s => task_parentTask <$> heap (snd s)) <$> signup_session = Some [None; Some 0].
Proof. vm_compute. reflexivity. Qed.

Lemma signup_session_run :
  exists s, signup_session = Some s /\ rtc step fresh_registry s.
Proof.
  pose proof signup_session_parents as Hshape.
  destruct signup_session as [s|] eqn:E; [|discriminate Hshape].
  exists s. split; [done|]. by apply run_ops_steps in E.
Qed.

Lemma signup_session_heap s :
  signup_session = Some s ->
  exists parent child,
    heap (snd s) = [parent; child]
    /\ task_parentTask child = Some 0.
Proof.
  intros Hs. pose proof signup_session_parents as Hshape.
  rewrite Hs in Hshape. simpl in Hshape. injection Hshape as Hshape.
  clear Hs.
  destruct (heap (snd s)) as [|parent [|child [|? ?]]];
    try discriminate Hshape.
  exists parent, child. split; [done|]. by injection Hshape.
Qed.

(** The "signup" session: the child "signup.step1" against its parent. *)
Lemma run_keeps_counters_ordered_witness :
  exists s parent child,
    signup_session = Some s
    /\ heap (snd s) = [parent; child]
    /\ (0 <= task_effort child <= task_effort parent)%Z
    /\ (0 <= task_errors child <= task_errors parent)%Z.
Proof.
  destruct signup_session_run as (s & Hs & Hrun).
  destruct (signup_session_heap s Hs) as (parent & child & Hheap & Hp).
  exists s, parent, child. split; [exact Hs|]. split; [exact Hheap|].
  apply (run_keeps_counters_ordered fresh_registry s Hrun) with 1 0.
  - intros a t p Ha. discriminate Ha.
  - intros a t Ha. discriminate Ha.
  - rewrite Hheap.
    eapply reaches_parent; [reflexivity | exact Hp |].
    by eapply reaches_self.
  - by rewrite Hheap.
  - by rewrite Hheap.
Defined.

(** ** Elapsed time *)

Lemma prim_clocked w w' : prim w w' -> clocked w -> clocked w'.
Proof.
  intros Hprim Hcl.
  destruct Hprim as
    [ name parentTask options w Hp | c this w w' Hrun | c w w' Hrun
    | name object action section value task eventGroup options w ].
  - intros a t Ha. simpl in Ha.
    apply lookup_app_Some in Ha as [Ha | [_ Ha]].
    + destruct (Hcl a t Ha) as (i & Hi & Hst & Hen).
      exists i. simpl. split; [lia|]. split; [done|].
      intros e He. destruct (Hen e He) as (j & Hj & ->).
      exists j. split; [lia | done].
    + apply list_lookup_singleton_Some in Ha as [_ <-].
      exists (clock_reads w). simpl. split; [lia|]. split; [done|]. done.
  - apply call_terminal_cases in Hrun as [->|(t & Ht & Hs & ->)]; [done|].
    intros a ta Ha. simpl in Ha.
    destruct (decide (this = a)) as [<-|Hne].
    + rewrite list_lookup_insert_eq in Ha by by eapply lookup_lt_Some.
      injection Ha as <-.
      destruct (Hcl this t Ht) as (i & Hi & Hst & _).
      exists i. simpl. split; [lia|]. split; [done|].
      intros e [= <-]. exists (clock_reads w). split; [lia | done].
    + rewrite list_lookup_insert_ne in Ha by done.
      destruct (Hcl a ta Ha) as (i & Hi & Hst & Hen).
      exists i. simpl. split; [lia|]. split; [done|].
      intros e He. destruct (Hen e He) as (j & Hj & ->).
      exists j. split; [lia | done].
  - apply (call_counter_rel
             (fun t t' => task_start t' = task_start t
                          /\ task_end t' = task_end t)) in Hrun
      as (h' & -> & Hlen & Hrel).
    + intros a t' Ha. simpl in Ha.
      assert (Hlt : a < length (heap w)).
      { rewrite <- Hlen. by eapply lookup_lt_Some. }
      destruct (lookup_lt_is_Some_2 _ _ Hlt) as [t Ht].
      destruct (Hrel a t Ht) as (t2 & Ht2 & Hs & He).
      rewrite Ha in Ht2. injection Ht2 as <-.
      destruct (Hcl a t Ht) as (i & Hi & Hst & Hen).
      exists i. simpl. split; [done|]. split; [congruence|].
      intros e Hee. apply Hen. congruence.
    + done.
    + intros t1 t2 t3 [? ?] [? ?]. split; congruence.
    + intros t. by destruct c.
  - rewrite event_track_emit. unfold HuhaEvent.new.
    by destruct (truthy_string eventGroup).
Qed.

(** In any run that starts from a store whose timestamps are readings
    of the clock, taken in order (an empty store, for one), and with a
    clock that never goes back: the end of a task is never before its
    start, and its [time] is never negative. *)
Theorem run_time_nonnegative (s s' : Huha * World) :
  rtc step s s' ->
  clocked (snd s) ->
  monotone (clock (snd s)) ->
  forall a t,
    heap (snd s') !! a = Some t ->
    (forall e, task_end t = Some e -> (task_start t <= e)%Z)
    /\ (0 <= HuhaTask.time t)%Z.
Proof.
  intros Hrun Hcl Hmono.
  pose proof (steps_advance _ _ Hrun) as (Hclock & _).
  apply steps_prims in Hrun.
  assert (Hcl' : clocked (snd s')).
  { clear Hclock Hmono.
    induction Hrun as [w | w1 w2 w3 Hprim _ IH]; [done|].
    apply IH. by eapply prim_clocked. }
  intros a t Ha. destruct (Hcl' a t Ha) as (i & Hi & Hst & Hen).
  assert (Hle : forall e, task_end t = Some e -> (task_start t <= e)%Z).
  { intros e He. destruct (Hen e He) as (j & Hj & ->).
    rewrite Hst, Hclock. apply Hmono. lia. }
  split; [exact Hle|]. rewrite time_spec.
  destruct (task_end t) as [e|]; [|done].
  specialize (Hle e eq_refl). case_decide; lia.
Qed.

Lemma sample_clock_monotone : monotone (clock sample_world).
Proof. intros i j Hij. simpl. lia. Qed.

Lemma run_time_nonnegative_witness :
  exists s parent child,
    signup_session = Some s
    /\ heap (snd s) = [parent; child]
    /\ (0 <= HuhaTask.time parent)%Z.
Proof.
  destruct signup_session_run as (s & Hs & Hrun).
  destruct (signup_session_heap s Hs) as (parent & child & Hheap & Hp).
  exists s, parent, child. split; [exact Hs|]. split; [exact Hheap|].
  refine (proj2 (run_time_nonnegative fresh_registry s Hrun _
                   sample_clock_monotone 0 parent _)).
  - intros a t Ha. discriminate Ha.
  - by rewrite Hheap.
Defined.

(** ** What a counter call leaves alone *)

(** A call of [addInteraction()] or [addError()] on a task of a well
    formed store changes nothing but the store: no sink is called, no
    clock is read, [DEFAULTS] is as before.  In the store, every object
    that is neither the task nor one of its ancestors is untouched, and
    no object changes its status, its end or the other counter. *)
Theorem counter_call_frame (c : CounterCall) (w : World) :
  parents_older (heap w) ->
  call_target c < length (heap w) ->
  exists w',
    call_counter c w = Some w'
    /\ w' = set_heap (heap w') w
    /\ (forall b, ~ reaches (heap w) (call_target c) b ->
        heap w' !! b = heap w !! b)
    /\ (forall b t, heap w !! b = Some t ->
        exists t',
          heap w' !! b = Some t'
          /\ task_status t' = task_status t
          /\ task_end t' = task_end t
          /\ match c with
             | CallAddInteraction _ => task_errors t' = task_errors t
             | CallAddError _ => task_effort t' = task_effort t
             end).
Proof.
  intros Hwf Hvalid.
  destruct (call_counter_spec c w Hwf Hvalid)
    as (h' & Hrun & Hlen & Hsp & Hin & Hout).
  exists (set_heap h' w). split; [done|]. split; [done|].
  split; [exact Hout|].
  apply (call_counter_rel
           (fun t t' => task_status t' = task_status t
                        /\ task_end t' = task_end t
                        /\ match c with
                           | CallAddInteraction _ =>
                               task_errors t' = task_errors t
                           | CallAddError _ =>
                               task_effort t' = task_effort t
                           end)) in Hrun as (h2 & Heq & _ & Hrel).
  - apply (f_equal heap) in Heq. simpl in Heq. subst h2. exact Hrel.
  - by destruct c.
  - intros t1 t2 t3 (? & ? & ?) (? & ? & ?).
    destruct c; repeat split; congruence.
  - intros t. by destruct c.
Qed.

(** An interaction on "signup.step1": nothing is sent, and the parent
    "signup" keeps its status and its errors. *)
Lemma counter_call_frame_witness :
  exists w' parent,
    call_counter (CallAddInteraction 1) signup_world = Some w'
    /\ log w' = log signup_world
    /\ heap w' !! 0 = Some parent
    /\ task_status parent = COMPLETED
    /\ task_errors parent = 0%Z.
Proof.
  destruct (counter_call_frame (CallAddInteraction 1) signup_world
              signup_world_parents_older)
    as (w' & Hrun & Heq & _ & Hrel); [simpl; lia|].
  destruct (Hrel 0 signup_task eq_refl) as (parent & Hp & Hs & _ & He).
  exists w', parent. split; [exact Hrun|].
  split; [by rewrite Heq|]. split; [exact Hp|].
  split; [exact Hs | exact He].
Defined.

(** ** Looking a task up *)

Lemma find_ext {A} (f g : A -> bool) l :
  (forall x, x ∈ l -> f x = g x) -> List.find f l = List.find g l.
Proof.
  induction l as [|x l IH]; intros H; [done|].
  simpl. rewrite (H x) by by left.
  destruct (g x); [done|]. apply IH. intros y Hy. apply H. by right.
Qed.

Lemma find_none_iff {A} (f : A -> bool) l :
  (forall x, x ∈ l -> f x = false) -> List.find f l = None.
Proof.
  induction l as [|x l IH]; intros H; [done|].
  simpl. rewrite (H x) by by left. apply IH. intros y Hy. apply H. by right.
Qed.

Lemma getTask_after_terminal name this w a c w' :
  tasks_ok this w ->
  Huha.getTask name this w = Some a ->
  call_terminal c a w = Some w' ->
  Huha.getTask name this w' = None
  /\ forall name', name' <> name ->
       Huha.getTask name' this w' = Huha.getTask name' this w.
Proof.
  intros (Hnd & Hvalid & Hone) Hget Hrun.
  pose proof Hget as Hfind. unfold Huha.getTask in Hfind.
  apply List.find_some in Hfind as [_ Hpa].
  destruct (getTask_Some _ _ _ _ Hget) as (Ha & t & Ht & Hn & Hs).
  rewrite call_terminal_finish, (finish_in_progress _ _ t) in Hrun by done.
  injection Hrun as <-.
  assert (Hother : forall b nm, b <> a ->
            Huha.named_in_progress (finished (terminal_status c) a t w) nm b
            = Huha.named_in_progress w nm b).
  { intros b nm Hb. apply named_in_progress_same_lookup. simpl.
    by rewrite list_lookup_insert_ne. }
  assert (Hself : forall nm,
            Huha.named_in_progress (finished (terminal_status c) a t w) nm a
            = false).
  { intros nm. unfold Huha.named_in_progress, Huha.in_progress.
    rewrite finished_lookup by done. simpl.
    rewrite (bool_decide_eq_false_2 (terminal_status c = IN_PROGRESS))
      by apply terminal_status_not_in_progress.
    apply andb_false_r. }
  split.
  - unfold Huha.getTask. apply find_none_iff. intros b Hb.
    destruct (decide (b = a)) as [->|Hne]; [apply Hself|].
    rewrite Hother by done.
    destruct (Huha.named_in_progress w name b) eqn:Hpb; [|done].
    apply list_elem_of_lookup in Hb as [i Hi].
    apply list_elem_of_lookup in Ha as [j Hj].
    specialize (Hone name i j b a Hi Hj Hpb Hpa). subst j. congruence.
  - intros name' Hname. unfold Huha.getTask. apply find_ext.
    intros b Hb. destruct (decide (b = a)) as [->|Hne].
    + rewrite Hself. symmetry.
      unfold Huha.named_in_progress. rewrite Ht.
      rewrite (bool_decide_eq_false_2 (task_name t = name')) by congruence.
      done.
    + by apply Hother.
Qed.

Lemma find_snoc_false {A} (f : A -> bool) l x :
  f x = false -> List.find f (l ++ [x]) = List.find f l.
Proof.
  intros Hx. induction l as [|y l IH]; simpl; [by rewrite Hx|].
  by destruct (f y).
Qed.

Lemma createTask_other_names name parentTask this w a this' w' name' :
  tasks_ok this w ->
  Huha.createTask name parentTask this w = Some (a, this', w') ->
  name' <> name ->
  Huha.getTask name' this' w' = Huha.getTask name' this w.
Proof.
  intros (Hnd & Hvalid & Hone) Hrun Hname.
  destruct (createTask_result name parentTask this w)
    as (w1 & w2 & Hrun' & Hnone & Hsome & Hlen & Hheap & _).
  rewrite Hrun' in Hrun. injection Hrun as <- <- <-.
  unfold Huha.getTask. simpl. rewrite find_snoc_false.
  - apply find_ext. intros b Hb.
    rewrite Forall_forall in Hvalid. specialize (Hvalid b Hb).
    unfold Huha.named_in_progress, Huha.in_progress.
    rewrite Hheap, lookup_app_l by lia.
    destruct (Huha.getTask name this w) as [e|] eqn:He;
      [|by rewrite Hnone].
    destruct (getTask_Some _ _ _ _ He) as (_ & te & Hte & Hn & _).
    rewrite (Hsome e te eq_refl Hte). simpl.
    destruct (decide (e = b)) as [<-|Hne].
    + rewrite list_lookup_insert_eq by by eapply lookup_lt_Some.
      rewrite Hte. simpl.
      rewrite (bool_decide_eq_false_2 (task_name te = name'))
        by congruence.
      done.
    + by rewrite list_lookup_insert_ne.
  - unfold Huha.named_in_progress.
    rewrite Hheap, <- Hlen, lookup_app_r by done.
    rewrite Nat.sub_diag. simpl.
    by rewrite (bool_decide_eq_false_2 (name = name')).
Qed.

(** On a registry whose tasks are distinct objects, one in progress
    per name: after [createTask(name)] returns a task, [getTask(name)]
    returns that task; once the task is completed or abandoned,
    [getTask(name)] is undefined; and neither call changes what
    [getTask] returns for any other name. *)
Theorem getTask_follows_lifecycle (name : string)
    (parentTask : option addr) (c : TerminalCall) (this : Huha)
    (w : World) :
  tasks_ok this w ->
  exists a this' w' w'',
    Huha.createTask name parentTask this w = Some (a, this', w')
    /\ Huha.getTask name this' w' = Some a
    /\ call_terminal c a w' = Some w''
    /\ Huha.getTask name this' w'' = None
    /\ forall name', name' <> name ->
         Huha.getTask name' this' w' = Huha.getTask name' this w
         /\ Huha.getTask name' this' w'' = Huha.getTask name' this w.
Proof.
  intros Hok.
  destruct (createTask_spec name parentTask this w Hok)
    as (w1 & t & w' & _ & _ & Hrun & Hlen & _ & Hheap & _ & Hs & _ & _
        & Hok' & Hget).
  assert (Ha : heap w' !! length (heap w) = Some t).
  { rewrite Hheap, <- Hlen, lookup_app_r by done.
    by rewrite Nat.sub_diag. }
  set (w'' := finished (terminal_status c) (length (heap w)) t w').
  assert (Hfin : call_terminal c (length (heap w)) w' = Some w'').
  { rewrite call_terminal_finish. by apply finish_in_progress. }
  destruct (getTask_after_terminal name _ w' _ c w'' Hok' Hget Hfin)
    as [Hnone Hsame].
  exists (length (heap w)), (push_task (length (heap w)) this), w', w''.
  split; [done|]. split; [done|]. split; [done|]. split; [done|].
  intros name' Hname.
  pose proof (createTask_other_names _ _ _ _ _ _ _ name' Hok Hrun Hname)
    as Hother.
  split; [done|]. by rewrite Hsame.
Qed.

Lemma three_tasks_ok : tasks_ok three_tasks_registry three_tasks_world.
Proof.
  split; [simpl; compute_done|]. split.
  - simpl. repeat constructor.
  - intros name i j a b Hi Hj Ha Hb.
    apply named_in_progress_true in Ha as (ta & Hta & Hna & _).
    apply named_in_progress_true in Hb as (tb & Htb & Hnb & _).
    destruct i as [|[|[|i]]], j as [|[|[|j]]]; simpl in Hi, Hj;
      try discriminate Hi; try discriminate Hj; try done;
      injection Hi as <-; injection Hj as <-;
      simpl in Hta, Htb; injection Hta as <-; injection Htb as <-;
      subst name; discriminate Hnb.
Qed.

(** A second "cart" task on the registry of three tasks, then
    completed: "search" is still found. *)
Lemma getTask_follows_lifecycle_witness :
  exists a this' w' w'',
    Huha.createTask "cart" None three_tasks_registry three_tasks_world
    = Some (a, this', w')
    /\ Huha.getTask "cart" this' w' = Some a
    /\ call_terminal CallComplete a w' = Some w''
    /\ Huha.getTask "cart" this' w'' = None
    /\ Huha.getTask "search" this' w'' = Some 2.
Proof.
  destruct (getTask_follows_lifecycle "cart" None CallComplete
              three_tasks_registry three_tasks_world three_tasks_ok)
    as (a & this' & w' & w'' & Hrun & Hget & Hfin & Hnone & Hother).
  exists a, this', w', w''.
  split; [exact Hrun|]. split; [exact Hget|]. split; [exact Hfin|].
  split; [exact Hnone|].
  destruct (Hother "search") as [_ ->]; [discriminate | reflexivity].
Defined.

(** ** What [createEvent] returns *)

(** [createEvent] builds the event from its arguments, with the group
    it was given or, when that is absent or empty, the next token of
    the generator, tracked on Google Analytics and on Segment as the
    registry is configured.  It dispatches the event at once, Google
    Analytics first (one call on [gtag], or on [ga] when [gtag] is
    absent) and then Segment, whose call carries the group; it appends
    the event to [events] and returns it.  [tasks], the registry's
    flags, the store of task objects and the clock are untouched: the
    [task] argument is only stored.  In [DEFAULTS] the two flags of the
    registry are written and the Intercom flag is left as it was. *)
Theorem createEvent_postcondition (name object action section value : string)
    (task : option TaskRef) (eventGroup : option string)
    (this : Huha) (w : World) :
  let group :=
    if truthy_string eventGroup then default "" eventGroup
    else uuidv1 w (uuid_calls w) in
  let e :=
    {| event_name := name; event_object := object;
       event_action := action; event_section := section;
       event_value := value; event_task := task;
       event_eventGroup := group;
       event_trackOnGoogleAnalytics := huha_trackOnGoogleAnalytics this;
       event_trackOnSegment := huha_trackOnSegment this |} in
  let GA :=
    if huha_trackOnGoogleAnalytics this then
      if gtag_defined w then
        [ gtag "event" action
            [ ("event_category", VStr section);
              ("event_label", VStr object);
              ("value", VStr value) ] ]
      else if ga_defined w then
        [ ga [ VStr "send"; VStr "event"; VStr section; VStr action;
               VStr object; VStr value ] ]
      else []
    else [] in
  let SG :=
    if huha_trackOnSegment this && analytics_defined w then
      [ analytics_track name
          [ ("category", VStr section);
            ("label", VStr object);
            ("action", VStr action);
            ("value", VStr value);
            ("eventGroup", VStr group) ] ]
    else [] in
  exists this' w',
    Huha.createEvent name object action section value task eventGroup this w
    = (e, this', w')
    /\ huha_events this' = huha_events this ++ [e]
    /\ huha_tasks this' = huha_tasks this
    /\ huha_trackOnGoogleAnalytics this' = huha_trackOnGoogleAnalytics this
    /\ huha_trackOnIntercom this' = huha_trackOnIntercom this
    /\ huha_trackOnSegment this' = huha_trackOnSegment this
    /\ heap w' = heap w
    /\ clock_reads w' = clock_reads w
    /\ uuid_calls w'
       = (if truthy_string eventGroup then uuid_calls w
          else S (uuid_calls w))
    /\ DEFAULTS w'
       = {| trackOnGoogleAnalytics := huha_trackOnGoogleAnalytics this;
            trackOnIntercom := trackOnIntercom (DEFAULTS w);
            trackOnSegment := huha_trackOnSegment this |}
    /\ log w' = log w ++ GA ++ SG.
Proof.
  intros group e GA SG. unfold Huha.createEvent, HuhaEvent.new.
  destruct (truthy_string eventGroup) eqn:Hg; simpl;
    rewrite event_track_emit; eexists _, _;
    (split; [reflexivity|]); simpl; subst e group; rewrite ?Hg;
    do 9 (split; [reflexivity|]);
    f_equal; unfold event_calls; subst GA SG; simpl; rewrite ?Hg;
    destruct (huha_trackOnGoogleAnalytics this), (huha_trackOnSegment this),
      (gtag_defined w), (ga_defined w), (analytics_defined w); reflexivity.
Qed.

(** [createEvent("Close menu", ...)] without a group, on a registry
    that holds one task and one earlier event and tracks on Google
    Analytics and on Segment, where [gtag] is blocked: the event gets
    the generator's first token, "uuid-0", [ga] and [analytics] get one
    call each, in this order, and the event is the second of
    [events]. *)
Lemma createEvent_postcondition_witness :
  exists e this' w',
    Huha.createEvent "Close menu" "menu" "close" "navigation" "0" None None
      menu_registry blocked_page
    = (e, this', w')
    /\ event_eventGroup e = "uuid-0"
    /\ huha_events this' = [opened_menu; e]
    /\ huha_tasks this' = [0]
    /\ heap w' = [tracked_task]
    /\ uuid_calls w' = 1
    /\ log w'
       = [ ga [ VStr "send"; VStr "event"; VStr "navigation"; VStr "close";
                VStr "menu"; VStr "0" ];
           analytics_track "Close menu"
             [ ("category", VStr "navigation");
               ("label", VStr "menu");
               ("action", VStr "close");
               ("value", VStr "0");
               ("eventGroup", VStr "uuid-0") ] ].
Proof.
  destruct (createEvent_postcondition "Close menu" "menu" "close"
              "navigation" "0" None None menu_registry blocked_page)
    as (this' & w' & Hrun & Hevents & Htasks & _ & _ & _ & Hheap & _ & Huuid
        & _ & Hlog).
  eexists _, this', w'.
  split; [exact Hrun|]. split; [reflexivity|].
  split; [exact Hevents|]. split; [exact Htasks|].
  split; [exact Hheap|]. split; [exact Huuid | exact Hlog].
Defined.

(** ** One Google Analytics global at a time *)

Lemma ga_task_calls_one_global w t :
  (gtag_defined w = true ->
   Forall (fun c => is_ga_call c = false) (summary_calls w t))
  /\ (gtag_defined w = false ->
      Forall (fun c => is_gtag_call c = false) (summary_calls w t)).
Proof.
  unfold summary_calls, ga_task_calls, intercom_task_calls,
    segment_task_calls.
  split; intros ->;
    destruct (task_trackOnGoogleAnalytics t), (task_trackOnIntercom t),
      (task_trackOnSegment t), (ga_defined w), (Intercom_defined w),
      (analytics_defined w); simpl; repeat constructor.
Qed.

Lemma event_calls_one_global w e :
  (gtag_defined w = true ->
   Forall (fun c => is_ga_call c = false) (event_calls w e))
  /\ (gtag_defined w = false ->
      Forall (fun c => is_gtag_call c = false) (event_calls w e)).
Proof.
  unfold event_calls.
  split; intros ->;
    destruct (event_trackOnGoogleAnalytics e), (event_trackOnSegment e),
      (ga_defined w), (analytics_defined w); simpl; repeat constructor.
Qed.

(** The summary of a finished task and the dispatch of an event reach
    Google Analytics through one global only: when [gtag] is defined no
    call is made on [ga], even if [ga] is defined too; when [gtag] is
    not defined no call is made on it. *)
Theorem google_analytics_one_global (w : World) :
  (forall status this t,
      heap w !! this = Some t -> task_status t = IN_PROGRESS ->
      exists w' cs,
        HuhaTask.finish status this w = Some w'
        /\ log w' = log w ++ cs
        /\ (gtag_defined w = true ->
            Forall (fun c => is_ga_call c = false) cs)
        /\ (gtag_defined w = false ->
            Forall (fun c => is_gtag_call c = false) cs))
  /\ (forall e,
        exists cs,
          log (HuhaEvent.track e w) = log w ++ cs
          /\ (gtag_defined w = true ->
              Forall (fun c => is_ga_call c = false) cs)
          /\ (gtag_defined w = false ->
              Forall (fun c => is_gtag_call c = false) cs)).
Proof.
  split.
  - intros status this t Ht Hs.
    exists (finished status this t w). eexists.
    split; [by apply finish_in_progress|]. split; [reflexivity|].
    apply ga_task_calls_one_global.
  - intros e. exists (event_calls w e). rewrite event_track_emit.
    split; [done|]. apply event_calls_one_global.
Qed.

(** Completing a task tracked on Google Analytics on a page where both
    [gtag] and [ga] are defined: three calls, none on [ga]. *)
Lemma google_analytics_one_global_witness :
  exists w' cs,
    HuhaTask.finish COMPLETED 0 both_ga_world = Some w'
    /\ log w' = log both_ga_world ++ cs
    /\ Forall (fun c => is_ga_call c = false) cs.
Proof.
  destruct (proj1 (google_analytics_one_global both_ga_world)
              COMPLETED 0 _ eq_refl eq_refl)
    as (w' & cs & Hrun & Hlog & Hgtag & _).
  exists w', cs. split; [exact Hrun|]. split; [exact Hlog|].
  apply Hgtag. reflexivity.
Defined.

(** ** The listeners *)

Lemma dataset_view_None dataset :
  dataset !! "huhaTask" = None -> dataset_view dataset = None.
Proof. intros H. unfold dataset_view. by rewrite H. Qed.

Lemma dataset_view_Some dataset name :
  dataset !! "huhaTask" = Some name ->
  dataset_view dataset
  = Some {| huhaTask := name; huhaTrigger := dataset !! "huhaTrigger";
            huhaEvent := dataset !! "huhaEvent" |}.
Proof. intros H. unfold dataset_view. by rewrite H. Qed.

(** The listeners leave the registry and the world as they are on an
    event of a type other than click, focus and change, on an element
    without [data-huha-task], and on an element whose
    [data-huha-trigger] is not the type of the event.  So an element
    that declares any other trigger never acts; and of the events on
    the global object only unload has an effect. *)
Theorem listeners_ignore (this : Huha) (w : World) :
  (forall type dataset,
      type ∉ listened
      \/ dataset !! "huhaTask" = None
      \/ dataset !! "huhaTrigger" <> Some type ->
      setUpEvents (ElementEvent type dataset) this w = Some (this, w))
  /\ (forall trigger dataset,
        dataset !! "huhaTrigger" = Some trigger ->
        trigger ∉ listened ->
        forall type,
          setUpEvents (ElementEvent type dataset) this w = Some (this, w))
  /\ (forall type,
        type <> "unload" ->
        setUpEvents (WindowEvent type) this w = Some (this, w)).
Proof.
  assert (Hfirst : forall type dataset,
            type ∉ listened
            \/ dataset !! "huhaTask" = None
            \/ dataset !! "huhaTrigger" <> Some type ->
            setUpEvents (ElementEvent type dataset) this w = Some (this, w)).
  { intros type dataset H. simpl.
    destruct (decide (type ∈ listened)) as [Hin|Hout]; [|done].
    destruct H as [H|[H|H]]; [done | by rewrite dataset_view_None |].
    destruct (dataset !! "huhaTask") as [name|] eqn:Hn;
      [|by rewrite dataset_view_None].
    rewrite (dataset_view_Some _ name) by done.
    unfold Huha.registerEvent. simpl.
    rewrite decide_False; [done|]. congruence. }
  split; [exact Hfirst|]. split.
  - intros trigger dataset Htr Hout type. apply Hfirst.
    destruct (decide (type ∈ listened)) as [Hin|Hn]; [|by left].
    right. right. rewrite Htr. intros [= ->]. done.
  - intros type Hne. simpl. by rewrite decide_False.
Qed.

(** A button that declares "submit" as its trigger: neither a submit
    nor a click on it starts the task. *)
Lemma listeners_ignore_witness :
  setUpEvents (ElementEvent "submit" start_on_submit) (fst fresh_registry)
    (snd fresh_registry) = Some fresh_registry
  /\ setUpEvents (ElementEvent "click" start_on_submit) (fst fresh_registry)
       (snd fresh_registry) = Some fresh_registry.
Proof.
  destruct (listeners_ignore (fst fresh_registry) (snd fresh_registry))
    as (_ & Htrigger & _).
  assert (Hout : "submit" ∉ listened) by compute_done.
  split; apply (Htrigger "submit" start_on_submit eq_refl Hout).
Defined.

Lemma finish_total status this t w :
  heap w !! this = Some t ->
  exists w', HuhaTask.finish status this w = Some w'
             /\ Huha.in_progress w' this
                = bool_decide (status = IN_PROGRESS) && Huha.in_progress w this.
Proof.
  intros Ht. destruct (decide (task_status t = IN_PROGRESS)) as [Hs|Hs].
  - exists (finished status this t w).
    split; [by apply finish_in_progress|].
    unfold Huha.in_progress. rewrite finished_lookup by done.
    rewrite Ht. simpl. rewrite (bool_decide_eq_true_2 _ Hs).
    by rewrite andb_true_r.
  - exists w. split; [by apply (finish_terminal _ _ t)|].
    unfold Huha.in_progress. rewrite Ht.
    rewrite (bool_decide_eq_false_2 _ Hs). by rewrite andb_false_r.
Qed.

Lemma in_progress_evolves w w' a :
  evolves (heap w) (heap w') -> length (heap w') = length (heap w) ->
  Huha.in_progress w a = false -> Huha.in_progress w' a = false.
Proof.
  intros [_ Hev] Hlen Hp. unfold Huha.in_progress in *.
  destruct (heap w !! a) as [t|] eqn:Ht.
  - destruct (Hev a t Ht) as (t' & -> & _ & _ & Hs).
    apply bool_decide_eq_false in Hp. apply bool_decide_eq_false. auto.
  - apply lookup_ge_None in Ht. rewrite <- Hlen in Ht.
    apply lookup_ge_None in Ht. by rewrite Ht.
Qed.

Lemma forEach_abandon_done l w :
  Forall (fun a => a < length (heap w)) l ->
  exists w',
    forEach HuhaTask.abandon l w = Some w'
    /\ forall a, a ∈ l -> Huha.in_progress w' a = false.
Proof.
  revert w. induction l as [|a l IH]; intros w Hvalid.
  - exists w. split; [done|]. intros a Ha. by apply elem_of_nil in Ha.
  - apply Forall_cons in Hvalid as [Ha Hvalid].
    destruct (lookup_lt_is_Some_2 _ _ Ha) as [t Ht].
    destruct (finish_total ABANDONED a t w Ht) as (w1 & Hrun & Hp).
    rewrite (bool_decide_eq_false_2 (ABANDONED = IN_PROGRESS)) in Hp
      by discriminate.
    simpl in Hp.
    pose proof (finish_evolves _ _ _ _ Hrun) as [Hev1 Hlen1].
    destruct (IH w1) as (w' & Hrest & Hdone).
    { eapply Forall_impl; [exact Hvalid|]. simpl. intros b. lia. }
    exists w'. split.
    { simpl. unfold HuhaTask.abandon. rewrite Hrun. exact Hrest. }
    intros b Hb. apply elem_of_cons in Hb as [->|Hb]; [|by apply Hdone].
    pose proof (forEach_abandon_evolves _ _ _ Hrest) as [Hev Hlen].
    by eapply in_progress_evolves.
Qed.

Lemma swept_refl t : swept t t.
Proof. unfold swept. repeat split. by left. Qed.

Lemma swept_trans t1 t2 t3 : swept t1 t2 -> swept t2 t3 -> swept t1 t3.
Proof.
  unfold swept.
  intros (Hn & Hs & He & Hr & H12) (Hn' & Hs' & He' & Hr' & H23).
  repeat split; try congruence.
  destruct H12 as [[Hst Hen]|(Hip & Hab & Hen)],
           H23 as [[Hst' Hen']|(Hip' & Hab' & Hen')].
  - left. split; congruence.
  - right. split; [congruence | done].
  - right. split; [done|]. split; [congruence|]. by rewrite Hen'.
  - rewrite Hab in Hip'. discriminate Hip'.
Qed.

Lemma abandon_swept a w w1 :
  HuhaTask.abandon a w = Some w1 ->
  forall b t, heap w !! b = Some t ->
    exists t', heap w1 !! b = Some t' /\ swept t t'.
Proof.
  unfold HuhaTask.abandon. intros Hrun b t Hb.
  apply finish_cases in Hrun as [->|(ta & Hta & Hs & ->)].
  - exists t. split; [done | apply swept_refl].
  - simpl. destruct (decide (a = b)) as [<-|Hne].
    + rewrite list_lookup_insert_eq by by eapply lookup_lt_Some.
      eexists. split; [done|]. rewrite Hta in Hb. injection Hb as <-.
      unfold swept. simpl. repeat split. right.
      split; [done|]. split; [done | by eexists].
    + rewrite list_lookup_insert_ne by done.
      exists t. split; [done | apply swept_refl].
Qed.

Lemma forEach_abandon_swept l w w' :
  forEach HuhaTask.abandon l w = Some w' ->
  forall b t, heap w !! b = Some t ->
    exists t', heap w' !! b = Some t' /\ swept t t'.
Proof.
  revert w. induction l as [|a l IH]; intros w Hrun b t Hb; simpl in Hrun.
  - injection Hrun as <-. exists t. split; [done | apply swept_refl].
  - destruct (HuhaTask.abandon a w) as [w1|] eqn:Ha; [|done].
    simpl in Hrun.
    destruct (abandon_swept _ _ _ Ha b t Hb) as (t1 & Ht1 & H1).
    destruct (IH w1 Hrun b t1 Ht1) as (t' & Ht' & H2).
    exists t'. split; [done|]. by eapply swept_trans.
Qed.

(** The unload listener always returns and leaves no task of the
    registry in progress.  A task of the registry that was in progress
    has the status "Abandoned" and an end; one that was not has the
    status and the end it had; every one keeps its name, start and
    counters.  Afterwards [getTask] is undefined for every name. *)
Theorem unload_abandons_all (this : Huha) (w : World) :
  exists w',
    setUpEvents (WindowEvent "unload") this w = Some (this, w')
    /\ (forall a t,
          a ∈ huha_tasks this ->
          heap w !! a = Some t ->
          exists t',
            heap w' !! a = Some t'
            /\ task_status t' <> "In progress"
            /\ (task_status t = "In progress" ->
                task_status t' = "Abandoned" /\ is_Some (task_end t'))
            /\ (task_status t <> "In progress" ->
                task_status t' = task_status t
                /\ task_end t' = task_end t)
            /\ task_name t' = task_name t
            /\ task_start t' = task_start t
            /\ task_effort t' = task_effort t
            /\ task_errors t' = task_errors t)
    /\ (forall name, Huha.getTask name this w' = None).
Proof.
  destruct (forEach_abandon_done
              (List.filter (Huha.in_progress w) (huha_tasks this)) w)
    as (w' & Hrun & Hdone).
  { apply Forall_forall. intros a Ha.
    apply filter_in_progress_elem in Ha as [_ Ha].
    apply in_progress_true in Ha as (t & Ht & _).
    by eapply lookup_lt_Some. }
  assert (Hall : forall a, a ∈ huha_tasks this ->
                   Huha.in_progress w' a = false).
  { intros a Ha. destruct (Huha.in_progress w a) eqn:Hp.
    - apply Hdone. by apply filter_in_progress_elem.
    - pose proof (forEach_abandon_evolves _ _ _ Hrun) as [Hev Hlen].
      by eapply in_progress_evolves. }
  exists w'. split.
  { simpl. unfold Huha.abandonInProgressTasks. by rewrite Hrun. }
  split.
  { intros a t Ha Ht.
    destruct (forEach_abandon_swept _ _ _ Hrun a t Ht)
      as (t' & Ht' & Hn & Hs & He & Hr & Hcase).
    assert (Hnot : task_status t' <> IN_PROGRESS).
    { specialize (Hall a Ha). unfold Huha.in_progress in Hall.
      rewrite Ht' in Hall. by apply bool_decide_eq_false in Hall. }
    exists t'. split; [exact Ht'|]. split; [exact Hnot|].
    split; [|split; [|done]].
    - intros Hip. destruct Hcase as [[Hst _]|(_ & Hab & Hen)]; [|done].
      rewrite Hst in Hnot. by destruct Hnot.
    - intros Hno. destruct Hcase as [Hsame|(Hip & _)]; [done|].
      by destruct Hno. }
  intros name. unfold Huha.getTask. apply find_none_iff.
  intros a Ha. unfold Huha.named_in_progress.
  destruct (heap w' !! a); [|done].
  by rewrite (Hall a Ha), andb_false_r.
Qed.

(** Unload on the registry of three tasks: "cart" and "search", which
    were in progress, are abandoned; "checkout" is still completed at
    900; and [getTask("cart")] finds nothing. *)
Lemma unload_abandons_all_witness :
  exists w' cart paid search,
    setUpEvents (WindowEvent "unload") three_tasks_registry three_tasks_world
    = Some (three_tasks_registry, w')
    /\ heap w' !! 0 = Some cart
    /\ task_name cart = "cart"
    /\ task_status cart = "Abandoned"
    /\ is_Some (task_end cart)
    /\ task_effort cart = 3%Z
    /\ heap w' !! 1 = Some paid
    /\ task_status paid = "Completed"
    /\ task_end paid = Some 900%Z
    /\ heap w' !! 2 = Some search
    /\ task_name search = "search"
    /\ task_status search = "Abandoned"
    /\ Huha.getTask "cart" three_tasks_registry w' = None.
Proof.
  destruct (unload_abandons_all three_tasks_registry three_tasks_world)
    as (w' & Hrun & Hall & Hget).
  assert (H0 : 0 ∈ huha_tasks three_tasks_registry) by (apply list_elem_of_In; simpl; auto).
  assert (H1 : 1 ∈ huha_tasks three_tasks_registry) by (apply list_elem_of_In; simpl; auto).
  assert (H2 : 2 ∈ huha_tasks three_tasks_registry) by (apply list_elem_of_In; simpl; auto).
  destruct (Hall 0 cart_task H0 eq_refl)
    as (cart & Hc & _ & Cab & _ & Cname & _ & Ceff & _).
  destruct (Hall 1 paid_task H1 eq_refl)
    as (paid & Hp & _ & _ & Pkept & _).
  destruct (Hall 2 search_task H2 eq_refl)
    as (search & Hs & _ & Sab & _ & Sname & _).
  destruct (Cab eq_refl) as [Cst Cend].
  destruct (Sab eq_refl) as [Sst _].
  destruct Pkept as [Pst Pend]; [discriminate|].
  exists w', cart, paid, search.
  split; [exact Hrun|]. split; [exact Hc|]. split; [exact Cname|].
  split; [exact Cst|]. split; [exact Cend|]. split; [exact Ceff|].
  split; [exact Hp|]. split; [exact Pst|]. split; [exact Pend|].
  split; [exact Hs|]. split; [exact Sname|]. split; [exact Sst|].
  exact (Hget "cart").
Defined.

(** ** A task driven from the page *)

Lemma call_counter_root c w t :
  heap w !! call_target c = Some t ->
  task_parentTask t = None ->
  call_counter c w
  = Some (set_heap (<[call_target c := bump_of c t]> (heap w)) w).
Proof.
  intros Ht Hp. pose proof (lookup_lt_Some _ _ _ Ht) as Hlt.
  destruct c as [a|a]; simpl in *.
  - unfold HuhaTask.addInteraction.
    destruct (length (heap w)) as [|k]; [lia|].
    simpl. rewrite Ht. simpl. by rewrite Hp.
  - unfold HuhaTask.addError.
    destruct (length (heap w)) as [|k]; [lia|].
    simpl. rewrite Ht. simpl. by rewrite Hp.
Qed.

Lemma with_counters_lookup a t n m w :
  a < length (heap w) ->
  heap (with_counters a t n m w) !! a = Some (set_errors m (set_effort n t)).
Proof. intros Ha. simpl. by apply list_lookup_insert_eq. Qed.

Lemma with_counters_getTask name this a t n m w :
  heap w !! a = Some t ->
  Huha.getTask name this (with_counters a t n m w) = Huha.getTask name this w.
Proof.
  intros Ht. unfold Huha.getTask. apply find_ext. intros b _.
  unfold Huha.named_in_progress, Huha.in_progress. simpl.
  destruct (decide (a = b)) as [<-|Hne].
  - rewrite list_lookup_insert_eq by by eapply lookup_lt_Some.
    by rewrite Ht.
  - by rewrite list_lookup_insert_ne.
Qed.

Lemma with_counters_bump c a t n m w :
  call_target c = a ->
  set_heap (<[a := bump_of c (set_errors m (set_effort n t))]>
              (heap (with_counters a t n m w)))
    (with_counters a t n m w)
  = match c with
    | CallAddInteraction _ => with_counters a t (n + 1) m w
    | CallAddError _ => with_counters a t n (m + 1) w
    end.
Proof.
  intros _. unfold with_counters, set_heap. simpl.
  rewrite list_insert_insert_eq. by destruct c.
Qed.

Lemma with_counters_zero a t w :
  heap w !! a = Some t -> task_effort t = 0%Z -> task_errors t = 0%Z ->
  with_counters a t 0 0 w = w.
Proof.
  intros Ht He Hr. unfold with_counters.
  replace (set_errors 0 (set_effort 0 t)) with t
    by (destruct t; simpl in *; by subst).
  rewrite list_insert_id by done. apply set_heap_id.
Qed.

(** An interaction or error reported by the page while the task found
    by [getTask] is a root task [a]. *)
Lemma setUpEvents_counter name op c this a t n m w evt :
  declares name op evt ->
  (op = "interaction" /\ c = CallAddInteraction a
   \/ op = "error" /\ c = CallAddError a) ->
  heap w !! a = Some t ->
  task_parentTask t = None ->
  Huha.getTask name this w = Some a ->
  setUpEvents evt this (with_counters a t n m w)
  = Some (this,
          match c with
          | CallAddInteraction _ => with_counters a t (n + 1) m w
          | CallAddError _ => with_counters a t n (m + 1) w
          end).
Proof.
  intros Hd Hop Ht Hp Hget.
  destruct evt as [type|type dataset]; [done|].
  destruct Hd as (Hin & Hname & Htrig & Hev). simpl.
  rewrite decide_True by done.
  rewrite (dataset_view_Some _ name) by done.
  unfold Huha.registerEvent. simpl. rewrite Htrig, Hev.
  rewrite decide_True by done.
  rewrite with_counters_getTask, Hget by done.
  pose proof (lookup_lt_Some _ _ _ Ht) as Hlt.
  assert (Hroot : forall c', call_target c' = a ->
            call_counter c' (with_counters a t n m w)
            = Some match c' with
                   | CallAddInteraction _ => with_counters a t (n + 1) m w
                   | CallAddError _ => with_counters a t n (m + 1) w
                   end).
  { intros c' Hc'. rewrite <- (with_counters_bump c' a t n m w) by done.
    subst a. apply call_counter_root; [|done].
    by apply with_counters_lookup. }
  destruct Hop as [[-> ->]|[-> ->]].
  - rewrite decide_False by done. rewrite decide_False by done.
    rewrite decide_False by done. rewrite decide_True by done.
    specialize (Hroot (CallAddInteraction a) eq_refl).
    simpl in Hroot. by rewrite Hroot.
  - rewrite decide_False by done. rewrite decide_False by done.
    rewrite decide_False by done. rewrite decide_False by done.
    rewrite decide_True by done.
    specialize (Hroot (CallAddError a) eq_refl).
    simpl in Hroot. by rewrite Hroot.
Qed.

Lemma deliver_counters name this a t w mids n m :
  Forall (fun evt => declares name "interaction" evt
                     \/ declares name "error" evt) mids ->
  heap w !! a = Some t ->
  task_parentTask t = None ->
  Huha.getTask name this w = Some a ->
  deliver mids this (with_counters a t n m w)
  = Some (this,
          with_counters a t (n + declared "interaction" mids)
            (m + declared "error" mids) w).
Proof.
  intros Hmids Ht Hp Hget. revert n m.
  induction Hmids as [|evt mids Hevt _ IH]; intros n m.
  - simpl. by rewrite !Z.add_0_r.
  - destruct Hevt as [Hd|Hd].
    + cbn [deliver].
      rewrite (setUpEvents_counter name "interaction"
                 (CallAddInteraction a) this a t n m w evt)
        by (done || by left).
      cbn [mbind option_bind]. rewrite IH.
      destruct evt as [type|type dataset]; [done|].
      destruct Hd as (_ & _ & _ & Hev). simpl. rewrite Hev.
      rewrite decide_True by done. rewrite decide_False by done.
      do 3 f_equal; lia.
    + cbn [deliver].
      rewrite (setUpEvents_counter name "error"
                 (CallAddError a) this a t n m w evt)
        by (done || by right).
      cbn [mbind option_bind]. rewrite IH.
      destruct evt as [type|type dataset]; [done|].
      destruct Hd as (_ & _ & _ & Hev). simpl. rewrite Hev.
      rewrite decide_False by done. rewrite decide_True by done.
      do 3 f_equal; lia.
Qed.

Lemma deliver_app evts1 evts2 this w :
  deliver (evts1 ++ evts2) this w
  = s ← deliver evts1 this w; deliver evts2 (fst s) (snd s).
Proof.
  revert this w. induction evts1 as [|evt evts1 IH]; intros this w; [done|].
  simpl. destruct (setUpEvents evt this w) as [[this1 w1]|]; [|done].
  simpl. apply IH.
Qed.

Lemma setUpEvents_start name this w evt :
  declares name "start" evt ->
  setUpEvents evt this w
  = '(_, this, w) ← Huha.createTask name None this w; Some (this, w).
Proof.
  intros Hd. destruct evt as [type|type dataset]; [done|].
  destruct Hd as (Hin & Hname & Htrig & Hev). simpl.
  rewrite decide_True by done.
  rewrite (dataset_view_Some _ name) by done.
  unfold Huha.registerEvent. simpl. rewrite Htrig, Hev.
  rewrite decide_True by done.
  by destruct (decide (Some "start" = Some "start")).
Qed.

Lemma setUpEvents_terminal name c this w a evt :
  declares name (terminal_op c) evt ->
  Huha.getTask name this w = Some a ->
  setUpEvents evt this w = w ← call_terminal c a w; Some (this, w).
Proof.
  intros Hd Hget. destruct evt as [type|type dataset]; [done|].
  destruct Hd as (Hin & Hname & Htrig & Hev). simpl.
  rewrite decide_True by done.
  rewrite (dataset_view_Some _ name) by done.
  unfold Huha.registerEvent. simpl. rewrite Htrig, Hev, Hget.
  rewrite decide_True by done.
  destruct c; simpl; repeat case_decide; done.
Qed.

Lemma page_driven_run (name : string) (c : TerminalCall)
    (this : Huha) (w : World) (start fin : DomEvent)
    (mids : list DomEvent) :
  tasks_ok this w ->
  declares name "start" start ->
  Forall (fun evt => declares name "interaction" evt
                     \/ declares name "error" evt) mids ->
  declares name (terminal_op c) fin ->
  exists this1 w1 began w',
    setUpEvents start this w = Some (this1, w1)
    /\ this1 = push_task (length (heap w)) this
    /\ heap w1 !! length (heap w)
       = Some (fresh_task name None (registry_flags this) began)
    /\ deliver (start :: mids ++ [fin]) this w = Some (this1, w')
    /\ let t :=
         set_end_status (clock w1 (clock_reads w1)) (terminal_status c)
           (set_errors (declared "error" mids)
              (set_effort (declared "interaction" mids)
                 (fresh_task name None (registry_flags this) began))) in
       heap w' !! length (heap w) = Some t
       /\ log w' = log w1 ++ summary_calls w1 t
       /\ Huha.getTask name this1 w' = None.
Proof.
  intros Hok Hstart Hmids Hfin.
  destruct (createTask_spec name None this w Hok)
    as (w0 & t0 & w1 & _ & _ & Hrun & Hlen & _ & Hheap & _ & _ & _ & _
        & Hok1 & Hget1).
  destruct (createTask_result name None this w)
    as (w0' & w1' & Hrun' & _ & _ & Hlen' & Hheap' & _).
  rewrite Hrun in Hrun'. injection Hrun' as <-.
  remember (length (heap w)) as a eqn:Ea.
  remember (push_task a this) as this1 eqn:Ethis1.
  remember (fresh_task name None (registry_flags this)
              (clock w0' (clock_reads w0'))) as t1 eqn:Et1.
  assert (Ha : heap w1 !! a = Some t1).
  { rewrite Hheap', <- Hlen', lookup_app_r by done.
    by rewrite Nat.sub_diag. }
  assert (Ht1 : task_parentTask t1 = None /\ task_status t1 = IN_PROGRESS
                /\ task_effort t1 = 0%Z /\ task_errors t1 = 0%Z).
  { by rewrite Et1. }
  destruct Ht1 as (Hp1 & Hs1 & He1 & Hr1).
  remember (declared "interaction" mids) as n eqn:En.
  remember (declared "error" mids) as m eqn:Em.
  remember (with_counters a t1 n m w1) as u eqn:Eu.
  assert (Hu : heap u !! a = Some (set_errors m (set_effort n t1))).
  { rewrite Eu. apply with_counters_lookup. by eapply lookup_lt_Some. }
  remember (finished (terminal_status c) a
              (set_errors m (set_effort n t1)) u) as w' eqn:Ew'.
  assert (Hend : call_terminal c a u = Some w').
  { rewrite call_terminal_finish, Ew'. by apply finish_in_progress. }
  assert (Hgetu : Huha.getTask name this1 u = Some a).
  { rewrite Eu. by rewrite with_counters_getTask. }
  exists this1, w1, (clock w0' (clock_reads w0')), w'.
  rewrite <- Et1.
  split.
  { rewrite (setUpEvents_start name) by done. by rewrite Hrun. }
  split; [reflexivity|].
  split; [exact Ha|]. split.
  { cbn [deliver]. rewrite (setUpEvents_start name) by done.
    rewrite Hrun. cbn [mbind option_bind]. rewrite deliver_app.
    rewrite <- (with_counters_zero a t1 w1) at 1 by done.
    rewrite (deliver_counters name) by done.
    cbn [mbind option_bind fst snd]. rewrite !Z.add_0_l.
    rewrite <- En, <- Em, <- Eu. cbn [deliver].
    rewrite (setUpEvents_terminal name c _ _ a) by done.
    by rewrite Hend. }
  cbn zeta.
  split; [rewrite Ew', (finished_lookup _ _ _ _ Hu); by rewrite Eu|].
  split; [by rewrite Ew', Eu|].
  refine (proj1 (getTask_after_terminal name this1 u a c w' _ Hgetu Hend)).
  eapply tasks_ok_evolves; [|exact Hok1]. rewrite Eu. simpl.
  by apply (evolves_insert _ _ t1).
Qed.

(** A task driven from the page, on a registry whose tasks are distinct
    objects, one in progress per name.  An element declaring "start"
    for [name] creates the task, the next object of the store and the
    last of [tasks]; then come any number of elements declaring
    "interaction" or "error" for it, in any order; then one declaring
    "complete" or "abandon".  All the listeners return.  The task ends
    "Completed" or "Abandoned" as declared, with an effort equal to the
    number of interactions and as many errors as there were errors,
    the start it was given and the next clock reading as its end; its
    summary is the only thing sent after the start; and
    [getTask(name)] is undefined again. *)
Theorem page_driven_task (name : string) (c : TerminalCall)
    (this : Huha) (w : World) (start fin : DomEvent)
    (mids : list DomEvent) :
  tasks_ok this w ->
  declares name "start" start ->
  Forall (fun evt => declares name "interaction" evt
                     \/ declares name "error" evt) mids ->
  declares name (terminal_op c) fin ->
  exists this1 w1 began w',
    setUpEvents start this w = Some (this1, w1)
    /\ huha_tasks this1 = huha_tasks this ++ [length (heap w)]
    /\ heap w1 !! length (heap w)
       = Some {| task_name := name; task_status := "In progress";
                 task_effort := 0; task_errors := 0;
                 task_start := began; task_end := None;
                 task_trackOnGoogleAnalytics :=
                   huha_trackOnGoogleAnalytics this;
                 task_trackOnIntercom := huha_trackOnIntercom this;
                 task_trackOnSegment := huha_trackOnSegment this;
                 task_parentTask := None |}
    /\ deliver (start :: mids ++ [fin]) this w = Some (this1, w')
    /\ let t :=
         {| task_name := name;
            task_status := match c with
                           | CallComplete => "Completed"
                           | CallAbandon => "Abandoned"
                           end;
            task_effort := declared "interaction" mids;
            task_errors := declared "error" mids;
            task_start := began;
            task_end := Some (clock w1 (clock_reads w1));
            task_trackOnGoogleAnalytics := huha_trackOnGoogleAnalytics this;
            task_trackOnIntercom := huha_trackOnIntercom this;
            task_trackOnSegment := huha_trackOnSegment this;
            task_parentTask := None |} in
       heap w' !! length (heap w) = Some t
       /\ log w' = log w1 ++ summary_calls w1 t
       /\ Huha.getTask name this1 w' = None.
Proof.
  intros Hok Hstart Hmids Hfin.
  destruct (page_driven_run name c this w start fin mids Hok Hstart Hmids
              Hfin)
    as (this1 & w1 & began & w' & Hs & -> & Hnew & Hrun & Ht & Hlog & Hget).
  exists (push_task (length (heap w)) this), w1, began, w'.
  split; [exact Hs|]. split; [reflexivity|]. split; [exact Hnew|].
  split; [exact Hrun|].
  destruct c; (split; [exact Ht|]); (split; [exact Hlog | exact Hget]).
Qed.

Lemma fresh_registry_tasks_ok :
  tasks_ok (fst fresh_registry) (snd fresh_registry).
Proof.
  split; [apply NoDup_nil_2|]. split; [constructor|].
  intros name i j a b Hi. done.
Qed.

Lemma checkout_element_declares type op :
  type ∈ listened -> declares "checkout" op (checkout_element type op).
Proof. intros Hin. by repeat split. Qed.

Lemma start_on_fresh_registry :
  setUpEvents (checkout_element "click" "start")
    (fst fresh_registry) (snd fresh_registry)
  = Some (push_task 0 (fst fresh_registry),
          snd (HuhaTask.new "checkout" None
                 (Some (task_options (fst fresh_registry)))
                 (snd fresh_registry))).
Proof. reflexivity. Qed.

(** The "checkout" scenario, driven from the page of a fresh registry,
    where the clock reads 1000 and then 1500: a click starts the task,
    a change and a focus are interactions, a click is an error, and a
    click completes it.  The task ends completed with effort 2 and
    errors 1, started at 1000 and ended at 1500, and Segment is told so
    in the one call made. *)
Lemma page_driven_task_witness :
  exists this1 w' t,
    deliver [ checkout_element "click" "start";
              checkout_element "change" "interaction";
              checkout_element "click" "error";
              checkout_element "focus" "interaction";
              checkout_element "click" "complete" ]
      (fst fresh_registry) (snd fresh_registry) = Some (this1, w')
    /\ huha_tasks this1 = [0]
    /\ heap w' !! 0 = Some t
    /\ task_name t = "checkout"
    /\ task_status t = "Completed"
    /\ task_effort t = 2%Z
    /\ task_errors t = 1%Z
    /\ task_start t = 1000%Z
    /\ task_end t = Some 1500%Z
    /\ log w'
       = [ analytics_track "checkout"
             [ ("category", VStr "checkout");
               ("action", VStr "Completed");
               ("label", VStr "Task");
               ("value", VNum 1);
               ("errors", VNum 1);
               ("effort", VNum 2);
               ("time", VNum 500);
               ("result", VStr "Completed");
               ("started", VNum 1000) ] ]
    /\ Huha.getTask "checkout" this1 w' = None.
Proof.
  assert (Hclick : "click" ∈ listened) by compute_done.
  assert (Hchange : "change" ∈ listened) by compute_done.
  assert (Hfocus : "focus" ∈ listened) by compute_done.
  destruct (page_driven_task "checkout" CallComplete
              (fst fresh_registry) (snd fresh_registry)
              (checkout_element "click" "start")
              (checkout_element "click" "complete")
              [ checkout_element "change" "interaction";
                checkout_element "click" "error";
                checkout_element "focus" "interaction" ]
              fresh_registry_tasks_ok
              (checkout_element_declares _ _ Hclick))
    as (this1 & w1 & began & w' & Hstart & Htasks & Hnew & Hrun & Ht & Hlog
        & Hget).
  - apply Forall_cons. split;
      [left; by apply checkout_element_declares|].
    apply Forall_cons. split;
      [right; by apply checkout_element_declares|].
    apply Forall_cons. split;
      [left; by apply checkout_element_declares|].
    apply Forall_nil_2.
  - by apply (checkout_element_declares "click" "complete").
  - rewrite start_on_fresh_registry in Hstart.
    injection Hstart as <- <-.
    injection Hnew as <-.
    eexists _, w', _.
    split; [exact Hrun|]. split; [exact Htasks|]. split; [exact Ht|].
    do 6 (split; [reflexivity|]).
    split; [exact Hlog | exact Hget].
Defined.

(** ** Nothing fails on a reachable state *)

Lemma unload_total this w :
  exists w', Huha.abandonInProgressTasks this w = Some w'.
Proof.
  destruct (forEach_abandon_done
              (List.filter (Huha.in_progress w) (huha_tasks this)) w)
    as (w' & Hrun & _).
  { apply Forall_forall. intros a Ha.
    apply filter_in_progress_elem in Ha as [_ Ha].
    apply in_progress_true in Ha as (t & Ht & _).
    by eapply lookup_lt_Some. }
  by exists w'.
Qed.

Lemma registerEvent_total capturedEvent dataset this w :
  parents_older (heap w) ->
  exists s', Huha.registerEvent capturedEvent dataset this w = Some s'.
Proof.
  intros Hwf. unfold Huha.registerEvent.
  destruct (decide (Some capturedEvent = huhaTrigger dataset));
    [|by eexists].
  destruct (decide (huhaEvent dataset = Some "start")).
  - destruct (createTask_result (huhaTask dataset) None this w)
      as (w1 & w2 & -> & _). by eexists.
  - destruct (Huha.getTask (huhaTask dataset) this w) as [task|] eqn:Hget;
      [|by eexists].
    destruct (getTask_Some _ _ _ _ Hget) as (_ & t & Ht & _).
    pose proof (lookup_lt_Some _ _ _ Ht) as Hlt.
    repeat case_decide; try by eexists.
    + destruct (finish_total COMPLETED task t w Ht) as (w' & Hrun & _).
      unfold HuhaTask.complete. rewrite Hrun. by eexists.
    + destruct (finish_total ABANDONED task t w Ht) as (w' & Hrun & _).
      unfold HuhaTask.abandon. rewrite Hrun. by eexists.
    + destruct (call_counter_spec (CallAddInteraction task) w Hwf Hlt)
        as (h' & Hrun & _).
      simpl in Hrun. rewrite Hrun. by eexists.
    + destruct (call_counter_spec (CallAddError task) w Hwf Hlt)
        as (h' & Hrun & _).
      simpl in Hrun. rewrite Hrun. by eexists.
Qed.

Lemma setUpEvents_step evt this w s' :
  setUpEvents evt this w = Some s' -> s' = (this, w) \/ step (this, w) s'.
Proof.
  destruct evt as [type|type dataset]; simpl.
  - case_decide; [|by intros [= <-]; left].
    destruct (Huha.abandonInProgressTasks this w) as [w'|] eqn:Hrun; [|done].
    simpl. intros [= <-]. right. by apply step_abandonInProgressTasks.
  - case_decide; [|by intros [= <-]; left].
    destruct (dataset_view dataset) as [d|]; [|by intros [= <-]; left].
    intros Hrun. right. destruct s' as [this' w'].
    by eapply step_registerEvent.
Qed.

(** On every state a registry can reach, no call fails: a counter call
    and a terminal call on any task of the store return, and so does
    every listener, whatever event the page dispatches; the state a
    listener leaves is again a reachable one. *)
Theorem reachable_calls_return (s : Huha * World) :
  reachable s ->
  (forall c, call_target c < length (heap (snd s)) ->
     is_Some (call_counter c (snd s)))
  /\ (forall c task, task < length (heap (snd s)) ->
        is_Some (call_terminal c task (snd s)))
  /\ (forall evt,
        exists s', setUpEvents evt (fst s) (snd s) = Some s'
                   /\ reachable s').
Proof.
  intros Hreach. destruct (reachable_invariant s Hreach) as [Hwf Hok].
  destruct s as [this w]. simpl in *.
  split; [|split].
  - intros c Hc.
    destruct (call_counter_spec c w Hwf Hc) as (h' & Hrun & _). by eexists.
  - intros c task Hlt.
    destruct (lookup_lt_is_Some_2 _ _ Hlt) as [t Ht].
    rewrite call_terminal_finish.
    destruct (finish_total (terminal_status c) task t w Ht)
      as (w' & Hrun & _). by eexists.
  - intros evt.
    assert (Hsome : exists s', setUpEvents evt this w = Some s').
    { destruct evt as [type|type dataset]; simpl.
      - case_decide; [|by eexists].
        destruct (unload_total this w) as (w' & Hrun).
        rewrite Hrun. by eexists.
      - case_decide; [|by eexists].
        destruct (dataset_view dataset) as [d|]; [|by eexists].
        by apply registerEvent_total. }
    destruct Hsome as (s' & Hrun). exists s'. split; [done|].
    apply setUpEvents_step in Hrun as [->|Hstep]; [done|].
    destruct Hreach as (s0 & Hinit & Hsteps).
    exists s0. split; [done|]. by eapply rtc_r.
Qed.

(** A click on the element that starts "checkout", on a fresh
    registry. *)
Lemma reachable_calls_return_witness :
  exists s',
    setUpEvents (checkout_element "click" "start") (fst fresh_registry)
      (snd fresh_registry) = Some s'
    /\ reachable s'.
Proof.
  exact (proj2 (proj2 (reachable_calls_return fresh_registry
                         fresh_registry_reachable))
           (checkout_element "click" "start")).
Defined.
